(** * Needle neural-network layers: a shallow embedding and its properties

    The layer library of [python/needle/nn] (nn_basic.py, nn_conv.py,
    nn_transformer.py) and the initializers of [python/needle/init]
    (init_initializers.py) are embedded here.  Tensor entries are real numbers
    (the exact-arithmetic reading of float32); a tensor is a shape together
    with the function from multi-indices to entries.  The attention module is
    embedded a second time, in [Float32], over IEEE 754 binary32 entries
    (rounding to nearest, overflow to infinity, NaN), for the properties that
    rounding, overflow or underflow decide.  The Python object graph the
    parameter registry walks is a store of module objects whose attribute
    dictionaries keep their insertion order. *)

From Stdlib Require Import Reals Lra Lia ZArith String FunctionalExtensionality
  Classical SpecFloat.
From stdpp Require Import base option list gmap strings.

#[local] Set Warnings "-register-all".

(** ** The tensor engine *)

Module Engine.

(** Python exceptions the layers can meet. *)
Inductive exn : Type :=
| ShapeError
| IndexError
| AssertionError
| ValueError
| ZeroDivisionError.

Inductive result (A : Type) : Type :=
| Ok (a : A)
| Raise (e : exn).
Arguments Ok {A} a.
Arguments Raise {A} e.

Definition rbind {A B : Type} (m : result A) (k : A -> result B) : result B :=
  match m with
  | Ok a => k a
  | Raise e => Raise e
  end.

#[global] Instance result_ret : MRet result := fun _ a => Ok a.
#[global] Instance result_bind : MBind result := fun _ _ k m => rbind m k.

(** Modelled from the spec: the engine's Tensor, "external multi-dimensional
    array with a shape (ordered sequence of non-negative integers)"; the
    autograd module itself is not among the sources.  Device, dtype and the
    gradient flag are carried opaquely by the engine and are left out. *)
Record Tensor : Type := mkTensor {
  shape : list nat;
  item : list nat -> R
}.


Definition numel (s : list nat) : nat := foldr Nat.mul 1 s.

(** A multi-index addresses an entry when it has the rank of the shape and
    stays below every dimension. *)
Definition valid_index (s idx : list nat) : Prop := Forall2 lt idx s.

Fixpoint valid_indexb (s idx : list nat) : bool :=
  match s, idx with
  | [], [] => true
  | d :: s', i :: idx' => (i <? d) && valid_indexb s' idx'
  | _, _ => false
  end.

(** Two tensors are the same array: same shape, same entry at every
    addressable index. *)
Definition tensor_eq (a b : Tensor) : Prop :=
  shape a = shape b /\
  forall idx, valid_index (shape a) idx -> item a idx = item b idx.

(** Row-major linear offset of an index, and its inverse. *)
Fixpoint ravel (s idx : list nat) : nat :=
  match s, idx with
  | _ :: s', i :: idx' => i * numel s' + ravel s' idx'
  | _, _ => 0
  end.

Fixpoint unravel (s : list nat) (n : nat) : list nat :=
  match s with
  | [] => []
  | _ :: s' => (n / numel s') :: unravel s' (n mod numel s')
  end.

Definition Rsum (d : nat) (f : nat -> R) : R :=
  foldr (fun k acc => (f k + acc)%R) 0%R (seq 0 d).

(** Maximum of [f 0 .. f d] (d + 1 values). *)
Fixpoint Rmaximum (d : nat) (f : nat -> R) : R :=
  match d with
  | O => f O
  | S d' => Rmax (Rmaximum d' f) (f d)
  end.

(** Modelled from the spec: the engine operations of the "EXTERNAL
    INTERFACES" section (elementwise arithmetic and exponential, matrix
    multiply, broadcast-to-shape, reshape, axis transpose, reduction over an
    axis); shape violations "fail immediately with a descriptive
    shape-mismatch error rather than silently broadcasting or truncating".
    Entries being real numbers, the arithmetic is exact: what float32 rounds
    away, overflows or underflows is not seen here, and a quotient by 0 (an
    infinity or NaN in float32) is not represented.  [Float32] below has the
    attention module over float32 entries. *)
Definition map_tensor (f : R -> R) (t : Tensor) : Tensor :=
  mkTensor (shape t) (fun idx => f (item t idx)).

Definition ewise (f : R -> R -> R) (a b : Tensor) : result Tensor :=
  if decide (shape a = shape b)
  then Ok (mkTensor (shape a) (fun idx => f (item a idx) (item b idx)))
  else Raise ShapeError.

Definition add := ewise Rplus.
Definition sub := ewise Rminus.
Definition mul := ewise Rmult.
Definition div := ewise Rdiv.

Definition add_scalar (t : Tensor) (c : R) := map_tensor (fun x => (x + c)%R) t.
Definition mul_scalar (t : Tensor) (c : R) := map_tensor (fun x => (x * c)%R) t.
Definition div_scalar (t : Tensor) (c : R) := map_tensor (fun x => (x / c)%R) t.
(** [t ** 2] and [t ** 0.5]. *)
Definition square (t : Tensor) := map_tensor (fun x => (x * x)%R) t.
Definition pow_half (t : Tensor) := map_tensor sqrt t.
Definition exp (t : Tensor) := map_tensor Rtrigo_def.exp t.
Definition relu (t : Tensor) := map_tensor (Rmax 0) t.
Definition tanh (t : Tensor) := map_tensor Rtrigo_def.tanh t.

Definition reshape (t : Tensor) (new_shape : list nat) : result Tensor :=
  if decide (numel new_shape = numel (shape t))
  then Ok (mkTensor new_shape
             (fun idx => item t (unravel (shape t) (ravel new_shape idx))))
  else Raise ShapeError.

(** A dimension can be broadcast when it is kept or was 1. *)
Fixpoint broadcastable (s new_shape : list nat) : bool :=
  match s, new_shape with
  | [], [] => true
  | d :: s', d' :: n' => ((d =? d') || (d =? 1)) && broadcastable s' n'
  | _, _ => false
  end.

(** The source index of a broadcast entry: 0 along every axis of size 1. *)
Fixpoint bidx (s idx : list nat) : list nat :=
  match s, idx with
  | d :: s', i :: idx' => (if d =? 1 then 0 else i) :: bidx s' idx'
  | _, _ => []
  end.

Definition broadcast_to (t : Tensor) (new_shape : list nat) : result Tensor :=
  if broadcastable (shape t) new_shape
  then Ok (mkTensor new_shape (fun idx => item t (bidx (shape t) idx)))
  else Raise ShapeError.

(** [insert_at k x l] puts [x] before position [k]; [delete k l] (stdpp) drops
    position [k]. *)
Definition insert_at {A : Type} (k : nat) (x : A) (l : list A) : list A :=
  take k l ++ x :: drop k l.

Definition summation (t : Tensor) (axis : nat) : result Tensor :=
  match shape t !! axis with
  | Some d =>
      Ok (mkTensor (delete axis (shape t))
            (fun idx => Rsum d (fun k => item t (insert_at axis k idx))))
  | None => Raise IndexError
  end.

(** Maximum along an axis; an empty axis has no maximum. *)
Definition max_axis (t : Tensor) (axis : nat) : result Tensor :=
  match shape t !! axis with
  | Some (S d) =>
      Ok (mkTensor (delete axis (shape t))
            (fun idx => Rmaximum d (fun k => item t (insert_at axis k idx))))
  | Some O => Raise ValueError
  | None => Raise IndexError
  end.

Definition swap {A : Type} (i j : nat) (l : list A) : list A :=
  match l !! i, l !! j with
  | Some x, Some y => <[i := y]> (<[j := x]> l)
  | _, _ => l
  end.

(** [t.transpose((i, j))] exchanges two axes. *)
Definition transpose (t : Tensor) (i j : nat) : result Tensor :=
  if (i <? length (shape t)) && (j <? length (shape t))
  then Ok (mkTensor (swap i j (shape t)) (fun idx => item t (swap i j idx)))
  else Raise IndexError.

(** [t.transpose()] exchanges the last two axes. *)
Definition transpose_last (t : Tensor) : result Tensor :=
  transpose t (length (shape t) - 2) (length (shape t) - 1).

(** [a @ b] on matrices. *)
Definition matmul2 (a b : Tensor) : result Tensor :=
  match shape a, shape b with
  | [m; k], [k'; n] =>
      if decide (k = k')
      then Ok (mkTensor [m; n]
                 (fun idx => match idx with
                             | [i; j] => Rsum k (fun c => (item a [i; c] * item b [c; j])%R)
                             | _ => 0%R
                             end))
      else Raise ShapeError
  | _, _ => Raise ShapeError
  end.

(** Modelled from the spec: the constant tensors of [init] ([ones], [zeros],
    [zeros_like]); init_basic is not among the sources. *)
Definition full (s : list nat) (c : R) : Tensor := mkTensor s (fun _ => c).
Definition zeros (s : list nat) : Tensor := full s 0%R.
Definition ones (s : list nat) : Tensor := full s 1%R.
Definition zeros_like (t : Tensor) : Tensor := zeros (shape t).

(** Python sequence indexing from the end: [l[-k]] and [l[-k] = x]. *)
Definition index_from_end {A : Type} (l : list A) (k : nat) : result A :=
  if (1 <=? k) && (k <=? length l)
  then match l !! (length l - k) with
       | Some x => Ok x
       | None => Raise IndexError
       end
  else Raise IndexError.

Definition assign_from_end {A : Type} (l : list A) (k : nat) (x : A)
  : result (list A) :=
  if (1 <=? k) && (k <=? length l)
  then Ok (<[length l - k := x]> l)
  else Raise IndexError.

(** [l[k]] for a non-negative [k]. *)
Definition index {A : Type} (l : list A) (k : nat) : result A :=
  match l !! k with
  | Some x => Ok x
  | None => Raise IndexError
  end.

(** Statements that can both raise and assign to [self]: an exception leaves
    the assignments made before it in place. *)
Definition stateful (S A : Type) : Type := S -> result A * S.

#[global] Instance stateful_ret {S : Type} : MRet (stateful S) :=
  fun _ a s => (Ok a, s).
#[global] Instance stateful_bind {S : Type} : MBind (stateful S) :=
  fun _ _ k m s =>
    match m s with
    | (Ok a, s') => k a s'
    | (Raise e, s') => (Raise e, s')
    end.

Definition lift {S A : Type} (r : result A) : stateful S A := fun s => (r, s).
Definition get {S : Type} : stateful S S := fun s => (Ok s, s).
Definition put {S : Type} (s : S) : stateful S unit := fun _ => (Ok tt, s).

End Engine.


(** ** init_initializers.py *)

Module init_initializers.
Import Engine.

(** Python's [a / b] with an integer divisor: a zero divisor raises. *)
Definition truediv (a : R) (b : nat) : result R :=
  if b =? 0 then Raise ZeroDivisionError else Ok (a / INR b)%R.

Section WithGenerator.
(** [rand] (shape, low, high) and [randn] (shape, mean, std) of init_basic,
    which is not among the sources: the tensors the generator draws. *)
Variable rand : list nat -> R -> R -> Tensor.
Variable randn : list nat -> R -> R -> Tensor.

Definition xavier_uniform (fan_in fan_out : nat) (gain : R) : result Tensor :=
  low ← (q ← truediv 6 (fan_in + fan_out); Ok (- sqrt q * gain)%R);
  high ← (q ← truediv 6 (fan_in + fan_out); Ok (sqrt q * gain)%R);
  Ok (rand [fan_in; fan_out] low high).

Definition xavier_normal (fan_in fan_out : nat) (gain : R) : result Tensor :=
  std ← (q ← truediv 2 (fan_in + fan_out); Ok (sqrt q * gain)%R);
  Ok (randn [fan_in; fan_out] 0 std).

(** [if shape:] holds for a non-empty tuple; [None] and [()] take the other
    branch. *)
Definition kaiming_uniform (fan_in fan_out : nat) (shape : option (list nat))
    (nonlinearity : string) : result Tensor :=
  if negb (bool_decide (nonlinearity = "relu"%string)) then Raise AssertionError
  else
    let gain := sqrt 2 in
    match shape with
    | Some (d :: s) =>
        low ← (q ← truediv 3 fan_in; Ok (- sqrt q * gain)%R);
        high ← (q ← truediv 3 fan_in; Ok (sqrt q * gain)%R);
        Ok (rand (d :: s) low high)
    | _ =>
        low ← (q ← truediv 3 fan_in; Ok (- sqrt q * gain)%R);
        high ← (q ← truediv 3 fan_in; Ok (sqrt q * gain)%R);
        Ok (rand [fan_in; fan_out] low high)
    end.

(** [gain / math.sqrt(fan_in)]: the square root of 0 is 0.0, and the division
    raises. *)
Definition kaiming_normal (fan_in fan_out : nat) (nonlinearity : string)
  : result Tensor :=
  if negb (bool_decide (nonlinearity = "relu"%string)) then Raise AssertionError
  else
    let gain := sqrt 2 in
    std ← (if fan_in =? 0 then Raise ZeroDivisionError
           else Ok (gain / sqrt (INR fan_in))%R);
    Ok (randn [fan_in; fan_out] 0 std).
End WithGenerator.

End init_initializers.

(** ** nn_basic.py: the parameter registry *)

Module nn_basic.
Import Engine.

(** Module objects live in a store and are referred to by address: [eval]
    and [train] assign through the references [_children] returns. *)
Definition loc := nat.

(** The Python values a module attribute can hold, as far as the registry
    tells them apart. *)
Inductive value : Type :=
| VNone
| VBool (b : bool)
| VInt (n : Z)
| VFloat (r : R)
| VStr (s : string)
| VOther (tag : string)
| VTensor (t : Tensor)
| VParameter (t : Tensor)
| VModule (l : loc)
| VDict (kvs : list (string * value))
| VList (vs : list value)
| VTuple (vs : list value).

(** A Module instance: its class, and its attribute dictionary in insertion
    order.  [Module.__init__] runs first in every constructor, so the
    dictionary starts with the [training] flag. *)
Record object : Type := mkObject {
  cls : string;
  training : bool;
  attrs : list (string * value)
}.

Definition __dict__ (o : object) : list (string * value) :=
  ("training"%string, VBool (training o)) :: attrs o.

(** The walks below recurse through the store; [fuel] bounds the depth of the
    recursion and [None] stands for a walk that did not finish. *)
Fixpoint _unpack_params (fuel : nat) (st : gmap loc object) (v : value)
  : option (list Tensor) :=
  match fuel with
  | O => None
  | S n =>
      match v with
      | VParameter t => Some [t]
      | VModule l =>
          o ← st !! l; _unpack_params n st (VDict (__dict__ o))
      | VDict kvs =>
          pss ← mapM (fun kv => _unpack_params n st kv.2) kvs; Some (concat pss)
      | VList vs | VTuple vs =>
          pss ← mapM (_unpack_params n st) vs; Some (concat pss)
      | _ => Some []
      end
  end.

Fixpoint _child_modules (fuel : nat) (st : gmap loc object) (v : value)
  : option (list loc) :=
  match fuel with
  | O => None
  | S n =>
      match v with
      | VModule l =>
          o ← st !! l;
          ms ← _child_modules n st (VDict (__dict__ o));
          Some (l :: ms)
      | VDict kvs =>
          mss ← mapM (fun kv => _child_modules n st kv.2) kvs; Some (concat mss)
      | VList vs | VTuple vs =>
          mss ← mapM (_child_modules n st) vs; Some (concat mss)
      | _ => Some []
      end
  end.

Module Module.

Definition parameters (fuel : nat) (st : gmap loc object) (self : loc)
  : option (list Tensor) :=
  o ← st !! self; _unpack_params fuel st (VDict (__dict__ o)).

Definition _children (fuel : nat) (st : gmap loc object) (self : loc)
  : option (list loc) :=
  o ← st !! self; _child_modules fuel st (VDict (__dict__ o)).

(** [m.training = b] *)
Definition set_training (b : bool) (st : gmap loc object) (m : loc)
  : gmap loc object :=
  alter (fun o => mkObject (cls o) b (attrs o)) m st.

Definition eval (fuel : nat) (st : gmap loc object) (self : loc)
  : option (gmap loc object) :=
  let st1 := set_training false st self in
  ms ← _children fuel st1 self;
  Some (foldl (set_training false) st1 ms).

Definition train (fuel : nat) (st : gmap loc object) (self : loc)
  : option (gmap loc object) :=
  let st1 := set_training true st self in
  ms ← _children fuel st1 self;
  Some (foldl (set_training true) st1 ms).

End Module.

(** *** The module graph

    The notions the properties of the registry are stated with. *)

(** The module references a value holds directly. *)
Fixpoint refs (v : value) : list loc :=
  match v with
  | VModule l => [l]
  | VDict kvs => flat_map (fun kv => refs kv.2) kvs
  | VList vs | VTuple vs => flat_map refs vs
  | _ => []
  end.

(** The module graph is a tree or a DAG: every reference points to a stored
    object of smaller rank ("no reference cycles are permitted in the module
    graph"). *)
Definition acyclic (st : gmap loc object) : Prop :=
  exists rank : loc -> nat,
    forall l o l', st !! l = Some o -> l' ∈ refs (VDict (attrs o)) ->
                   is_Some (st !! l') /\ rank l' < rank l.

(** The modules reachable from a value through module attributes, dicts,
    lists and tuples. *)
Inductive reachable (st : gmap loc object) : value -> loc -> Prop :=
| reach_module l : reachable st (VModule l) l
| reach_attr l o l' :
    st !! l = Some o -> reachable st (VDict (__dict__ o)) l' ->
    reachable st (VModule l) l'
| reach_dict kvs k v l :
    (k, v) ∈ kvs -> reachable st v l -> reachable st (VDict kvs) l
| reach_list vs v l :
    v ∈ vs -> reachable st v l -> reachable st (VList vs) l
| reach_tuple vs v l :
    v ∈ vs -> reachable st v l -> reachable st (VTuple vs) l.

(** The recursion rule of the registry, as the specification words it. *)
Inductive params_rule (st : gmap loc object) : value -> list Tensor -> Prop :=
| rule_parameter t : params_rule st (VParameter t) [t]
| rule_module l o ps :
    st !! l = Some o -> params_rule st (VDict (__dict__ o)) ps ->
    params_rule st (VModule l) ps
| rule_dict kvs pss :
    Forall2 (fun kv ps => params_rule st kv.2 ps) kvs pss ->
    params_rule st (VDict kvs) (concat pss)
| rule_list vs pss :
    Forall2 (params_rule st) vs pss -> params_rule st (VList vs) (concat pss)
| rule_tuple vs pss :
    Forall2 (params_rule st) vs pss -> params_rule st (VTuple vs) (concat pss)
| rule_other v :
    match v with
    | VParameter _ | VModule _ | VDict _ | VList _ | VTuple _ => False
    | _ => True
    end -> params_rule st v [].

(** *** The layers of nn_basic.py *)

(** The [device] attribute: [None], or a backend device object. *)
Definition device_value (device : option string) : value :=
  match device with
  | None => VNone
  | Some tag => VOther tag
  end.

Module Linear.
Record t : Type := mk {
  training : bool;
  in_features : nat;
  out_features : nat;
  weight : Tensor;
  bias : option Tensor
}.

Definition forward (self : t) (X : Tensor) : result Tensor :=
  output ← matmul2 X (weight self);
  match bias self with
  | Some b => b' ← broadcast_to b (shape output); add output b'
  | None => Ok output
  end.

Section WithGenerator.
Variable rand : list nat -> R -> R -> Tensor.

Definition __init__ (in_features out_features : nat) (bias : bool) : result t :=
  weight ← init_initializers.kaiming_uniform rand in_features out_features
             None "relu";
  bias ← (if bias then
            b ← init_initializers.kaiming_uniform rand out_features 1 None "relu";
            b ← reshape b [1; out_features];
            Ok (Some b)
          else Ok None);
  Ok (mk true in_features out_features weight bias).
End WithGenerator.
End Linear.

Module Flatten.
Definition forward (X : Tensor) : result Tensor :=
  let size := numel (shape X) in
  d0 ← index (shape X) 0;
  if d0 =? 0 then Raise ZeroDivisionError
  else reshape X [d0; size / d0].
End Flatten.

Module BatchNorm1d.
Record t : Type := mk {
  training : bool;
  dim : nat;
  eps : R;
  momentum : R;
  weight : Tensor;
  bias : Tensor;
  running_mean : Tensor;
  running_var : Tensor
}.

Definition __init__ (dim : nat) (eps momentum : R) : t :=
  mk true dim eps momentum (ones [dim]) (zeros [dim]) (zeros [dim]) (ones [dim]).

Definition set_running_mean (v : Tensor) : stateful t unit :=
  fun self =>
    (Ok tt, mk (training self) (dim self) (eps self) (momentum self)
               (weight self) (bias self) v (running_var self)).

Definition set_running_var (v : Tensor) : stateful t unit :=
  fun self =>
    (Ok tt, mk (training self) (dim self) (eps self) (momentum self)
               (weight self) (bias self) (running_mean self) v).

(** [(x - mean) / (var + eps) ** 0.5 * weight + bias], every per-feature
    vector reshaped to [(1, dim)] and broadcast to the shape of [x]. *)
Definition normalize (self : t) (x mean var : Tensor) : result Tensor :=
  m1 ← reshape mean [1; dim self];
  m2 ← broadcast_to m1 (shape x);
  centered ← sub x m2;
  v1 ← reshape var [1; dim self];
  v2 ← broadcast_to v1 (shape x);
  let std := pow_half (add_scalar v2 (eps self)) in
  q ← div centered std;
  w1 ← reshape (weight self) [1; dim self];
  w2 ← broadcast_to w1 (shape x);
  scaled ← mul q w2;
  b1 ← reshape (bias self) [1; dim self];
  b2 ← broadcast_to b1 (shape x);
  add scaled b2.

Definition forward (x : Tensor) : stateful t Tensor :=
  batch ← lift (index (shape x) 0);
  self ← get;
  if training self then
    avg ← lift (s ← summation x 0; Ok (div_scalar s (INR batch)));
    var ← lift (a1 ← reshape avg [1; dim self];
                a2 ← broadcast_to a1 (shape x);
                c ← sub x a2;
                s ← summation (square c) 0;
                Ok (div_scalar s (INR batch)));
    rm ← lift (add (mul_scalar (running_mean self) (1 - momentum self))
                   (mul_scalar avg (momentum self)));
    _ ← set_running_mean rm;
    self ← get;
    rv ← lift (add (mul_scalar (running_var self) (1 - momentum self))
                   (mul_scalar var (momentum self)));
    _ ← set_running_var rv;
    self ← get;
    lift (normalize self x avg var)
  else
    lift (normalize self x (running_mean self) (running_var self)).

(** The attribute dictionary [__init__] and [forward] leave behind. *)
Definition to_object (class_name : string) (device : option string) (self : t)
  : object :=
  mkObject class_name (training self)
    [("dim"%string, VInt (Z.of_nat (dim self)));
     ("eps"%string, VFloat (eps self));
     ("momentum"%string, VFloat (momentum self));
     ("weight"%string, VParameter (weight self));
     ("bias"%string, VParameter (bias self));
     ("running_mean"%string, VTensor (running_mean self));
     ("running_var"%string, VTensor (running_var self));
     ("device"%string, device_value device)].
End BatchNorm1d.

Module BatchNorm2d.
(** [class BatchNorm2d(BatchNorm1d)]: same attributes, its own forward. *)
Definition forward (x : Tensor) : stateful BatchNorm1d.t Tensor :=
  let s := shape x in
  _x ← lift (x1 ← transpose x 1 2;
             x2 ← transpose x1 2 3;
             s0 ← index s 0; s2 ← index s 2; s3 ← index s 3; s1 ← index s 1;
             reshape x2 [s0 * s2 * s3; s1]);
  y0 ← BatchNorm1d.forward _x;
  lift (s0 ← index s 0; s2 ← index s 2; s3 ← index s 3; s1 ← index s 1;
        y ← reshape y0 [s0; s2; s3; s1];
        y1 ← transpose y 2 3;
        transpose y1 1 2).
End BatchNorm2d.

Module LayerNorm1d.
Record t : Type := mk {
  training : bool;
  dim : nat;
  eps : R;
  weight : Tensor;
  bias : Tensor
}.

Definition __init__ (dim : nat) (eps : R) : t :=
  mk true dim eps (ones [dim]) (zeros [dim]).

Definition forward (self : t) (x : Tensor) : result Tensor :=
  last ← index_from_end (shape x) 1;
  if negb (last =? dim self) then Raise AssertionError else
  tmp_shape ← assign_from_end (shape x) 1 1;
  tmp_param_shape ← assign_from_end (replicate (length (shape x)) 1) 1 (dim self);
  avg ← (s ← summation x (length (shape x) - 1);
         r ← reshape s tmp_shape;
         b ← broadcast_to r (shape x);
         Ok (div_scalar b (INR (dim self))));
  var ← (c ← sub x avg;
         s ← summation (square c) (length (shape x) - 1);
         r ← reshape s tmp_shape;
         b ← broadcast_to r (shape x);
         Ok (div_scalar b (INR (dim self))));
  centered ← sub x avg;
  q ← div centered (pow_half (add_scalar var (eps self)));
  w1 ← reshape (weight self) tmp_param_shape;
  w2 ← broadcast_to w1 (shape x);
  scaled ← mul q w2;
  b1 ← reshape (bias self) tmp_param_shape;
  b2 ← broadcast_to b1 (shape x);
  add scaled b2.
End LayerNorm1d.

Module Dropout.
Record t : Type := mk {
  training : bool;
  p : R
}.

Section WithRandom.
(** [init.randb]: the mask of the [n]-th draw, for a shape and a keep
    probability.  The counter of draws is the state of the generator. *)
Variable randb : nat -> list nat -> R -> Tensor.

Definition forward (self : t) (x : Tensor) : stateful nat Tensor :=
  if training self then
    n ← get;
    _ ← put (S n);
    lift (masked ← mul x (randb n (shape x) (1 - p self));
          Ok (div_scalar masked (1 - p self)))
  else
    mret x.
End WithRandom.

Definition to_object (self : t) : object :=
  mkObject "Dropout" (training self) [("p"%string, VFloat (p self))].
End Dropout.

End nn_basic.

(** ** nn_conv.py *)

Module nn_conv.
Import Engine nn_basic.

(** An argument that is an integer or a tuple of integers. *)
Inductive int_or_tuple : Type :=
| PyInt (n : nat)
| PyTuple (l : list nat).

(** [a[0]] when [a] is a tuple, [a] itself otherwise. *)
Definition first_if_tuple (a : int_or_tuple) : result nat :=
  match a with
  | PyInt n => Ok n
  | PyTuple l => index l 0
  end.

Module Conv.
Record t : Type := mk {
  training : bool;
  in_channels : nat;
  out_channels : nat;
  kernel_size : nat;
  stride : nat;
  padding : nat;
  weight : Tensor;
  bias : option Tensor
}.

Section WithGenerator.
Variable rand : list nat -> R -> R -> Tensor.

(** [kernel_size] and [stride] are integers or tuples, of which the first
    component is taken.  The weight is drawn by [kaiming_uniform] with the
    fan-in [in_channels * kernel_size**2], which raises for a fan-in of 0, so
    that a Conv that is constructed has [kernel_size > 0]; the bias is drawn
    between -1 / fan_in ** 0.5 and 1 / fan_in ** 0.5. *)
Definition __init__ (in_channels out_channels : nat)
    (kernel_size stride : int_or_tuple) (bias : bool) : result t :=
  kernel_size ← first_if_tuple kernel_size;
  stride ← first_if_tuple stride;
  let padding := (kernel_size - 1) / 2 in
  weight ← init_initializers.kaiming_uniform rand
             (in_channels * kernel_size ^ 2) (out_channels * kernel_size ^ 2)
             (Some [kernel_size; kernel_size; in_channels; out_channels]) "relu";
  bias ← (if bias then
            low ← (if in_channels * kernel_size ^ 2 =? 0
                   then Raise ZeroDivisionError
                   else Ok (- (1 / sqrt (INR (in_channels * kernel_size ^ 2))))%R);
            high ← (if in_channels * kernel_size ^ 2 =? 0
                    then Raise ZeroDivisionError
                    else Ok (1 / sqrt (INR (in_channels * kernel_size ^ 2)))%R);
            Ok (Some (rand [out_channels] low high))
          else Ok None);
  Ok (mk true in_channels out_channels kernel_size stride padding weight bias).
End WithGenerator.

Section WithEngine.
(** [ops.conv(x, weight, stride, padding)], the engine's convolution on
    channel-last tensors. *)
Variable conv : Tensor -> Tensor -> nat -> nat -> result Tensor.
(** The truth value Python gives a Tensor object in [if self.bias:]; the
    Tensor class is the engine's. *)
Variable tensor_bool : Tensor -> bool.

Definition forward (self : t) (x : Tensor) : result Tensor :=
  nhwc_x ← (x1 ← transpose x 1 2; transpose x1 2 3);
  nhwc_output ← conv nhwc_x (weight self) (stride self) (padding self);
  nhwc_output ←
    match bias self with
    | Some b =>
        if tensor_bool b then
          r ← reshape b [1; 1; 1; out_channels self];
          b' ← broadcast_to r (shape nhwc_output);
          add nhwc_output b'
        else Ok nhwc_output
    | None => Ok nhwc_output
    end;
  y ← transpose nhwc_output 2 3;
  transpose y 1 2.
End WithEngine.
End Conv.

Module ConvBN.
(** [relu] is the ReLU instance, which holds its training flag only. *)
Record t : Type := mk {
  training : bool;
  conv : Conv.t;
  bn : BatchNorm1d.t;
  relu : bool
}.

Section WithGenerator.
Variable rand : list nat -> R -> R -> Tensor.

(** [BatchNorm2d(out_channels)] takes the defaults [eps=1e-5] and
    [momentum=0.1]; the Conv is built with its default [bias=True]. *)
Definition __init__ (in_channels out_channels : nat)
    (kernel_size stride : int_or_tuple) : result t :=
  conv ← Conv.__init__ rand in_channels out_channels kernel_size stride true;
  Ok (mk true conv (BatchNorm1d.__init__ out_channels (1 / 100000) (1 / 10)) true).
End WithGenerator.

Definition set_bn (self : t) (b : BatchNorm1d.t) : t :=
  mk (training self) (conv self) b (relu self).

Section WithEngine.
Variable ops_conv : Tensor -> Tensor -> nat -> nat -> result Tensor.
Variable tensor_bool : Tensor -> bool.

(** [self.bn(x)]: the call runs on the block's BatchNorm2d and leaves its
    new state in place. *)
Definition call_bn (x : Tensor) : stateful t Tensor :=
  fun self => let '(r, b') := BatchNorm2d.forward x (bn self) in
              (r, set_bn self b').

Definition forward (x : Tensor) : stateful t Tensor :=
  self ← get;
  x ← lift (Conv.forward ops_conv tensor_bool (conv self) x);
  x ← call_bn x;
  mret (Engine.relu x).
End WithEngine.
End ConvBN.

End nn_conv.

(** ** nn_transformer.py *)

Module nn_transformer.
Import Engine nn_basic.

Definition unpack3 (s : list nat) : result (nat * nat * nat) :=
  match s with
  | [a; b; c] => Ok (a, b, c)
  | _ => Raise ValueError
  end.

Definition unpack4 (s : list nat) : result (nat * nat * nat * nat) :=
  match s with
  | [a; b; c; d] => Ok (a, b, c, d)
  | _ => Raise ValueError
  end.

Module MultiHeadAttention.
Record t : Type := mk {
  training : bool;
  causal : bool;
  dropout : Dropout.t
}.

(** [np.finfo(np.float32).max], that is (2 - 2^-23) * 2^127. *)
Definition float32_max : R := IZR ((2 ^ 24 - 1) * 2 ^ 104).

(** [-float32_max * np.triu(np.ones((1, 1, i, j)), j - i + 1)]: [triu] keeps
    the entries with [column - row >= j - i + 1]. *)
Definition create_causal_mask (i j : nat) : Tensor :=
  mkTensor [1; 1; i; j]
    (fun idx =>
       match idx with
       | [_; _; r; c] =>
           (- float32_max *
            (if (Z.of_nat j - Z.of_nat i + 1 <=? Z.of_nat c - Z.of_nat r)%Z
             then 1 else 0))%R
       | _ => 0%R
       end).

Definition matmul (a b_transpose : Tensor) : result Tensor :=
  let sa := shape a in
  let a_shape := take (length sa - 1) sa ++ [1] ++ drop (length sa - 1) sa in
  a ← reshape a a_shape;
  let sb := shape b_transpose in
  let b_transpose_shape :=
    take (length sb - 2) sb ++ [1] ++ drop (length sb - 2) sb in
  b_transpose ← reshape b_transpose b_transpose_shape;
  d ← index_from_end b_transpose_shape 2;
  broadcast_shape ← assign_from_end a_shape 2 d;
  a ← broadcast_to a broadcast_shape;
  d' ← index_from_end a_shape 3;
  broadcast_shape ← assign_from_end b_transpose_shape 3 d';
  b_transpose ← broadcast_to b_transpose broadcast_shape;
  prod ← mul a b_transpose;
  summation prod (length (shape a) - 1).

Definition softmax (logit : Tensor) : result Tensor :=
  max_val ← max_axis logit 3;
  let keep := take (length (shape logit) - 1) (shape logit) ++ [1] in
  max_val ← reshape max_val keep;
  max_val ← broadcast_to max_val (shape logit);
  shifted ← sub logit max_val;
  let probs := exp shifted in
  denom ← summation probs 3;
  denom ← reshape denom keep;
  denom ← broadcast_to denom (shape logit);
  div probs denom.

(** The logits of steps 1 and 2, before the softmax. *)
Definition logits (self : t) (q k : Tensor) (queries_len keys_values_len q_dim : nat)
  : result Tensor :=
  m ← matmul q k;
  let logits := div_scalar m (sqrt (INR q_dim)) in
  if causal self then
    mask ← reshape (create_causal_mask queries_len keys_values_len)
                   [1; 1; queries_len; keys_values_len];
    mask ← broadcast_to mask (shape logits);
    add logits mask
  else Ok logits.

Section WithRandom.
Variable randb : nat -> list nat -> R -> Tensor.

Definition forward (self : t) (q k v : Tensor) : stateful nat (Tensor * Tensor) :=
  '(batch_size, num_head, queries_len, q_dim) ← lift (unpack4 (shape q));
  '(_, _, keys_values_len, k_dim) ← lift (unpack4 (shape k));
  '(_, _, _, v_dim) ← lift (unpack4 (shape v));
  if negb ((q_dim =? k_dim) && (k_dim =? v_dim))
  then lift (Raise AssertionError)
  else
    lg ← lift (logits self q k queries_len keys_values_len q_dim);
    sm ← lift (softmax lg);
    probs ← Dropout.forward randb (dropout self) sm;
    result ← lift (vt ← transpose_last v; matmul probs vt);
    mret (result, probs).
End WithRandom.
End MultiHeadAttention.

Module AttentionLayer.
Record t : Type := mk {
  training : bool;
  q_features : nat;
  k_features : nat;
  v_features : nat;
  out_features : nat;
  num_head : nat;
  dim_head : nat;
  prenorm_q : LayerNorm1d.t;
  prenorm_k : LayerNorm1d.t;
  prenorm_v : LayerNorm1d.t;
  q_projection : Linear.t;
  k_projection : Linear.t;
  v_projection : Linear.t;
  attn : MultiHeadAttention.t;
  out_projection : Linear.t
}.

Section WithGenerator.
Variable rand : list nat -> R -> R -> Tensor.

(** The three pre-norms take the default [eps=1e-5]; the four projections
    are built without bias; every sub-module starts in training mode. *)
Definition __init__ (q_features num_head dim_head : nat)
    (k_features v_features out_features : option nat)
    (dropout : R) (causal : bool) : result t :=
  let k_features := default q_features k_features in
  let v_features := default q_features v_features in
  let out_features := default q_features out_features in
  let prenorm_q := LayerNorm1d.__init__ q_features (1 / 100000) in
  let prenorm_k := LayerNorm1d.__init__ k_features (1 / 100000) in
  let prenorm_v := LayerNorm1d.__init__ v_features (1 / 100000) in
  let inner_dim := num_head * dim_head in
  q_projection ← Linear.__init__ rand q_features inner_dim false;
  k_projection ← Linear.__init__ rand k_features inner_dim false;
  v_projection ← Linear.__init__ rand v_features inner_dim false;
  let attn := MultiHeadAttention.mk true causal (Dropout.mk true dropout) in
  out_projection ← Linear.__init__ rand inner_dim out_features false;
  Ok (mk true q_features k_features v_features out_features num_head dim_head
         prenorm_q prenorm_k prenorm_v q_projection k_projection v_projection
         attn out_projection).
End WithGenerator.

(** Pre-normalisation, projection and the split into heads of one of the
    three inputs. *)
Definition project (self : t) (norm : LayerNorm1d.t) (proj : Linear.t)
    (x : Tensor) (batch_size len x_dim : nat) : result Tensor :=
  flat ← reshape x [batch_size * len; x_dim];
  normalized ← LayerNorm1d.forward norm flat;
  projected ← Linear.forward proj normalized;
  heads ← reshape projected [batch_size; len; num_head self; dim_head self];
  transpose heads 1 2.

Section WithRandom.
Variable randb : nat -> list nat -> R -> Tensor.

Definition forward (self : t) (q : Tensor) (k v : option Tensor)
  : stateful nat Tensor :=
  let k := default q k in
  let v := default q v in
  '(batch_size, queries_len, q_dim) ← lift (unpack3 (shape q));
  '(_, keys_values_len, k_dim) ← lift (unpack3 (shape k));
  '(_, _, v_dim) ← lift (unpack3 (shape v));
  Q ← lift (project self (prenorm_q self) (q_projection self) q
                    batch_size queries_len q_dim);
  K ← lift (project self (prenorm_k self) (k_projection self) k
                    batch_size keys_values_len k_dim);
  V ← lift (project self (prenorm_v self) (v_projection self) v
                    batch_size keys_values_len v_dim);
  '(X, probs) ← MultiHeadAttention.forward randb (attn self) Q K V;
  lift (X1 ← transpose X 1 2;
        X2 ← reshape X1 [batch_size; queries_len; num_head self * dim_head self];
        X3 ← reshape X2 [batch_size * queries_len; num_head self * dim_head self];
        result ← Linear.forward (out_projection self) X3;
        reshape result [batch_size; queries_len; out_features self]).
End WithRandom.
End AttentionLayer.

(** Any Module instance a container can hold; [call] below is
    [Module.__call__], the dispatch to the forward of the instance's class. *)
Inductive layer : Type :=
| L_Identity (training : bool)
| L_Linear (m : Linear.t)
| L_Flatten (training : bool)
| L_ReLU (training : bool)
| L_Tanh (training : bool)
| L_Sequential (training : bool) (modules : list layer)
| L_BatchNorm1d (m : BatchNorm1d.t)
| L_BatchNorm2d (m : BatchNorm1d.t)
| L_LayerNorm1d (m : LayerNorm1d.t)
| L_Dropout (m : Dropout.t)
| L_Residual (training : bool) (fn : layer)
| L_AttentionLayer (m : AttentionLayer.t)
| L_TransformerLayer (training : bool) (resblock1 : layer)
    (norm : LayerNorm1d.t) (mlp : layer).

(** A forward call on a layer: the result or the exception, the layer as
    the call leaves it, and the generator's counter. *)
Definition outcome (S : Type) : Type := (result Tensor * (S * nat))%type.

Module Sequential.
Section Forward.
Variable call : layer -> Tensor -> nat -> outcome layer.

Fixpoint forward (modules : list layer) (x : Tensor) (n : nat)
  : outcome (list layer) :=
  match modules with
  | [] => (Ok x, ([], n))
  | module :: rest =>
      match call module x n with
      | (Ok y, (module', n')) =>
          let '(r, (rest', n'')) := forward rest y n' in
          (r, (module' :: rest', n''))
      | (Raise e, (module', n')) => (Raise e, (module' :: rest, n'))
      end
  end.
End Forward.
End Sequential.

Module Residual.
Section Forward.
Variable call : layer -> Tensor -> nat -> outcome layer.

Definition forward (fn : layer) (x : Tensor) (n : nat) : outcome layer :=
  match call fn x n with
  | (Ok y, st) => (add x y, st)
  | (Raise e, st) => (Raise e, st)
  end.
End Forward.
End Residual.

Module TransformerLayer.
Section Forward.
Variable call : layer -> Tensor -> nat -> outcome layer.

(** The state is the pair of the two sub-blocks the call can change. *)
Definition forward (resblock1 : layer) (norm : LayerNorm1d.t) (mlp : layer)
    (x : Tensor) (n : nat) : outcome (layer * layer) :=
  match unpack3 (shape x) with
  | Raise e => (Raise e, ((resblock1, mlp), n))
  | Ok (batch_size, seq_len, x_dim) =>
      match call resblock1 x n with
      | (Raise e, (resblock1', n1)) => (Raise e, ((resblock1', mlp), n1))
      | (Ok y, (resblock1', n1)) =>
          match (x1 ← add x y;
                 flat ← reshape x1 [batch_size * seq_len; x_dim];
                 x_ ← LayerNorm1d.forward norm flat;
                 Ok (x1, x_)) with
          | Raise e => (Raise e, ((resblock1', mlp), n1))
          | Ok (x1, x_) =>
              match call mlp x_ n1 with
              | (Raise e, (mlp', n2)) => (Raise e, ((resblock1', mlp'), n2))
              | (Ok z, (mlp', n2)) =>
                  (z' ← reshape z [batch_size; seq_len; x_dim]; add x1 z',
                   ((resblock1', mlp'), n2))
              end
          end
      end
  end.
End Forward.

Section WithGenerator.
Variable rand : list nat -> R -> R -> Tensor.

(** The layer [__init__] builds: the attention block, the norm and the
    two-layer perceptron, every sub-module in training mode. *)
Definition __init__ (q_features num_head dim_head hidden_size : nat)
    (dropout : R) (causal : bool) : result layer :=
  attn ← AttentionLayer.__init__ rand q_features num_head dim_head
           None None None dropout causal;
  let resblock1 :=
    L_Sequential true [L_AttentionLayer attn; L_Dropout (Dropout.mk true dropout)] in
  let norm := LayerNorm1d.__init__ q_features (1 / 100000) in
  l1 ← Linear.__init__ rand q_features hidden_size true;
  l2 ← Linear.__init__ rand hidden_size q_features true;
  let mlp :=
    L_Sequential true
      [L_Linear l1; L_ReLU true; L_Dropout (Dropout.mk true dropout);
       L_Linear l2; L_Dropout (Dropout.mk true dropout)] in
  Ok (L_TransformerLayer true resblock1 norm mlp).
End WithGenerator.
End TransformerLayer.

Section WithRandom.
Variable randb : nat -> list nat -> R -> Tensor.

Fixpoint call (m : layer) (x : Tensor) (n : nat) {struct m} : outcome layer :=
  match m with
  | L_Identity _ => (Ok x, (m, n))
  | L_Linear l => (Linear.forward l x, (m, n))
  | L_Flatten _ => (Flatten.forward x, (m, n))
  | L_ReLU _ => (Ok (relu x), (m, n))
  | L_Tanh _ => (Ok (tanh x), (m, n))
  | L_Sequential tr modules =>
      let '(r, (modules', n')) := Sequential.forward call modules x n in
      (r, (L_Sequential tr modules', n'))
  | L_BatchNorm1d b =>
      let '(r, b') := BatchNorm1d.forward x b in (r, (L_BatchNorm1d b', n))
  | L_BatchNorm2d b =>
      let '(r, b') := BatchNorm2d.forward x b in (r, (L_BatchNorm2d b', n))
  | L_LayerNorm1d l => (LayerNorm1d.forward l x, (m, n))
  | L_Dropout d =>
      let '(r, n') := Dropout.forward randb d x n in (r, (m, n'))
  | L_Residual tr fn =>
      let '(r, (fn', n')) := Residual.forward call fn x n in
      (r, (L_Residual tr fn', n'))
  | L_AttentionLayer a =>
      let '(r, n') := AttentionLayer.forward randb a x None None n in
      (r, (m, n'))
  | L_TransformerLayer tr resblock1 norm mlp =>
      let '(r, ((resblock1', mlp'), n')) :=
        TransformerLayer.forward call resblock1 norm mlp x n in
      (r, (L_TransformerLayer tr resblock1' norm mlp', n'))
  end.
End WithRandom.

Module Embedding.
Record t : Type := mk {
  training : bool;
  num_embeddings : nat;
  embedding_dim : nat;
  weight : Tensor
}.

(** Modelled from the spec: [nn_sequence.Embedding] is not among the sources;
    "a trainable lookup table of shape (max_sequence_len, embedding_size),
    indexed by position integers".  The input holds one position per
    (sequence, batch) entry; the output adds the embedding axis. *)
Definition forward (self : t) (x : Tensor) : result Tensor :=
  match shape x with
  | [seq_len; bs] =>
      Ok (mkTensor [seq_len; bs; embedding_dim self]
            (fun idx =>
               match idx with
               | [i; j; e] =>
                   Rsum (num_embeddings self)
                     (fun k => if Req_dec_T (item x [i; j]) (INR k)
                               then item (weight self) [k; e] else 0%R)
               | _ => 0%R
               end))
  | _ => Raise ShapeError
  end.
End Embedding.

Module Transformer.
Record t : Type := mk {
  training : bool;
  batch_first : bool;
  sequence_len : nat;
  position_embedding : Embedding.t;
  transformer_layers : layer
}.

(** [np.arange(l).reshape(l, 1)] *)
Definition arange_column (l : nat) : Tensor :=
  mkTensor [l; 1] (fun idx => match idx with i :: _ => INR i | [] => 0%R end).

Definition set_transformer_layers (self : t) (layers : layer) : t :=
  mk (training self) (batch_first self) (sequence_len self)
     (position_embedding self) layers.

Section WithRandom.
Variable randb : nat -> list nat -> R -> Tensor.

Definition forward (self : t) (x : Tensor) (h : option Tensor) (n : nat)
  : result (Tensor * Tensor) * (t * nat) :=
  match (x ← (if batch_first self then Ok x else transpose x 0 1);
         '(b, l, d) ← unpack3 (shape x);
         pos ← broadcast_to (arange_column l) [l; b];
         pos ← Embedding.forward (position_embedding self) pos;
         pos ← transpose pos 0 1;
         add x pos) with
  | Raise e => (Raise e, (self, n))
  | Ok x =>
      let '(r, (layers', n')) := call randb (transformer_layers self) x n in
      (x ← r;
       x ← (if batch_first self then Ok x else transpose x 0 1);
       Ok (x, zeros_like x),
       (set_transformer_layers self layers', n'))
  end.
End WithRandom.
End Transformer.

End nn_transformer.

(** ** The attention module over float32 entries *)

(** The properties of [MultiHeadAttention] that rounding, overflow or
    underflow decide are stated over this second embedding of the module,
    whose entries are IEEE 754 binary32 numbers. *)
Module Float32.
Import Engine nn_basic.

(** *** binary32 *)

Definition bpow (e : Z) : R := powerRZ 2 e.

(** The integer [n] with [2^(n-1) <= |x| < 2^n], for a nonzero [x]. *)
Definition mag (x : R) : Z := up (ln (Rabs x) / ln 2).

(** The exponent of the last place of [x] in a format of [prec] significant
    bits whose smallest positive number is [2^emin]. *)
Definition cexp (prec emin : Z) (x : R) : Z := Z.max (mag x - prec) emin.

(** The nearest integer, the even one of two that are equally near. *)
Definition ZnearestE (x : R) : Z :=
  let f := Zfloor x in
  if Rlt_dec (x - IZR f) (1 / 2) then f
  else if Rlt_dec (1 / 2) (x - IZR f) then (f + 1)%Z
  else if Z.even f then f else (f + 1)%Z.

(** Rounding to nearest, ties to even, before the test for overflow. *)
Definition rnd (prec emin : Z) (x : R) : R :=
  (IZR (ZnearestE (x * bpow (- cexp prec emin x))) * bpow (cexp prec emin x))%R.

(** Modelled from the spec: a float32 entry ("float32 default") of the
    engine's arrays.  The sign of a zero is not kept: no divisor in the
    layers is a negative zero. *)
Inductive float32 : Type :=
| NaN
| Inf (negative : bool)
| Fin (x : R).

Definition negative (x : R) : bool := if Rlt_dec x 0 then true else false.

(** A real number rounded to binary32 (24 significant bits, smallest
    positive number 2^-149, overflow from 2^128). *)
Definition round32 (x : R) : float32 :=
  let r := rnd 24 (-149) x in
  if Rlt_dec (Rabs r) (bpow 128) then Fin r else Inf (negative x).

(** A real number rounded to a Python float (binary64); used where no
    overflow is met (the square root of a dimension, [1 - p]). *)
Definition round64 (x : R) : R := rnd 53 (-1074) x.

(** A Python float handed to an operation on float32 arrays. *)
Definition scalar (c : R) : float32 := round32 c.

Definition fadd (a b : float32) : float32 :=
  match a, b with
  | NaN, _ | _, NaN => NaN
  | Inf s, Inf s' => if Bool.eqb s s' then Inf s else NaN
  | Inf s, Fin _ => Inf s
  | Fin _, Inf s => Inf s
  | Fin x, Fin y => round32 (x + y)
  end.

Definition fsub (a b : float32) : float32 :=
  match a, b with
  | NaN, _ | _, NaN => NaN
  | Inf s, Inf s' => if Bool.eqb s s' then NaN else Inf s
  | Inf s, Fin _ => Inf s
  | Fin _, Inf s => Inf (negb s)
  | Fin x, Fin y => round32 (x - y)
  end.

Definition fmul (a b : float32) : float32 :=
  match a, b with
  | NaN, _ | _, NaN => NaN
  | Inf s, Inf s' => Inf (xorb s s')
  | Inf s, Fin y => if Req_dec_T y 0 then NaN else Inf (xorb s (negative y))
  | Fin x, Inf s => if Req_dec_T x 0 then NaN else Inf (xorb (negative x) s)
  | Fin x, Fin y => round32 (x * y)
  end.

Definition fdiv (a b : float32) : float32 :=
  match a, b with
  | NaN, _ | _, NaN => NaN
  | Inf _, Inf _ => NaN
  | Inf s, Fin y => Inf (xorb s (negative y))
  | Fin _, Inf _ => Fin 0
  | Fin x, Fin y =>
      if Req_dec_T y 0
      then (if Req_dec_T x 0 then NaN else Inf (negative x))
      else round32 (x / y)
  end.

(** Modelled from the spec: the engine's exponential, taken as correctly
    rounded; the properties below use it at 0, on arguments of at most -200,
    and through its monotonicity. *)
Definition fexp (a : float32) : float32 :=
  match a with
  | NaN => NaN
  | Inf true => Fin 0
  | Inf false => Inf false
  | Fin x => round32 (Rtrigo_def.exp x)
  end.

(** The maximum of two entries, NaN if either is. *)
Definition fmax (a b : float32) : float32 :=
  match a, b with
  | NaN, _ | _, NaN => NaN
  | Inf false, _ | _, Inf false => Inf false
  | Inf true, c | c, Inf true => c
  | Fin x, Fin y => Fin (Rmax x y)
  end.

(** The order of the entries that are not NaN. *)
Definition fle (a b : float32) : Prop :=
  match a, b with
  | NaN, _ | _, NaN => False
  | Inf true, _ => True
  | _, Inf false => True
  | Fin x, Fin y => (x <= y)%R
  | _, _ => False
  end.

(** The entry that a binary32 number of the Standard Library's executable
    IEEE 754 arithmetic ([SpecFloat], 24 bits of precision, exponents below
    128) stands for. *)
Definition of_spec_float (f : spec_float) : float32 :=
  match f with
  | S754_zero _ => Fin 0
  | S754_infinity s => Inf s
  | S754_nan => NaN
  | S754_finite s m e => Fin (IZR (cond_Zopp s (Zpos m)) * bpow e)
  end.

(** The sum of [f 0 .. f (d-1)], accumulated in this order from 0. *)
Definition fsum (d : nat) (f : nat -> float32) : float32 :=
  foldl (fun acc k => fadd acc (f k)) (Fin 0) (seq 0 d).

(** Maximum of [f 0 .. f d] (d + 1 values). *)
Fixpoint fmaximum (d : nat) (f : nat -> float32) : float32 :=
  match d with
  | O => f O
  | S d' => fmax (fmaximum d' f) (f d)
  end.

(** *** Arrays of float32 *)

Record Tensor : Type := mkTensor {
  shape : list nat;
  item : list nat -> float32
}.

Definition tensor_eq (a b : Tensor) : Prop :=
  shape a = shape b /\
  forall idx, valid_index (shape a) idx -> item a idx = item b idx.

(** Modelled from the spec: the engine operations of the "EXTERNAL
    INTERFACES" section, as in [Engine], every arithmetic result rounded to
    float32. *)
Definition map_tensor (f : float32 -> float32) (t : Tensor) : Tensor :=
  mkTensor (shape t) (fun idx => f (item t idx)).

Definition ewise (f : float32 -> float32 -> float32) (a b : Tensor)
  : result Tensor :=
  if decide (shape a = shape b)
  then Ok (mkTensor (shape a) (fun idx => f (item a idx) (item b idx)))
  else Raise ShapeError.

Definition add := ewise fadd.
Definition sub := ewise fsub.
Definition mul := ewise fmul.
Definition div := ewise fdiv.

Definition add_scalar (t : Tensor) (c : R) :=
  map_tensor (fun x => fadd x (scalar c)) t.
Definition div_scalar (t : Tensor) (c : R) :=
  map_tensor (fun x => fdiv x (scalar c)) t.
Definition exp (t : Tensor) := map_tensor fexp t.

Definition reshape (t : Tensor) (new_shape : list nat) : result Tensor :=
  if decide (numel new_shape = numel (shape t))
  then Ok (mkTensor new_shape
             (fun idx => item t (unravel (shape t) (ravel new_shape idx))))
  else Raise ShapeError.

Definition broadcast_to (t : Tensor) (new_shape : list nat) : result Tensor :=
  if broadcastable (shape t) new_shape
  then Ok (mkTensor new_shape (fun idx => item t (bidx (shape t) idx)))
  else Raise ShapeError.

Definition summation (t : Tensor) (axis : nat) : result Tensor :=
  match shape t !! axis with
  | Some d =>
      Ok (mkTensor (delete axis (shape t))
            (fun idx => fsum d (fun k => item t (insert_at axis k idx))))
  | None => Raise IndexError
  end.

Definition max_axis (t : Tensor) (axis : nat) : result Tensor :=
  match shape t !! axis with
  | Some (S d) =>
      Ok (mkTensor (delete axis (shape t))
            (fun idx => fmaximum d (fun k => item t (insert_at axis k idx))))
  | Some O => Raise ValueError
  | None => Raise IndexError
  end.

Definition transpose (t : Tensor) (i j : nat) : result Tensor :=
  if (i <? length (shape t)) && (j <? length (shape t))
  then Ok (mkTensor (swap i j (shape t)) (fun idx => item t (swap i j idx)))
  else Raise IndexError.

Definition transpose_last (t : Tensor) : result Tensor :=
  transpose t (length (shape t) - 2) (length (shape t) - 1).

(** *** nn_basic.py: Dropout *)

Module Dropout.
Section WithRandom.
(** [init.randb]: the mask of the [n]-th draw, an array of zeros and ones. *)
Variable randb : nat -> list nat -> R -> Tensor.

Definition forward (self : nn_basic.Dropout.t) (x : Tensor)
  : stateful nat Tensor :=
  if nn_basic.Dropout.training self then
    n ← get;
    _ ← put (S n);
    lift (masked ← mul x (randb n (shape x) (1 - nn_basic.Dropout.p self));
          Ok (div_scalar masked (round64 (1 - nn_basic.Dropout.p self))))
  else
    mret x.
End WithRandom.
End Dropout.

(** *** nn_transformer.py: MultiHeadAttention *)

Module MultiHeadAttention.

(** [np.finfo(np.float32).max], that is (2 - 2^-23) * 2^127. *)
Definition float32_max : R := IZR ((2 ^ 24 - 1) * 2 ^ 104).

(** [-float32_max * np.triu(np.ones((1, 1, i, j)), j - i + 1)], a float32
    product entry by entry. *)
Definition create_causal_mask (i j : nat) : Tensor :=
  mkTensor [1; 1; i; j]
    (fun idx =>
       match idx with
       | [_; _; r; c] =>
           fmul (Fin (- float32_max))
             (if (Z.of_nat j - Z.of_nat i + 1 <=? Z.of_nat c - Z.of_nat r)%Z
              then Fin 1 else Fin 0)
       | _ => Fin 0
       end).

Definition matmul (a b_transpose : Tensor) : result Tensor :=
  let sa := shape a in
  let a_shape := take (length sa - 1) sa ++ [1] ++ drop (length sa - 1) sa in
  a ← reshape a a_shape;
  let sb := shape b_transpose in
  let b_transpose_shape :=
    take (length sb - 2) sb ++ [1] ++ drop (length sb - 2) sb in
  b_transpose ← reshape b_transpose b_transpose_shape;
  d ← index_from_end b_transpose_shape 2;
  broadcast_shape ← assign_from_end a_shape 2 d;
  a ← broadcast_to a broadcast_shape;
  d' ← index_from_end a_shape 3;
  broadcast_shape ← assign_from_end b_transpose_shape 3 d';
  b_transpose ← broadcast_to b_transpose broadcast_shape;
  prod ← mul a b_transpose;
  summation prod (length (shape a) - 1).

Definition softmax (logit : Tensor) : result Tensor :=
  max_val ← max_axis logit 3;
  let keep := take (length (shape logit) - 1) (shape logit) ++ [1] in
  max_val ← reshape max_val keep;
  max_val ← broadcast_to max_val (shape logit);
  shifted ← sub logit max_val;
  let probs := exp shifted in
  denom ← summation probs 3;
  denom ← reshape denom keep;
  denom ← broadcast_to denom (shape logit);
  div probs denom.

(** [self.matmul(q, k) / (q_dim ** 0.5)]: the divisor is a Python float. *)
Definition scores (q k : Tensor) (q_dim : nat) : result Tensor :=
  m ← matmul q k;
  Ok (div_scalar m (round64 (sqrt (INR q_dim)))).

(** The logits of steps 1 and 2, before the softmax. *)
Definition logits (self : nn_transformer.MultiHeadAttention.t) (q k : Tensor)
    (queries_len keys_values_len q_dim : nat) : result Tensor :=
  logits ← scores q k q_dim;
  if nn_transformer.MultiHeadAttention.causal self then
    mask ← reshape (create_causal_mask queries_len keys_values_len)
                   [1; 1; queries_len; keys_values_len];
    mask ← broadcast_to mask (shape logits);
    add logits mask
  else Ok logits.

Section WithRandom.
Variable randb : nat -> list nat -> R -> Tensor.

Definition forward (self : nn_transformer.MultiHeadAttention.t) (q k v : Tensor)
  : stateful nat (Tensor * Tensor) :=
  '(batch_size, num_head, queries_len, q_dim) ← lift (nn_transformer.unpack4 (shape q));
  '(_, _, keys_values_len, k_dim) ← lift (nn_transformer.unpack4 (shape k));
  '(_, _, _, v_dim) ← lift (nn_transformer.unpack4 (shape v));
  if negb ((q_dim =? k_dim) && (k_dim =? v_dim))
  then lift (Raise AssertionError)
  else
    lg ← lift (logits self q k queries_len keys_values_len q_dim);
    sm ← lift (softmax lg);
    probs ← Dropout.forward randb (nn_transformer.MultiHeadAttention.dropout self) sm;
    result ← lift (vt ← transpose_last v; matmul probs vt);
    mret (result, probs).
End WithRandom.
End MultiHeadAttention.

(** *** Concrete inputs *)

Module Inputs.

(** One row of two logits, 0 and 1. *)
Definition logits01 : Tensor :=
  mkTensor [1; 1; 1; 2]
    (fun idx => match idx with
                | [_; _; _; 1] => Fin 1
                | _ => Fin 0
                end).

(** One batch, one head, two positions, head dimension 1, every entry 1. *)
Definition ones_1121 : Tensor := mkTensor [1; 1; 2; 1] (fun _ => Fin 1).

(** The keys -1.75 * 2^127 and 1.75 * 2^127, float32 values both. *)
Definition keys_big : Tensor :=
  mkTensor [1; 1; 2; 1]
    (fun idx => match idx with
                | [_; _; 0; _] => Fin (- IZR (7 * 2 ^ 125))
                | _ => Fin (IZR (7 * 2 ^ 125))
                end).

Definition randb_ones : nat -> list nat -> R -> Tensor :=
  fun _ s _ => mkTensor s (fun _ => Fin 1).

Definition causal_attention : nn_transformer.MultiHeadAttention.t :=
  nn_transformer.MultiHeadAttention.mk false true (nn_basic.Dropout.mk false 0).

End Inputs.

End Float32.

(** ** Reference definitions, in the words of the specification *)

Module Reference.
Import Engine nn_basic.

(** The batched matrix product with the second operand transposed:
    [result[b,h,i,j] = sum over k of a[b,h,i,k] * b_transpose[b,h,j,k]]. *)
Definition batched_matmul (a b_transpose : Tensor) : Tensor :=
  match shape a, shape b_transpose with
  | [B; H; m; d], [_; _; n; _] =>
      mkTensor [B; H; m; n]
        (fun idx =>
           match idx with
           | [b; h; i; j] =>
               Rsum d (fun k => (item a [b; h; i; k] * item b_transpose [b; h; j; k])%R)
           | _ => 0%R
           end)
  | _, _ => mkTensor [] (fun _ => 0%R)
  end.

(** Per-feature mean and variance of a batch [x] of shape [(batch, dim)]. *)
Definition batch_mean (x : Tensor) (batch c : nat) : R :=
  (Rsum batch (fun n => item x [n; c]) / INR batch)%R.

Definition batch_var (x : Tensor) (batch c : nat) : R :=
  (Rsum batch (fun n => (item x [n; c] - batch_mean x batch c) *
                        (item x [n; c] - batch_mean x batch c)) / INR batch)%R.

(** The scaled dot-product score of query [i] against key [j]. *)
Definition score (q k : Tensor) (d b h i j : nat) : R :=
  (Rsum d (fun c => item q [b; h; i; c] * item k [b; h; j; c]) / sqrt (INR d))%R.

(** The entry of the causal mask for [i] queries and [j] keys. *)
Definition mask_entry (L L' i j : nat) : R :=
  (- nn_transformer.MultiHeadAttention.float32_max *
     (if (Z.of_nat L' - Z.of_nat L + 1 <=? Z.of_nat j - Z.of_nat i)%Z
      then 1 else 0))%R.

(** Two stores that differ in training flags only. *)
Definition same_attrs (st st' : gmap loc object) : Prop :=
  forall l, match st !! l, st' !! l with
            | Some o, Some o' => cls o = cls o' /\ attrs o = attrs o'
            | None, None => True
            | _, _ => False
            end.

(** [eval] and [train] are one walk, run with the two values of the flag. *)
Definition set_mode (b : bool) (fuel : nat) (st : gmap loc object) (self : loc)
  : option (gmap loc object) :=
  let st1 := Module.set_training b st self in
  ms ← Module._children fuel st1 self;
  Some (foldl (Module.set_training b) st1 ms).

(** The shapes [BatchNorm1d.__init__] gives the parameters and the running
    statistics, and every forward call keeps. *)
Definition well_shaped (self : BatchNorm1d.t) : Prop :=
  shape (BatchNorm1d.weight self) = [BatchNorm1d.dim self] /\
  shape (BatchNorm1d.bias self) = [BatchNorm1d.dim self] /\
  shape (BatchNorm1d.running_mean self) = [BatchNorm1d.dim self] /\
  shape (BatchNorm1d.running_var self) = [BatchNorm1d.dim self].

Fixpoint has_batchnorm (m : nn_transformer.layer) : bool :=
  match m with
  | nn_transformer.L_BatchNorm1d _ | nn_transformer.L_BatchNorm2d _ => true
  | nn_transformer.L_Sequential _ modules => existsb has_batchnorm modules
  | nn_transformer.L_Residual _ fn => has_batchnorm fn
  | nn_transformer.L_TransformerLayer _ resblock1 _ mlp =>
      has_batchnorm resblock1 || has_batchnorm mlp
  | _ => false
  end.

(** A BatchNorm layer in its well-shaped state, or a layer with no BatchNorm
    inside. *)
Definition guarded (m : nn_transformer.layer) : Prop :=
  match m with
  | nn_transformer.L_BatchNorm1d b | nn_transformer.L_BatchNorm2d b =>
      well_shaped b
  | _ => has_batchnorm m = false
  end.

(** A layer with the running statistics of its BatchNorm layers blanked:
    what is left are the parameters and the configuration. *)
Definition forget_bn (b : BatchNorm1d.t) : BatchNorm1d.t :=
  BatchNorm1d.mk (BatchNorm1d.training b) (BatchNorm1d.dim b) (BatchNorm1d.eps b)
    (BatchNorm1d.momentum b) (BatchNorm1d.weight b) (BatchNorm1d.bias b)
    (zeros []) (zeros []).

Fixpoint without_statistics (m : nn_transformer.layer) : nn_transformer.layer :=
  match m with
  | nn_transformer.L_BatchNorm1d b => nn_transformer.L_BatchNorm1d (forget_bn b)
  | nn_transformer.L_BatchNorm2d b => nn_transformer.L_BatchNorm2d (forget_bn b)
  | nn_transformer.L_Sequential tr modules =>
      nn_transformer.L_Sequential tr (map without_statistics modules)
  | nn_transformer.L_Residual tr fn =>
      nn_transformer.L_Residual tr (without_statistics fn)
  | nn_transformer.L_TransformerLayer tr resblock1 norm mlp =>
      nn_transformer.L_TransformerLayer tr (without_statistics resblock1) norm
        (without_statistics mlp)
  | _ => m
  end.


(** Mean and variance of row [i] of a matrix [x] with [dim] columns. *)
Definition row_mean (x : Tensor) (dim i : nat) : R :=
  (Rsum dim (fun k => item x [i; k]) / INR dim)%R.

Definition row_var (x : Tensor) (dim i : nat) : R :=
  (Rsum dim (fun k => (item x [i; k] - row_mean x dim i) *
                      (item x [i; k] - row_mean x dim i)) / INR dim)%R.

(** Every BatchNorm and every Dropout inside the layer has [training] off,
    as after [eval()]. *)
Fixpoint inference_mode (m : nn_transformer.layer) : bool :=
  match m with
  | nn_transformer.L_BatchNorm1d b | nn_transformer.L_BatchNorm2d b =>
      negb (BatchNorm1d.training b)
  | nn_transformer.L_Dropout d => negb (Dropout.training d)
  | nn_transformer.L_AttentionLayer a =>
      negb (Dropout.training
              (nn_transformer.MultiHeadAttention.dropout
                 (nn_transformer.AttentionLayer.attn a)))
  | nn_transformer.L_Sequential _ modules => forallb inference_mode modules
  | nn_transformer.L_Residual _ fn => inference_mode fn
  | nn_transformer.L_TransformerLayer _ resblock1 _ mlp =>
      inference_mode resblock1 && inference_mode mlp
  | _ => true
  end.

End Reference.

(** ** Concrete inputs *)

Module Examples.
Import Engine nn_basic nn_conv nn_transformer.

Definition randb0 : nat -> list nat -> R -> Tensor := fun _ s _ => ones s.

(** 1.75 * 2^127, a float32 value. *)
Definition big : R := IZR (7 * 2 ^ 125).

(** One batch, one head, two positions, head dimension 1. *)
Definition q0 : Tensor := full [1; 1; 2; 1] 1.
Definition k0 : Tensor :=
  mkTensor [1; 1; 2; 1]
    (fun idx => match idx with
                | [_; _; 0; _] => (- big)%R
                | _ => big
                end).
Definition v0 : Tensor := zeros [1; 1; 2; 1].
Definition mha0 : MultiHeadAttention.t :=
  MultiHeadAttention.mk false true (Dropout.mk false 0).

(** A fresh one-feature BatchNorm1d feeding a Linear layer that expects two
    features, and a batch of one sample. *)
Definition bn0 : BatchNorm1d.t := BatchNorm1d.__init__ 1 (1 / 100000) (1 / 10).
Definition lin0 : Linear.t := Linear.mk true 2 1 (zeros [2; 1]) None.
Definition seq0 : layer := L_Sequential true [L_BatchNorm1d bn0; L_Linear lin0].
Definition x1 : Tensor := ones [1; 1].
(** The Sequential as the call on [x1] leaves it. *)
Definition seq0_after : layer := (call randb0 seq0 x1 0).2.1.

(** A small module graph: a Sequential holding a Dropout and a block whose
    children sit in a dict of lists. *)
Definition root0 : object :=
  mkObject "Sequential" true [("modules"%string, VTuple [VModule 1; VModule 2])].

Definition st0 : gmap loc object :=
  <[0 := root0]>
  (<[1 := Dropout.to_object (Dropout.mk true (1 / 2))]>
  (<[2 := mkObject "Block" true
            [("heads"%string,
              VDict [("a"%string, VList [VModule 3]); ("b"%string, VNone)])]]>
  (<[3 := BatchNorm1d.to_object "BatchNorm1d" None
            (BatchNorm1d.__init__ 2 (1 / 100000) (1 / 10))]> ∅))).

(** A generator that returns the lower bound everywhere. *)
Definition rand0 : list nat -> R -> R -> Tensor := fun s low _ => full s low.

(** What a constructor returns, when it returns. *)
Definition constructed {A : Type} (r : result A) (otherwise : A) : A :=
  match r with
  | Ok a => a
  | Raise _ => otherwise
  end.

(** A 1x1 convolution layer as [Conv(1, 1, 1)] constructs it (its bias is
    -1), on a one-pixel image; the engine's convolution is replaced by the
    identity. *)
Definition conv_id : Tensor -> Tensor -> nat -> nat -> result Tensor :=
  fun x _ _ _ => Ok x.
Definition truthy : Tensor -> bool := fun _ => true.
Definition conv_none : Conv.t := Conv.mk true 0 0 0 0 0 (zeros []) None.
Definition image0 : Tensor := ones [1; 1; 1; 1].
Definition image0_nhwc : Tensor :=
  mkTensor [1; 1; 1; 1] (fun idx => item image0 (swap 1 2 (swap 2 3 idx))).

(** The same BatchNorm1d after [eval()]. *)
Definition bn0_eval : BatchNorm1d.t :=
  BatchNorm1d.mk false 1 (1 / 100000) (1 / 10)
    (ones [1]) (zeros [1]) (zeros [1]) (ones [1]).

(** A block in inference mode. *)
Definition seq_eval : layer :=
  L_Sequential false
    [L_BatchNorm1d bn0_eval; L_Dropout (Dropout.mk false (1 / 2)); L_ReLU false].

(** The module graph after [eval()] on its root. *)
Definition st0_eval : gmap loc object := default ∅ (Module.eval 9 st0 0).

(** A second mask generator, all zeros. *)
Definition randb1 : nat -> list nat -> R -> Tensor := fun _ s _ => zeros s.

Definition ln0 : LayerNorm1d.t := LayerNorm1d.__init__ 2 (1 / 100000).
Definition x12 : Tensor := ones [1; 2].
Definition x23 : Tensor := ones [2; 3].

Definition convbn0 : ConvBN.t :=
  constructed (ConvBN.__init__ rand0 1 1 (PyInt 1) (PyInt 1))
    (ConvBN.mk true conv_none (BatchNorm1d.__init__ 0 0 0) true).

(** A Transformer without layers, taking batch-first input. *)
Definition tf0 : Transformer.t :=
  Transformer.mk true true 4 (Embedding.mk true 4 1 (zeros [4; 1]))
    (L_Sequential true []).

(** The BatchNorm1d layer as a call on a batch of the wrong width leaves
    it. *)
Definition bn0_raised : layer := (call randb0 (L_BatchNorm1d bn0) x12 0).2.1.

Definition conv0_nobias : Conv.t :=
  constructed (Conv.__init__ rand0 1 1 (PyInt 1) (PyInt 1) false) conv_none.

End Examples.

(** * Properties *)

(** ** Indexing and reductions of the engine *)

Module Engine_facts.
Import Engine.

Lemma valid_index_length s idx : valid_index s idx -> length idx = length s.
Proof. apply Forall2_length. Qed.

Lemma valid_indexb_spec s idx : valid_indexb s idx = true <-> valid_index s idx.
Proof.
  unfold valid_index. revert idx.
  induction s as [|d s IH]; intros [|i idx]; simpl; split; intros H;
    try discriminate; try constructor; try (inversion H; fail).
  - apply andb_true_iff in H as [H1 H2]. now apply Nat.ltb_lt.
  - apply andb_true_iff in H as [H1 H2]. now apply IH.
  - inversion H; subst. apply andb_true_iff; split;
      [ now apply Nat.ltb_lt | now apply IH ].
Qed.

Lemma valid_index_cons_inv d s idx :
  valid_index (d :: s) idx ->
  exists i idx', idx = i :: idx' /\ i < d /\ valid_index s idx'.
Proof. intros H. inversion H; subst. eauto. Qed.

Lemma valid_index_nil_inv idx : valid_index [] idx -> idx = [].
Proof. intros H. now inversion H. Qed.

(** Name the components of an index that is valid for a shape of known
    rank. *)
Ltac split_index H :=
  repeat match type of H with
         | valid_index (_ :: _) _ =>
             let i := fresh "i" in let Hi := fresh "Hi" in
             apply valid_index_cons_inv in H as (i & ? & -> & Hi & H)
         | valid_index [] _ => apply valid_index_nil_inv in H as ->
         end.

Lemma ravel_lt s idx : valid_index s idx -> ravel s idx < numel s.
Proof.
  intros H. induction H as [|i d idx s Hi _ IH]; simpl; [lia|nia].
Qed.

Lemma unravel_ravel s idx : valid_index s idx -> unravel s (ravel s idx) = idx.
Proof.
  intros H. induction H as [|i d idx s Hi Hv IH]; simpl; [reflexivity|].
  pose proof (ravel_lt _ _ Hv) as Hlt.
  assert (Hn : numel s <> 0) by lia.
  f_equal.
  - rewrite Nat.div_add_l by exact Hn.
    rewrite (Nat.div_small _ _ Hlt). lia.
  - rewrite Nat.add_comm, Nat.Div0.mod_add, (Nat.mod_small _ _ Hlt).
    exact IH.
Qed.

Lemma bidx_cons d s i idx :
  bidx (d :: s) (i :: idx) = (if d =? 1 then 0 else i) :: bidx s idx.
Proof. reflexivity. Qed.

(** Along an axis that is not of size 1, or at a valid position of an axis
    of size 1, broadcasting keeps the position. *)
Lemma bidx_keep d i : i < d -> (if d =? 1 then 0 else i) = i.
Proof. intros H. destruct (Nat.eqb_spec d 1); lia. Qed.

(** Side condition of a broadcast between two explicit shapes. *)
Ltac solve_broadcastable :=
  cbn -[Nat.eqb]; rewrite ?Nat.eqb_refl, ?orb_true_r; reflexivity.

Lemma Rsum_ext d f g :
  (forall k, k < d -> f k = g k) -> Rsum d f = Rsum d g.
Proof.
  unfold Rsum. intros H.
  assert (Hs : forall k, k ∈ seq 0 d -> f k = g k).
  { intros k Hk. apply H. apply elem_of_seq in Hk. lia. }
  clear H. induction (seq 0 d) as [|k l IH]; simpl; [reflexivity|].
  rewrite Hs by constructor. f_equal. apply IH.
  intros k' Hk'. apply Hs. now constructor.
Qed.

Lemma Rsum_S d f : Rsum (S d) f = (Rsum d f + f d)%R.
Proof.
  unfold Rsum. rewrite seq_S, foldr_app. simpl.
  generalize (seq 0 d). intros l.
  induction l as [|k l IH]; simpl; [lra|]. rewrite IH. lra.
Qed.

Lemma Rsum_nonneg d f : (forall k, k < d -> (0 <= f k)%R) -> (0 <= Rsum d f)%R.
Proof.
  induction d as [|d IH]; intros H; [unfold Rsum; simpl; lra|].
  rewrite Rsum_S. specialize (H d (Nat.lt_succ_diag_r d)) as Hd.
  assert (0 <= Rsum d f)%R by (apply IH; intros; apply H; lia). lra.
Qed.

(** A sum of non-negative terms dominates each of them. *)
Lemma Rsum_ge_term d f i :
  (forall k, k < d -> (0 <= f k)%R) -> i < d -> (f i <= Rsum d f)%R.
Proof.
  induction d as [|d IH]; intros H Hi; [lia|].
  rewrite Rsum_S.
  assert (Hd : (0 <= f d)%R) by (apply H; lia).
  assert (Hn : (0 <= Rsum d f)%R) by (apply Rsum_nonneg; intros; apply H; lia).
  destruct (decide (i = d)) as [->|Hne]; [lra|].
  assert (f i <= Rsum d f)%R by (apply IH; [intros; apply H|]; lia). lra.
Qed.

Lemma Rmaximum_shift d f c :
  Rmaximum d (fun k => (f k + c)%R) = (Rmaximum d f + c)%R.
Proof.
  induction d as [|d IH]; simpl; [reflexivity|].
  rewrite IH. unfold Rmax.
  destruct (Rle_dec (Rmaximum d f + c) (f (S d) + c)),
           (Rle_dec (Rmaximum d f) (f (S d))); lra.
Qed.

Lemma exp_ratio x y m :
  (Rtrigo_def.exp (x - m) / Rtrigo_def.exp (y - m) = Rtrigo_def.exp (x - y))%R.
Proof.
  replace (x - y)%R with ((x - m) + - (y - m))%R by ring.
  rewrite exp_plus, exp_Ropp. reflexivity.
Qed.

(** *** When the operations succeed *)

Lemma bind_Ok {A B} (a : A) (k : A -> result B) : (Ok a ≫= k) = k a.
Proof. reflexivity. Qed.

Lemma reshape_ok t s :
  numel s = numel (shape t) ->
  reshape t s = Ok (mkTensor s (fun idx => item t (unravel (shape t) (ravel s idx)))).
Proof. intros H. unfold reshape. now rewrite decide_True. Qed.

Lemma reshape_inv t s r :
  reshape t s = Ok r -> numel s = numel (shape t) /\ shape r = s.
Proof.
  unfold reshape. destruct (decide _); [|discriminate].
  intros [= <-]. split; [assumption|reflexivity].
Qed.

Lemma broadcast_to_ok t s :
  broadcastable (shape t) s = true ->
  broadcast_to t s = Ok (mkTensor s (fun idx => item t (bidx (shape t) idx))).
Proof. intros H. unfold broadcast_to. now rewrite H. Qed.

Lemma broadcast_to_inv t s r :
  broadcast_to t s = Ok r -> broadcastable (shape t) s = true.
Proof.
  unfold broadcast_to. destruct (broadcastable _ _); [reflexivity|discriminate].
Qed.

Lemma ewise_ok f a b :
  shape a = shape b ->
  ewise f a b = Ok (mkTensor (shape a) (fun idx => f (item a idx) (item b idx))).
Proof. intros H. unfold ewise. now rewrite decide_True. Qed.

Lemma summation_ok t axis d :
  shape t !! axis = Some d ->
  summation t axis =
    Ok (mkTensor (delete axis (shape t))
          (fun idx => Rsum d (fun k => item t (insert_at axis k idx)))).
Proof. intros H. unfold summation. now rewrite H. Qed.

Lemma max_axis_ok t axis d :
  shape t !! axis = Some (S d) ->
  max_axis t axis =
    Ok (mkTensor (delete axis (shape t))
          (fun idx => Rmaximum d (fun k => item t (insert_at axis k idx)))).
Proof. intros H. unfold max_axis. now rewrite H. Qed.

Lemma transpose_ok t i j :
  i < length (shape t) -> j < length (shape t) ->
  transpose t i j =
    Ok (mkTensor (swap i j (shape t)) (fun idx => item t (swap i j idx))).
Proof.
  intros Hi Hj. unfold transpose.
  destruct (Nat.ltb_spec i (length (shape t))); [|lia].
  destruct (Nat.ltb_spec j (length (shape t))); [|lia]. reflexivity.
Qed.

Lemma index_from_end_ok {A} (l : list A) k x :
  1 <= k <= length l -> l !! (length l - k) = Some x -> index_from_end l k = Ok x.
Proof.
  intros [H1 H2] Hx. unfold index_from_end.
  destruct (Nat.leb_spec 1 k); [|lia]. destruct (Nat.leb_spec k (length l)); [|lia].
  simpl. now rewrite Hx.
Qed.

Lemma assign_from_end_ok {A} (l : list A) k x :
  1 <= k <= length l -> assign_from_end l k x = Ok (<[length l - k := x]> l).
Proof.
  intros [H1 H2]. unfold assign_from_end.
  destruct (Nat.leb_spec 1 k); [|lia]. destruct (Nat.leb_spec k (length l)); [|lia].
  reflexivity.
Qed.

(** A per-feature vector reshaped to a row and broadcast over a batch. *)
Lemma row_index dim n c :
  c < dim -> unravel [dim] (ravel [1; dim] (bidx [1; dim] [n; c])) = [c].
Proof.
  intros Hc. rewrite !bidx_cons. cbn [Nat.eqb bidx]. rewrite bidx_keep by assumption.
  transitivity (unravel [dim] (ravel [dim] [c]));
    [ f_equal; cbn; lia | apply unravel_ravel; repeat constructor; assumption ].
Qed.

Lemma row_broadcast t dim batch :
  shape t = [dim] ->
  exists t1 r, reshape t [1; dim] = Ok t1 /\ broadcast_to t1 [batch; dim] = Ok r /\
    shape r = [batch; dim] /\
    forall n c, c < dim -> item r [n; c] = item t [c].
Proof.
  intros Ht. rewrite reshape_ok by (rewrite Ht; cbn; lia).
  eexists; eexists; split; [reflexivity|].
  rewrite broadcast_to_ok by solve_broadcastable.
  split; [reflexivity|]. split; [reflexivity|].
  intros n c Hc. cbn [item shape]. rewrite Ht. now rewrite row_index.
Qed.

Lemma column_sum x batch dim :
  shape x = [batch; dim] ->
  exists s, summation x 0 = Ok s /\ shape s = [dim] /\
    forall c, item s [c] = Rsum batch (fun n => item x [n; c]).
Proof.
  intros Hx. erewrite summation_ok by (rewrite Hx; reflexivity).
  eexists; split; [reflexivity|]. rewrite Hx. split; reflexivity.
Qed.

(** *** Sums *)

Lemma Rsum_plus d f g :
  Rsum d (fun k => (f k + g k)%R) = (Rsum d f + Rsum d g)%R.
Proof.
  induction d as [|d IH]; [unfold Rsum; simpl; lra|].
  rewrite !Rsum_S, IH. lra.
Qed.

Lemma Rsum_scale d c f :
  Rsum d (fun k => (c * f k)%R) = (c * Rsum d f)%R.
Proof.
  induction d as [|d IH]; [unfold Rsum; simpl; lra|].
  rewrite !Rsum_S, IH. lra.
Qed.

Lemma Rsum_const d c : Rsum d (fun _ => c) = (INR d * c)%R.
Proof.
  induction d as [|d IH]; [unfold Rsum; simpl; lra|].
  rewrite Rsum_S, IH, S_INR. lra.
Qed.

(** *** Rows of a matrix *)

(** A per-row vector reshaped to a column and broadcast over the columns. *)
Lemma column_index n i c :
  i < n -> unravel [n] (ravel [n; 1] (bidx [n; 1] [i; c])) = [i].
Proof.
  intros Hi. rewrite !bidx_cons. cbn [Nat.eqb bidx]. rewrite bidx_keep by assumption.
  transitivity (unravel [n] (ravel [n] [i]));
    [ f_equal; cbn; lia | apply unravel_ravel; repeat constructor; assumption ].
Qed.

Lemma column_broadcast t n dim :
  shape t = [n] ->
  exists t1 r, reshape t [n; 1] = Ok t1 /\ broadcast_to t1 [n; dim] = Ok r /\
    shape r = [n; dim] /\
    forall i c, i < n -> item r [i; c] = item t [i].
Proof.
  intros Ht. rewrite reshape_ok by (rewrite Ht; cbn; lia).
  eexists; eexists; split; [reflexivity|].
  rewrite broadcast_to_ok by solve_broadcastable.
  split; [reflexivity|]. split; [reflexivity|].
  intros i c Hi. cbn [item shape]. rewrite Ht. now rewrite column_index.
Qed.

Lemma row_sum x n dim :
  shape x = [n; dim] ->
  exists s, summation x 1 = Ok s /\ shape s = [n] /\
    forall i, item s [i] = Rsum dim (fun k => item x [i; k]).
Proof.
  intros Hx. erewrite summation_ok by (rewrite Hx; reflexivity).
  eexists; split; [reflexivity|]. rewrite Hx. split; reflexivity.
Qed.

(** *** Channel-last images flattened to rows of channels *)

Lemma flat_index N H W C n h w c :
  n < N -> h < H -> w < W -> c < C ->
  unravel [N * H * W; C] (ravel [N; H; W; C] [n; h; w; c]) =
    [ravel [N; H; W] [n; h; w]; c] /\
  unravel [N; H; W; C] (ravel [N * H * W; C] [ravel [N; H; W] [n; h; w]; c]) =
    [n; h; w; c].
Proof.
  intros Hn Hh Hw Hc.
  assert (Hv : valid_index [N; H; W; C] [n; h; w; c])
    by (repeat constructor; assumption).
  assert (Hv3 : valid_index [N; H; W] [n; h; w])
    by (repeat constructor; assumption).
  assert (Hr : ravel [N * H * W; C] [ravel [N; H; W] [n; h; w]; c] =
               ravel [N; H; W; C] [n; h; w; c]).
  { cbn [ravel]. unfold numel. cbn [foldr]. ring. }
  split.
  - rewrite <- Hr. apply unravel_ravel.
    pose proof (ravel_lt _ _ Hv3) as Hlt. unfold numel in Hlt. cbn [foldr] in Hlt.
    repeat constructor; [|assumption].
    replace (N * H * W) with (N * (H * (W * 1))) by ring. exact Hlt.
  - rewrite Hr. now apply unravel_ravel.
Qed.

Lemma transpose_last_entries v B H L d :
  shape v = [B; H; L; d] ->
  exists vt, transpose_last v = Ok vt /\ shape vt = [B; H; d; L] /\
    forall b h c j, item vt [b; h; c; j] = item v [b; h; j; c].
Proof.
  intros Hv. unfold transpose_last. rewrite Hv. cbn [length Nat.sub].
  rewrite transpose_ok by (rewrite Hv; cbn; lia).
  eexists; split; [reflexivity|]. cbn [shape item]. rewrite Hv.
  split; reflexivity.
Qed.

End Engine_facts.

(** ** The initializers *)

Module init_initializers_facts.
Import Engine Engine_facts Examples.

Lemma truediv_pos a b :
  0 < b -> init_initializers.truediv a b = Ok (a / INR b)%R.
Proof.
  intros Hb. unfold init_initializers.truediv.
  destruct (Nat.eqb_spec b 0); [lia|reflexivity].
Qed.

Lemma kaiming_bound fan_in :
  0 < fan_in -> (sqrt (3 / INR fan_in) * sqrt 2 = sqrt (6 / INR fan_in))%R.
Proof.
  intros Hf. assert (0 < INR fan_in)%R by (apply lt_0_INR; lia).
  rewrite <- sqrt_mult.
  - f_equal. field. lra.
  - apply Rlt_le. apply Rdiv_lt_0_compat; lra.
  - lra.
Qed.

Lemma kaiming_uniform_ok rand fan_in fan_out shape :
  0 < fan_in ->
  init_initializers.kaiming_uniform rand fan_in fan_out shape "relu" =
  Ok (rand (match shape with
            | Some (d :: s) => d :: s
            | _ => [fan_in; fan_out]
            end)
        (- sqrt (6 / INR fan_in))%R (sqrt (6 / INR fan_in))).
Proof.
  intros Hf. unfold init_initializers.kaiming_uniform.
  rewrite bool_decide_eq_true_2 by reflexivity.
  cbn [negb]. rewrite !truediv_pos by assumption.
  rewrite <- (kaiming_bound fan_in Hf).
  replace (- (sqrt (3 / INR fan_in) * sqrt 2))%R
    with (- sqrt (3 / INR fan_in) * sqrt 2)%R by ring.
  destruct shape as [[|d s]|]; reflexivity.
Qed.

(** X27: with a positive [fan_in], [kaiming_uniform] draws from the
    interval of bounds -sqrt(6 / fan_in) and sqrt(6 / fan_in), a tensor of
    the given [shape] when that is a non-empty tuple and of shape
    (fan_in, fan_out) when [shape] is [None] or empty; [kaiming_normal]
    draws a tensor of shape (fan_in, fan_out) with mean 0 and a positive
    standard deviation whose square is 2 / fan_in, a third of the square of
    the uniform bound. *)
Theorem kaiming_draws rand randn fan_in fan_out shape :
  0 < fan_in ->
  init_initializers.kaiming_uniform rand fan_in fan_out shape "relu" =
    Ok (rand (match shape with
              | Some (d :: s) => d :: s
              | _ => [fan_in; fan_out]
              end)
          (- sqrt (6 / INR fan_in))%R (sqrt (6 / INR fan_in))) /\
  exists std,
    init_initializers.kaiming_normal randn fan_in fan_out "relu" =
      Ok (randn [fan_in; fan_out] 0%R std) /\
    (0 < std)%R /\ (std * std = 2 / INR fan_in)%R.
Proof.
  intros Hf. split; [now apply kaiming_uniform_ok|].
  assert (HF : (0 < INR fan_in)%R) by (apply lt_0_INR; lia).
  exists (sqrt 2 / sqrt (INR fan_in))%R. split; [|split].
  - unfold init_initializers.kaiming_normal.
    rewrite bool_decide_eq_true_2 by reflexivity. cbn [negb].
    destruct (Nat.eqb_spec fan_in 0); [lia|reflexivity].
  - apply Rdiv_lt_0_compat; apply sqrt_lt_R0; lra.
  - assert (Hs : (0 < sqrt (INR fan_in))%R) by (apply sqrt_lt_R0; lra).
    replace (sqrt 2 / sqrt (INR fan_in) * (sqrt 2 / sqrt (INR fan_in)))%R
      with ((sqrt 2 * sqrt 2) / (sqrt (INR fan_in) * sqrt (INR fan_in)))%R
      by (field; lra).
    rewrite !sqrt_sqrt by lra. reflexivity.
Qed.

Lemma kaiming_draws_witness :
  init_initializers.kaiming_uniform rand0 2 3 (Some []) "relu" =
    Ok (rand0 [2; 3] (- sqrt (6 / INR 2))%R (sqrt (6 / INR 2))) /\
  exists std,
    init_initializers.kaiming_normal rand0 2 3 "relu" =
      Ok (rand0 [2; 3] 0%R std) /\
    (0 < std)%R /\ (std * std = 2 / INR 2)%R.
Proof. apply (kaiming_draws rand0 rand0 2 3 (Some [])). lia. Defined.

(** X28: the two Kaiming initializers raise AssertionError for every
    nonlinearity other than "relu", before anything else is looked at, and
    ZeroDivisionError for "relu" with [fan_in = 0]; nothing is drawn. *)
Theorem kaiming_rejects rand randn fan_in fan_out shape nonlinearity :
  nonlinearity <> "relu"%string \/ fan_in = 0 ->
  let e := if bool_decide (nonlinearity = "relu"%string)
           then ZeroDivisionError else AssertionError in
  init_initializers.kaiming_uniform rand fan_in fan_out shape nonlinearity
    = Raise e /\
  init_initializers.kaiming_normal randn fan_in fan_out nonlinearity
    = Raise e.
Proof.
  intros H. unfold init_initializers.kaiming_uniform,
    init_initializers.kaiming_normal.
  destruct (bool_decide_reflect (nonlinearity = "relu"%string)) as [Hr|Hr];
    cbn [negb]; [|split; reflexivity].
  destruct H as [H| ->]; [contradiction|].
  split; [destruct shape as [[|d s]|]|]; reflexivity.
Qed.

Lemma kaiming_rejects_witness :
  let e := if bool_decide ("tanh"%string = "relu"%string)
           then ZeroDivisionError else AssertionError in
  init_initializers.kaiming_uniform rand0 2 3 None "tanh" = Raise e /\
  init_initializers.kaiming_normal rand0 2 3 "tanh" = Raise e.
Proof.
  apply (kaiming_rejects rand0 rand0 2 3 None "tanh"). left. discriminate.
Defined.

(** X29: for [fan_in + fan_out > 0] the two Xavier initializers agree on the
    variance: [xavier_uniform] draws between -b and b, [xavier_normal] with
    standard deviation std, where std^2 = 2 gain^2 / (fan_in + fan_out) and
    b^2 = 3 std^2, the variance of the uniform law on [-b, b] being b^2/3. *)
Theorem xavier_variances_agree rand randn fan_in fan_out gain :
  0 < fan_in + fan_out ->
  exists b std,
    init_initializers.xavier_uniform rand fan_in fan_out gain =
      Ok (rand [fan_in; fan_out] (- b)%R b) /\
    init_initializers.xavier_normal randn fan_in fan_out gain =
      Ok (randn [fan_in; fan_out] 0%R std) /\
    (std * std = 2 * (gain * gain) / INR (fan_in + fan_out))%R /\
    (b * b = 3 * (std * std))%R.
Proof.
  intros Hf. assert (HF : (0 < INR (fan_in + fan_out))%R) by (apply lt_0_INR; lia).
  exists (sqrt (6 / INR (fan_in + fan_out)) * gain)%R,
         (sqrt (2 / INR (fan_in + fan_out)) * gain)%R.
  assert (H6 : (0 <= 6 / INR (fan_in + fan_out))%R)
    by (apply Rlt_le, Rdiv_lt_0_compat; lra).
  assert (H2 : (0 <= 2 / INR (fan_in + fan_out))%R)
    by (apply Rlt_le, Rdiv_lt_0_compat; lra).
  pose proof (sqrt_sqrt _ H6) as S6. pose proof (sqrt_sqrt _ H2) as S2.
  repeat split.
  - unfold init_initializers.xavier_uniform. rewrite !truediv_pos by assumption.
    rewrite !bind_Ok. do 2 f_equal. ring.
  - unfold init_initializers.xavier_normal. rewrite !truediv_pos by assumption.
    reflexivity.
  - replace (sqrt (2 / INR (fan_in + fan_out)) * gain *
             (sqrt (2 / INR (fan_in + fan_out)) * gain))%R
      with (sqrt (2 / INR (fan_in + fan_out)) * sqrt (2 / INR (fan_in + fan_out))
            * (gain * gain))%R by ring.
    rewrite S2. field. lra.
  - replace (sqrt (6 / INR (fan_in + fan_out)) * gain *
             (sqrt (6 / INR (fan_in + fan_out)) * gain))%R
      with (sqrt (6 / INR (fan_in + fan_out)) * sqrt (6 / INR (fan_in + fan_out))
            * (gain * gain))%R by ring.
    replace (sqrt (2 / INR (fan_in + fan_out)) * gain *
             (sqrt (2 / INR (fan_in + fan_out)) * gain))%R
      with (sqrt (2 / INR (fan_in + fan_out)) * sqrt (2 / INR (fan_in + fan_out))
            * (gain * gain))%R by ring.
    rewrite S6, S2. field. lra.
Qed.

Lemma xavier_variances_agree_witness :
  exists b std,
    init_initializers.xavier_uniform rand0 2 3 1 =
      Ok (rand0 [2; 3] (- b)%R b) /\
    init_initializers.xavier_normal rand0 2 3 1 =
      Ok (rand0 [2; 3] 0%R std) /\
    (std * std = 2 * (1 * 1) / INR (2 + 3))%R /\
    (b * b = 3 * (std * std))%R.
Proof. apply (xavier_variances_agree rand0 rand0 2 3 1). lia. Defined.

End init_initializers_facts.

(** ** The parameter registry and the layers of nn_basic.py *)

Module nn_basic_facts.
Import Engine Engine_facts nn_basic Reference Examples.

(** *** Induction on values, through dicts, lists and tuples *)

Section value_induction.
Variable P : value -> Prop.
Hypothesis Hnone : P VNone.
Hypothesis Hbool : forall b, P (VBool b).
Hypothesis Hint : forall n, P (VInt n).
Hypothesis Hfloat : forall r, P (VFloat r).
Hypothesis Hstr : forall s, P (VStr s).
Hypothesis Hother : forall s, P (VOther s).
Hypothesis Htensor : forall t, P (VTensor t).
Hypothesis Hparam : forall t, P (VParameter t).
Hypothesis Hmodule : forall l, P (VModule l).
Hypothesis Hdict : forall kvs, Forall (fun kv => P kv.2) kvs -> P (VDict kvs).
Hypothesis Hlist : forall vs, Forall P vs -> P (VList vs).
Hypothesis Htuple : forall vs, Forall P vs -> P (VTuple vs).

Lemma value_nested_ind (v : value) : P v.
Proof.
  revert v. fix IH 1. intros [ | | | | | | | | |kvs|vs|vs];
    [ apply Hnone | apply Hbool | apply Hint | apply Hfloat | apply Hstr
    | apply Hother | apply Htensor | apply Hparam | apply Hmodule
    | apply Hdict | apply Hlist | apply Htuple ].
  - induction kvs as [|kv kvs IHk]; constructor; [apply IH|exact IHk].
  - induction vs as [|v vs IHv]; constructor; [apply IH|exact IHv].
  - induction vs as [|v vs IHv]; constructor; [apply IH|exact IHv].
Qed.
End value_induction.

(** *** The walks: more fuel changes nothing, and enough fuel exists *)

Lemma mapM_mono {A B} (f g : A -> option B) (l : list A) (k : list B) :
  (forall a b, a ∈ l -> f a = Some b -> g a = Some b) ->
  mapM f l = Some k -> mapM g l = Some k.
Proof.
  intros H Hf. apply mapM_Some in Hf. apply mapM_Some.
  induction Hf as [|a b l k Hab _ IH]; constructor.
  - apply H; [constructor|exact Hab].
  - apply IH. intros a' b' Ha'. apply H. now constructor.
Qed.

Lemma _child_modules_mono n n' st v ms :
  _child_modules n st v = Some ms -> n <= n' -> _child_modules n' st v = Some ms.
Proof.
  revert n' v ms. induction n as [|n IH]; intros n' v ms H Hle; [discriminate|].
  destruct n' as [|n']; [lia|]. assert (Hle' : n <= n') by lia.
  destruct v; cbn in *; try exact H.
  - destruct (st !! l) as [o|]; cbn in *; [|discriminate].
    destruct (_child_modules n st _) as [ms0|] eqn:E; cbn in *; [|discriminate].
    now rewrite (IH _ _ _ E Hle').
  - destruct (mapM _ kvs) as [mss|] eqn:E; cbn in *; [|discriminate].
    erewrite mapM_mono; [exact H| |exact E]. intros a b _ Hab. now apply (IH n').
  - destruct (mapM _ vs) as [mss|] eqn:E; cbn in *; [|discriminate].
    erewrite mapM_mono; [exact H| |exact E]. intros a b _ Hab. now apply (IH n').
  - destruct (mapM _ vs) as [mss|] eqn:E; cbn in *; [|discriminate].
    erewrite mapM_mono; [exact H| |exact E]. intros a b _ Hab. now apply (IH n').
Qed.

Lemma mapM_fuel {A B} (f : nat -> A -> option B) (l : list A) :
  (forall n n' a b, f n a = Some b -> n <= n' -> f n' a = Some b) ->
  Forall (fun a => exists n b, f n a = Some b) l ->
  exists n k, mapM (f n) l = Some k.
Proof.
  intros Hmono H. induction H as [|a l (n1 & b & Hb) _ (n2 & k & Hk)].
  - exists 0, []. reflexivity.
  - exists (n1 `max` n2), (b :: k). apply mapM_Some. constructor.
    + apply (Hmono n1); [exact Hb|lia].
    + apply mapM_Some.
      apply (mapM_mono (f n2)); [|exact Hk].
      intros a' b' _ Hab. apply (Hmono n2); [exact Hab|lia].
Qed.

Lemma refs_dict_elem kvs kv l : kv ∈ kvs -> l ∈ refs kv.2 -> l ∈ refs (VDict kvs).
Proof.
  intros Hkv Hl. cbn. apply list_elem_of_In, in_flat_map.
  exists kv. split; now apply list_elem_of_In.
Qed.

Lemma refs_list_elem vs v l : v ∈ vs -> l ∈ refs v -> l ∈ flat_map refs vs.
Proof.
  intros Hv Hl. apply list_elem_of_In, in_flat_map.
  exists v. split; now apply list_elem_of_In.
Qed.

Section Termination.
Variable st : gmap loc object.
Variable rank : loc -> nat.
Hypothesis Hrank :
  forall l o l', st !! l = Some o -> l' ∈ refs (VDict (attrs o)) ->
                 is_Some (st !! l') /\ rank l' < rank l.

Lemma _child_modules_terminates r v :
  (forall l, l ∈ refs v -> is_Some (st !! l) /\ rank l < r) ->
  exists n ms, _child_modules n st v = Some ms.
Proof.
  revert v. induction r as [r IHr] using lt_wf_ind.
  intros v; induction v as [ | | | | | | | |l|kvs IH|vs IH|vs IH]
    using value_nested_ind;
    intros Hv; try (exists 1, []; reflexivity).
  - destruct (Hv l) as [[o Ho] Hlt]; [apply list_elem_of_here|].
    destruct (IHr (rank l) Hlt (VDict (__dict__ o))) as (n & ms & E).
    { intros l' Hl'. exact (Hrank l o l' Ho Hl'). }
    exists (S n), (l :: ms). cbn. rewrite Ho. cbn. rewrite E. reflexivity.
  - destruct (mapM_fuel (fun n kv => _child_modules n st kv.2) kvs) as (n & mss & E).
    + intros n n' a b Hab Hle. now apply (_child_modules_mono n).
    + apply Forall_forall. intros kv Hkv.
      apply (proj1 (Forall_forall _ _) IH kv Hkv).
      intros l Hl. apply Hv. now apply (refs_dict_elem _ kv).
    + exists (S n), (concat mss). cbn. rewrite E. reflexivity.
  - destruct (mapM_fuel (fun n => _child_modules n st) vs) as (n & mss & E).
    + intros n n' a b Hab Hle. now apply (_child_modules_mono n).
    + apply Forall_forall. intros v Hin.
      apply (proj1 (Forall_forall _ _) IH v Hin).
      intros l Hl. apply Hv. now apply (refs_list_elem _ v).
    + exists (S n), (concat mss). cbn. rewrite E. reflexivity.
  - destruct (mapM_fuel (fun n => _child_modules n st) vs) as (n & mss & E).
    + intros n n' a b Hab Hle. now apply (_child_modules_mono n).
    + apply Forall_forall. intros v Hin.
      apply (proj1 (Forall_forall _ _) IH v Hin).
      intros l Hl. apply Hv. now apply (refs_list_elem _ v).
    + exists (S n), (concat mss). cbn. rewrite E. reflexivity.
Qed.
End Termination.

Lemma elem_of_concat {A} (x : A) (ls : list (list A)) :
  x ∈ concat ls <-> exists l, l ∈ ls /\ x ∈ l.
Proof.
  rewrite list_elem_of_In, in_concat. split; intros (l & H1 & H2); exists l;
    split; now apply list_elem_of_In.
Qed.

Lemma Forall2_elem_l {A B} (P : A -> B -> Prop) l k x :
  Forall2 P l k -> x ∈ l -> exists y, y ∈ k /\ P x y.
Proof.
  induction 1 as [|a b l k Hab _ IH]; intros Hx; [now apply elem_of_nil in Hx|].
  apply elem_of_cons in Hx as [->|Hx].
  - exists b. split; [apply list_elem_of_here|exact Hab].
  - destruct (IH Hx) as (y & Hy & Hxy). exists y. split; [now apply list_elem_of_further|exact Hxy].
Qed.

Lemma Forall2_elem_r {A B} (P : A -> B -> Prop) l k y :
  Forall2 P l k -> y ∈ k -> exists x, x ∈ l /\ P x y.
Proof.
  induction 1 as [|a b l k Hab _ IH]; intros Hy; [now apply elem_of_nil in Hy|].
  apply elem_of_cons in Hy as [->|Hy].
  - exists a. split; [apply list_elem_of_here|exact Hab].
  - destruct (IH Hy) as (x & Hx & Hxy). exists x. split; [now apply list_elem_of_further|exact Hxy].
Qed.

Lemma _child_modules_reachable n st v ms :
  _child_modules n st v = Some ms -> forall l, l ∈ ms <-> reachable st v l.
Proof.
  revert v ms. induction n as [|n IH]; intros v ms H l; [discriminate|].
  destruct v; cbn in H;
    try (injection H as <-; split; intros Hl;
         [now apply elem_of_nil in Hl | inversion Hl]).
  - destruct (st !! l0) as [o|] eqn:Ho; cbn in H; [|discriminate].
    destruct (_child_modules n st _) as [ms0|] eqn:E; cbn in H; [|discriminate].
    injection H as <-. rewrite elem_of_cons, (IH _ _ E). split.
    + intros [->|Hr]; [constructor|]. now apply (reach_attr _ _ o).
    + intros Hr. inversion Hr; subst; [now left|]. right. congruence.
  - destruct (mapM _ kvs) as [mss|] eqn:E; cbn in H; [|discriminate].
    injection H as <-. apply mapM_Some in E. rewrite elem_of_concat. split.
    + intros (m & Hm & Hl).
      destruct (Forall2_elem_r _ _ _ _ E Hm) as ([k v] & Hkv & Hv).
      apply (reach_dict _ _ k v); [exact Hkv|]. now apply (IH _ _ Hv).
    + intros Hr. inversion Hr as [| |? k v ? Hkv Hv| |]; subst.
      destruct (Forall2_elem_l _ _ _ _ E Hkv) as (m & Hm & Hf).
      exists m. split; [exact Hm|]. now apply (IH _ _ Hf).
  - destruct (mapM _ vs) as [mss|] eqn:E; cbn in H; [|discriminate].
    injection H as <-. apply mapM_Some in E. rewrite elem_of_concat. split.
    + intros (m & Hm & Hl).
      destruct (Forall2_elem_r _ _ _ _ E Hm) as (v & Hin & Hv).
      apply (reach_list _ _ v); [exact Hin|]. now apply (IH _ _ Hv).
    + intros Hr. inversion Hr as [| | |? v ? Hin Hv|]; subst.
      destruct (Forall2_elem_l _ _ _ _ E Hin) as (m & Hm & Hf).
      exists m. split; [exact Hm|]. now apply (IH _ _ Hf).
  - destruct (mapM _ vs) as [mss|] eqn:E; cbn in H; [|discriminate].
    injection H as <-. apply mapM_Some in E. rewrite elem_of_concat. split.
    + intros (m & Hm & Hl).
      destruct (Forall2_elem_r _ _ _ _ E Hm) as (v & Hin & Hv).
      apply (reach_tuple _ _ v); [exact Hin|]. now apply (IH _ _ Hv).
    + intros Hr. inversion Hr as [| | | |? v ? Hin Hv]; subst.
      destruct (Forall2_elem_l _ _ _ _ E Hin) as (m & Hm & Hf).
      exists m. split; [exact Hm|]. now apply (IH _ _ Hf).
Qed.

Lemma _child_modules_in_store n st v ms l :
  _child_modules n st v = Some ms -> l ∈ ms -> is_Some (st !! l).
Proof.
  revert v ms. induction n as [|n IH]; intros v ms H Hl; [discriminate|].
  assert (Hwalk : forall (A : Type) (f : A -> value) (xs : list A) mss,
            mapM (fun x => _child_modules n st (f x)) xs = Some mss ->
            l ∈ concat mss -> is_Some (st !! l)).
  { intros A f xs mss E Hin. apply mapM_Some in E.
    apply elem_of_concat in Hin as (m & Hm & Hlm).
    destruct (Forall2_elem_r _ _ _ _ E Hm) as (x & _ & Hx). exact (IH _ _ Hx Hlm). }
  destruct v; cbn in H;
    try (injection H as <-; now apply elem_of_nil in Hl).
  - destruct (st !! l0) as [o|] eqn:Ho; cbn in H; [|discriminate].
    destruct (_child_modules n st _) as [ms0|] eqn:E; cbn in H; [|discriminate].
    injection H as <-. apply elem_of_cons in Hl as [->|Hl]; [eauto|].
    exact (IH _ _ E Hl).
  - destruct (mapM _ kvs) as [mss|] eqn:E; cbn in H; [|discriminate].
    injection H as <-. exact (Hwalk _ snd kvs mss E Hl).
  - destruct (mapM _ vs) as [mss|] eqn:E; cbn in H; [|discriminate].
    injection H as <-. exact (Hwalk _ (fun v => v) vs mss E Hl).
  - destruct (mapM _ vs) as [mss|] eqn:E; cbn in H; [|discriminate].
    injection H as <-. exact (Hwalk _ (fun v => v) vs mss E Hl).
Qed.

Lemma dict_flag_irrelevant n st b b' kvs :
  _child_modules n st (VDict (("training"%string, VBool b) :: kvs)) =
  _child_modules n st (VDict (("training"%string, VBool b') :: kvs)).
Proof. destruct n as [|[|n]]; reflexivity. Qed.

Lemma _child_modules_same_attrs n st st' v :
  same_attrs st st' -> _child_modules n st v = _child_modules n st' v.
Proof.
  intros Hs. revert v. induction n as [|n IH]; intros v; [reflexivity|].
  destruct v; cbn; try reflexivity.
  - specialize (Hs l). destruct (st !! l) as [o|], (st' !! l) as [o'|];
      try contradiction; [|reflexivity].
    destruct Hs as [_ Ha]. cbn. rewrite IH. unfold __dict__. rewrite Ha.
    now rewrite (dict_flag_irrelevant n st' (training o) (training o')).
  - erewrite mapM_ext; [reflexivity|]. intros kv. apply IH.
  - erewrite mapM_ext; [reflexivity|]. intros kv. apply IH.
  - erewrite mapM_ext; [reflexivity|]. intros kv. apply IH.
Qed.

Lemma same_attrs_set_training b st m : same_attrs st (Module.set_training b st m).
Proof.
  intros l. unfold Module.set_training. rewrite lookup_alter.
  destruct (decide (m = l)) as [->|Hne]; destruct (st !! l) as [o|]; cbn; auto.
Qed.

Lemma foldl_set_training_lookup b ms st l :
  foldl (Module.set_training b) st ms !! l =
  if decide (l ∈ ms)
  then (fun o => mkObject (cls o) b (attrs o)) <$> st !! l
  else st !! l.
Proof.
  revert st. induction ms as [|m ms IH]; intros st; cbn [foldl].
  - destruct (decide (l ∈ [])) as [H|_]; [now apply elem_of_nil in H|reflexivity].
  - rewrite IH. unfold Module.set_training at 1 2. rewrite lookup_alter.
    destruct (decide (l ∈ ms)) as [Hin|Hnin], (decide (m = l)) as [->|Hne].
    + rewrite decide_True by apply list_elem_of_here.
      destruct (st !! l); reflexivity.
    + rewrite decide_True by now apply list_elem_of_further. reflexivity.
    + rewrite decide_True by apply list_elem_of_here. reflexivity.
    + rewrite decide_False; [reflexivity|].
      intros [->|H]%elem_of_cons; contradiction.
Qed.

Lemma set_mode_spec b st self o :
  acyclic st -> st !! self = Some o ->
  exists fuel st',
    (forall n, fuel <= n -> set_mode b n st self = Some st') /\
    (forall l, reachable st (VModule self) l ->
       exists ol, st !! l = Some ol /\
                  st' !! l = Some (mkObject (cls ol) b (attrs ol))) /\
    (forall l, ~ reachable st (VModule self) l -> st' !! l = st !! l).
Proof.
  intros (rank & Hrank) Ho.
  destruct (_child_modules_terminates st rank Hrank (S (rank self)) (VModule self))
    as (n0 & ms0 & E0).
  { intros l [->|H]%elem_of_cons; [|now apply elem_of_nil in H].
    split; [eauto|lia]. }
  destruct n0 as [|n0]; [discriminate|]. cbn in E0. rewrite Ho in E0. cbn in E0.
  destruct (_child_modules n0 st (VDict (__dict__ o))) as [ms|] eqn:E; [|discriminate].
  injection E0 as <-.
  pose proof (_child_modules_reachable _ _ _ _ E) as Hreach.
  set (st1 := Module.set_training b st self).
  assert (Hchildren : forall n, n0 <= n -> Module._children n st1 self = Some ms).
  { intros n Hn. unfold Module._children, st1, Module.set_training.
    rewrite lookup_alter_eq, Ho. cbn.
    rewrite <- (_child_modules_same_attrs n st _ _ (same_attrs_set_training b st self)).
    unfold __dict__. cbn [training attrs].
    rewrite (dict_flag_irrelevant n st b (training o)).
    now apply (_child_modules_mono n0). }
  exists n0, (foldl (Module.set_training b) st1 ms).
  split; [|split].
  - intros n Hn. unfold set_mode. fold st1. now rewrite (Hchildren n Hn).
  - intros l Hl. rewrite foldl_set_training_lookup.
    unfold st1, Module.set_training. rewrite lookup_alter.
    assert (Hcase : l = self \/ l ∈ ms).
    { inversion Hl; subst; [now left|]. right. apply Hreach. congruence. }
    assert (Hsome : is_Some (st !! l)).
    { destruct Hcase as [->|Hin]; [eauto|].
      exact (_child_modules_in_store _ _ _ _ _ E Hin). }
    destruct Hsome as [ol Hol]. exists ol. split; [exact Hol|].
    destruct (decide (self = l)) as [Heq|Hne]; [subst l|];
      destruct (decide (_ ∈ ms)); rewrite ?Hol; cbn; try reflexivity.
    destruct Hcase; congruence.
  - intros l Hl. rewrite foldl_set_training_lookup.
    unfold st1, Module.set_training. rewrite lookup_alter.
    rewrite decide_False.
    + rewrite decide_False; [reflexivity|]. intros <-. apply Hl. constructor.
    + intros Hin. apply Hl. apply (reach_attr _ _ o); [exact Ho|]. now apply Hreach.
Qed.

Lemma _unpack_params_mono n n' st v ps :
  _unpack_params n st v = Some ps -> n <= n' -> _unpack_params n' st v = Some ps.
Proof.
  revert n' v ps. induction n as [|n IH]; intros n' v ps H Hle; [discriminate|].
  destruct n' as [|n']; [lia|]. assert (Hle' : n <= n') by lia.
  destruct v; cbn in *; try exact H.
  - destruct (st !! l) as [o|]; cbn in *; [|discriminate]. now apply (IH n').
  - destruct (mapM _ kvs) as [pss|] eqn:E; cbn in *; [|discriminate].
    erewrite mapM_mono; [exact H| |exact E]. intros a b _ Hab. now apply (IH n').
  - destruct (mapM _ vs) as [pss|] eqn:E; cbn in *; [|discriminate].
    erewrite mapM_mono; [exact H| |exact E]. intros a b _ Hab. now apply (IH n').
  - destruct (mapM _ vs) as [pss|] eqn:E; cbn in *; [|discriminate].
    erewrite mapM_mono; [exact H| |exact E]. intros a b _ Hab. now apply (IH n').
Qed.

Section UnpackTermination.
Variable st : gmap loc object.
Variable rank : loc -> nat.
Hypothesis Hrank :
  forall l o l', st !! l = Some o -> l' ∈ refs (VDict (attrs o)) ->
                 is_Some (st !! l') /\ rank l' < rank l.

Lemma _unpack_params_terminates r v :
  (forall l, l ∈ refs v -> is_Some (st !! l) /\ rank l < r) ->
  exists n ps, _unpack_params n st v = Some ps.
Proof.
  revert v. induction r as [r IHr] using lt_wf_ind.
  intros v; induction v as [ | | | | | | |t|l|kvs IH|vs IH|vs IH]
    using value_nested_ind;
    intros Hv; try (exists 1, []; reflexivity).
  - exists 1, [t]. reflexivity.
  - destruct (Hv l) as [[o Ho] Hlt]; [apply list_elem_of_here|].
    destruct (IHr (rank l) Hlt (VDict (__dict__ o))) as (n & ms & E).
    { intros l' Hl'. exact (Hrank l o l' Ho Hl'). }
    exists (S n), ms. cbn. rewrite Ho. exact E.
  - destruct (mapM_fuel (fun n kv => _unpack_params n st kv.2) kvs) as (n & mss & E).
    + intros n n' a b Hab Hle. now apply (_unpack_params_mono n).
    + apply Forall_forall. intros kv Hkv.
      apply (proj1 (Forall_forall _ _) IH kv Hkv).
      intros l Hl. apply Hv. now apply (refs_dict_elem _ kv).
    + exists (S n), (concat mss). cbn. rewrite E. reflexivity.
  - destruct (mapM_fuel (fun n => _unpack_params n st) vs) as (n & mss & E).
    + intros n n' a b Hab Hle. now apply (_unpack_params_mono n).
    + apply Forall_forall. intros v Hin.
      apply (proj1 (Forall_forall _ _) IH v Hin).
      intros l Hl. apply Hv. now apply (refs_list_elem _ v).
    + exists (S n), (concat mss). cbn. rewrite E. reflexivity.
  - destruct (mapM_fuel (fun n => _unpack_params n st) vs) as (n & mss & E).
    + intros n n' a b Hab Hle. now apply (_unpack_params_mono n).
    + apply Forall_forall. intros v Hin.
      apply (proj1 (Forall_forall _ _) IH v Hin).
      intros l Hl. apply Hv. now apply (refs_list_elem _ v).
    + exists (S n), (concat mss). cbn. rewrite E. reflexivity.
Qed.
End UnpackTermination.

Lemma _unpack_params_rule n st v ps :
  _unpack_params n st v = Some ps -> params_rule st v ps.
Proof.
  revert v ps. induction n as [|n IH]; intros v ps H; [discriminate|].
  destruct v; cbn in H;
    try (injection H as <-; now apply rule_other).
  - injection H as <-. constructor.
  - destruct (st !! l) as [o|] eqn:Ho; cbn in H; [|discriminate].
    apply (rule_module _ _ o); [exact Ho|]. now apply IH.
  - destruct (mapM _ kvs) as [pss|] eqn:E; cbn in H; [|discriminate].
    injection H as <-. apply rule_dict. apply mapM_Some in E.
    eapply Forall2_impl; [exact E|]. intros kv p Hp. now apply IH.
  - destruct (mapM _ vs) as [pss|] eqn:E; cbn in H; [|discriminate].
    injection H as <-. apply rule_list. apply mapM_Some in E.
    eapply Forall2_impl; [exact E|]. intros kv p Hp. now apply IH.
  - destruct (mapM _ vs) as [pss|] eqn:E; cbn in H; [|discriminate].
    injection H as <-. apply rule_tuple. apply mapM_Some in E.
    eapply Forall2_impl; [exact E|]. intros kv p Hp. now apply IH.
Qed.

Lemma Forall2_functional {A B} (P Q : A -> B -> Prop) l k k' :
  (forall a b b', P a b -> Q a b' -> b' = b) ->
  Forall2 P l k -> Forall2 Q l k' -> k' = k.
Proof.
  intros Hf H. revert k'. induction H as [|a b l k Hab _ IH]; intros k' H';
    inversion H'; subst; [reflexivity|].
  f_equal; [eapply Hf; eassumption | now apply IH].
Qed.

Lemma params_rule_unique n st v ps ps' :
  params_rule st v ps' -> _unpack_params n st v = Some ps -> ps' = ps.
Proof.
  revert v ps ps'. induction n as [|n IH]; intros v ps ps' Hr H; [discriminate|].
  assert (Hwalk : forall (A : Type) (f : A -> value) (xs : list A) pss pss',
            Forall2 (fun x p => params_rule st (f x) p) xs pss' ->
            mapM (fun x => _unpack_params n st (f x)) xs = Some pss ->
            pss' = pss).
  { intros A f xs pss pss' Hrule E. apply mapM_Some in E.
    apply (Forall2_functional _ _ _ _ _
             (fun x p p' (H1 : _unpack_params n st (f x) = Some p) H2 =>
                IH (f x) p p' H2 H1) E Hrule). }
  destruct v; cbn in H; inversion Hr; subst; try contradiction;
    try (now injection H as <-).
  - destruct (st !! l) as [o'|] eqn:Ho; cbn in H; [|discriminate].
    match goal with
    | Hl : Some o' = Some ?o, Hd : params_rule st (VDict (__dict__ ?o)) _ |- _ =>
        injection Hl as ->; exact (IH _ _ _ Hd H)
    end.
  - destruct (mapM _ kvs) as [pss'|] eqn:E; cbn in H; [|discriminate].
    injection H as <-. f_equal.
    match goal with
    | Hf : Forall2 _ kvs _ |- _ => exact (Hwalk _ snd kvs _ _ Hf E)
    end.
  - destruct (mapM _ vs) as [pss'|] eqn:E; cbn in H; [|discriminate].
    injection H as <-. f_equal.
    match goal with
    | Hf : Forall2 _ vs _ |- _ => exact (Hwalk _ (fun v => v) vs _ _ Hf E)
    end.
  - destruct (mapM _ vs) as [pss'|] eqn:E; cbn in H; [|discriminate].
    injection H as <-. f_equal.
    match goal with
    | Hf : Forall2 _ vs _ |- _ => exact (Hwalk _ (fun v => v) vs _ _ Hf E)
    end.
Qed.

(** C8: on an acyclic module graph, [parameters()] returns (for every
    sufficient recursion depth) the one list the recursion rule allows: a
    Parameter contributes itself, a Module its own parameter list, a dict the
    concatenation over its values in the order of its keys, a list or tuple
    the concatenation over its elements, any other value nothing. *)
Theorem parameters_follow_rule st self o :
  acyclic st -> st !! self = Some o ->
  exists fuel ps,
    (forall n, fuel <= n -> Module.parameters n st self = Some ps) /\
    params_rule st (VModule self) ps /\
    (forall ps', params_rule st (VModule self) ps' -> ps' = ps).
Proof.
  intros (rank & Hrank) Ho.
  destruct (_unpack_params_terminates st rank Hrank (S (rank self)) (VModule self))
    as (n0 & ps & E0).
  { intros l [->|H]%elem_of_cons; [|now apply elem_of_nil in H].
    split; [eauto|lia]. }
  exists n0, ps. split; [|split].
  - intros n Hn. apply (_unpack_params_mono _ (S n)) in E0; [|lia].
    cbn in E0. rewrite Ho in E0. unfold Module.parameters. now rewrite Ho.
  - exact (_unpack_params_rule _ _ _ _ E0).
  - intros ps' Hr. exact (params_rule_unique _ _ _ _ _ Hr E0).
Qed.

Lemma st0_acyclic : acyclic st0.
Proof.
  exists (fun l => 4 - l). intros l o l' Ho Hl'.
  unfold st0 in *.
  destruct l as [|[|[|[|l]]]]; simplify_map_eq; cbn in Hl';
    repeat match goal with
           | H : _ ∈ _ :: _ |- _ => apply elem_of_cons in H as [->|H]
           | H : _ ∈ [] |- _ => now apply elem_of_nil in H
           end;
    (split; [simplify_map_eq; eauto | cbn; lia]).
Qed.

Lemma parameters_follow_rule_witness :
  exists fuel ps,
    (forall n, fuel <= n -> Module.parameters n st0 0 = Some ps) /\
    params_rule st0 (VModule 0) ps /\
    (forall ps', params_rule st0 (VModule 0) ps' -> ps' = ps).
Proof.
  apply (parameters_follow_rule st0 0
           root0);
    [exact st0_acyclic | reflexivity].
Defined.

(** C6: on an acyclic module graph, [eval()] sets [training] to False and
    [train()] sets it to True on the module itself and on every module
    reachable from it through module attributes, dicts, lists and tuples,
    changing nothing else of these objects and nothing of the others; after
    [eval()] the forward of every reachable Dropout is the identity. *)
Theorem eval_train_propagate st self o :
  acyclic st -> st !! self = Some o ->
  exists fuel st_eval st_train,
    (forall n, fuel <= n ->
       Module.eval n st self = Some st_eval /\
       Module.train n st self = Some st_train) /\
    (forall l, reachable st (VModule self) l ->
       exists ol, st !! l = Some ol /\
         st_eval !! l = Some (mkObject (cls ol) false (attrs ol)) /\
         st_train !! l = Some (mkObject (cls ol) true (attrs ol))) /\
    (forall l, ~ reachable st (VModule self) l ->
       st_eval !! l = st !! l /\ st_train !! l = st !! l) /\
    (forall l d, reachable st (VModule self) l ->
       st_eval !! l = Some (Dropout.to_object d) ->
       forall randb x n, Dropout.forward randb d x n = (Ok x, n)).
Proof.
  intros Hac Ho.
  destruct (set_mode_spec false st self o Hac Ho) as (f1 & st_eval & He & Hre & Hue).
  destruct (set_mode_spec true st self o Hac Ho) as (f2 & st_train & Ht & Hrt & Hut).
  exists (f1 `max` f2), st_eval, st_train. split; [|split; [|split]].
  - intros n Hn. split; [apply He | apply Ht]; lia.
  - intros l Hl. destruct (Hre l Hl) as (ol & Hol & E1).
    destruct (Hrt l Hl) as (ol' & Hol' & E2).
    assert (ol' = ol) by congruence. subst ol'. eauto.
  - intros l Hl. split; [now apply Hue | now apply Hut].
  - intros l d Hl Hd randb x n. destruct (Hre l Hl) as (ol & _ & E1).
    rewrite E1 in Hd. injection Hd as _ Htr _.
    unfold Dropout.forward. now rewrite <- Htr.
Qed.

Lemma eval_train_propagate_witness :
  exists fuel st_eval st_train,
    (forall n, fuel <= n ->
       Module.eval n st0 0 = Some st_eval /\
       Module.train n st0 0 = Some st_train) /\
    (forall l, reachable st0 (VModule 0) l ->
       exists ol, st0 !! l = Some ol /\
         st_eval !! l = Some (mkObject (cls ol) false (attrs ol)) /\
         st_train !! l = Some (mkObject (cls ol) true (attrs ol))) /\
    (forall l, ~ reachable st0 (VModule 0) l ->
       st_eval !! l = st0 !! l /\ st_train !! l = st0 !! l) /\
    (forall l d, reachable st0 (VModule 0) l ->
       st_eval !! l = Some (Dropout.to_object d) ->
       forall randb x n, Dropout.forward randb d x n = (Ok x, n)).
Proof.
  apply (eval_train_propagate st0 0
           root0);
    [exact st0_acyclic | reflexivity].
Defined.

(** C10: whatever the state of a BatchNorm1d or BatchNorm2d (freshly
    constructed or after forward calls), [parameters()] is exactly
    [[weight, bias]]: [running_mean] and [running_var] are plain Tensors and
    contribute nothing. *)
Theorem BatchNorm_parameters st l class_name device self n :
  Module.parameters (2 + n)
    (insert l (BatchNorm1d.to_object class_name device self) st) l
  = Some [BatchNorm1d.weight self; BatchNorm1d.bias self].
Proof.
  unfold Module.parameters. rewrite lookup_insert_eq. cbn.
  destruct device; reflexivity.
Qed.

(** *** BatchNorm1d *)

Lemma normalize_entries self x mean var batch :
  shape x = [batch; BatchNorm1d.dim self] ->
  shape mean = [BatchNorm1d.dim self] -> shape var = [BatchNorm1d.dim self] ->
  shape (BatchNorm1d.weight self) = [BatchNorm1d.dim self] ->
  shape (BatchNorm1d.bias self) = [BatchNorm1d.dim self] ->
  exists y, BatchNorm1d.normalize self x mean var = Ok y /\
    shape y = shape x /\
    forall n c, c < BatchNorm1d.dim self ->
      item y [n; c] =
      ((item x [n; c] - item mean [c]) / sqrt (item var [c] + BatchNorm1d.eps self)
       * item (BatchNorm1d.weight self) [c] + item (BatchNorm1d.bias self) [c])%R.
Proof.
  intros Hx Hm Hv Hw Hb. unfold BatchNorm1d.normalize. rewrite Hx.
  destruct (row_broadcast mean _ batch Hm) as (m1 & m2 & Em1 & Em & Sm & Im).
  destruct (row_broadcast var _ batch Hv) as (v1 & v2 & Ev1 & Ev & Sv & Iv).
  destruct (row_broadcast _ _ batch Hw) as (w1 & w2 & Ew1 & Ew & Sw & Iw).
  destruct (row_broadcast _ _ batch Hb) as (b1 & b2 & Eb1 & Eb & Sb & Ib).
  rewrite Em1, bind_Ok, Em, bind_Ok.
  unfold sub. rewrite ewise_ok by congruence. rewrite bind_Ok.
  rewrite Ev1, bind_Ok, Ev, bind_Ok.
  unfold div. rewrite ewise_ok by (cbn; congruence). rewrite bind_Ok.
  rewrite Ew1, bind_Ok, Ew, bind_Ok.
  unfold mul. rewrite ewise_ok by (cbn; congruence). rewrite bind_Ok.
  rewrite Eb1, bind_Ok, Eb, bind_Ok.
  unfold add. rewrite ewise_ok by (cbn; congruence).
  eexists; split; [reflexivity|]. split; [exact Hx|].
  intros n c Hc. cbn [item shape pow_half add_scalar map_tensor].
  now rewrite Im, Iv, Iw, Ib.
Qed.

(** A training-mode forward on a well-shaped batch. *)
Lemma forward_training self x batch :
  BatchNorm1d.training self = true ->
  shape x = [batch; BatchNorm1d.dim self] ->
  shape (BatchNorm1d.weight self) = [BatchNorm1d.dim self] ->
  shape (BatchNorm1d.bias self) = [BatchNorm1d.dim self] ->
  shape (BatchNorm1d.running_mean self) = [BatchNorm1d.dim self] ->
  shape (BatchNorm1d.running_var self) = [BatchNorm1d.dim self] ->
  exists y rm rv,
    BatchNorm1d.forward x self =
      (Ok y, BatchNorm1d.mk true (BatchNorm1d.dim self) (BatchNorm1d.eps self)
               (BatchNorm1d.momentum self) (BatchNorm1d.weight self)
               (BatchNorm1d.bias self) rm rv) /\
    shape y = shape x /\ shape rm = [BatchNorm1d.dim self] /\
    shape rv = [BatchNorm1d.dim self] /\
    (forall n c, c < BatchNorm1d.dim self ->
       item y [n; c] =
       ((item x [n; c] - batch_mean x batch c)
        / sqrt (batch_var x batch c + BatchNorm1d.eps self)
        * item (BatchNorm1d.weight self) [c] + item (BatchNorm1d.bias self) [c])%R) /\
    (forall c, c < BatchNorm1d.dim self ->
       item rm [c] =
       (item (BatchNorm1d.running_mean self) [c] * (1 - BatchNorm1d.momentum self)
        + batch_mean x batch c * BatchNorm1d.momentum self)%R) /\
    (forall c, c < BatchNorm1d.dim self ->
       item rv [c] =
       (item (BatchNorm1d.running_var self) [c] * (1 - BatchNorm1d.momentum self)
        + batch_var x batch c * BatchNorm1d.momentum self)%R).
Proof.
  intros Ht Hx Hw Hb Hrm Hrv.
  unfold BatchNorm1d.forward, mbind, stateful_bind, lift, get.
  rewrite Hx. cbn [index lookup list_lookup]. rewrite Ht.
  destruct (column_sum x batch _ Hx) as (s & Es & Ss & Is).
  rewrite Es. cbn [result_bind rbind].
  set (avg := div_scalar s (INR batch)).
  assert (Savg : shape avg = [BatchNorm1d.dim self]) by exact Ss.
  destruct (row_broadcast avg _ batch Savg) as (a1 & a2 & Ea1 & Ea2 & Sa2 & Ia2).
  rewrite Ea1. cbn [result_bind rbind]. rewrite Ea2. cbn [result_bind rbind].
  unfold sub at 1. rewrite ewise_ok by congruence. cbn [result_bind rbind].
  match goal with
  | |- context [summation (square ?c) 0] =>
      destruct (column_sum (square c) batch (BatchNorm1d.dim self) Hx)
        as (s2 & Es2 & Ss2 & Is2)
  end.
  rewrite Es2. cbn [result_bind rbind].
  set (var := div_scalar s2 (INR batch)).
  assert (Svar : shape var = [BatchNorm1d.dim self]) by exact Ss2.
  unfold add. rewrite ewise_ok by (cbn; congruence).
  cbn [BatchNorm1d.set_running_mean BatchNorm1d.running_var BatchNorm1d.momentum].
  rewrite ewise_ok by (cbn; congruence).
  cbn [BatchNorm1d.set_running_var BatchNorm1d.training BatchNorm1d.dim
       BatchNorm1d.eps BatchNorm1d.momentum BatchNorm1d.weight BatchNorm1d.bias
       BatchNorm1d.running_mean BatchNorm1d.running_var].
  rewrite Ht.
  match goal with
  | |- context [BatchNorm1d.normalize ?s' x avg var] =>
      destruct (normalize_entries s' x avg var batch Hx Savg Svar Hw Hb)
        as (y & Ey & Sy & Iy)
  end.
  rewrite Ey.
  assert (Iavg : forall c, item avg [c] = batch_mean x batch c).
  { intros c. unfold avg, batch_mean. cbn [item div_scalar map_tensor].
    now rewrite Is. }
  assert (Ivar : forall c, c < BatchNorm1d.dim self ->
                           item var [c] = batch_var x batch c).
  { intros c Hc. unfold var, batch_var. cbn [item div_scalar map_tensor].
    rewrite Is2. f_equal. apply Rsum_ext. intros n Hn.
    cbn [item square map_tensor]. now rewrite Ia2, Iavg by assumption. }
  eexists; eexists; eexists. split; [reflexivity|].
  split; [congruence|]. split; [cbn; congruence|]. split; [cbn; congruence|].
  split; [|split].
  - intros n c Hc. rewrite Iy by exact Hc.
    cbn [BatchNorm1d.eps BatchNorm1d.weight BatchNorm1d.bias].
    now rewrite Iavg, Ivar by assumption.
  - intros c Hc. cbn [item mul_scalar map_tensor]. now rewrite Iavg.
  - intros c Hc. cbn [item mul_scalar map_tensor]. now rewrite Ivar.
Qed.

(** C3: in training mode, on a batch of shape (batch, dim), the output is
    [x] normalised with the mean and variance of the batch itself, [eps]
    added to the variance under the square root, then scaled by [weight] and
    shifted by [bias]; one call leaves [running_mean] and [running_var] at
    [momentum * batch statistic + (1 - momentum) * previous value]. *)
Theorem BatchNorm1d_training_forward self x batch :
  BatchNorm1d.training self = true ->
  shape x = [batch; BatchNorm1d.dim self] ->
  shape (BatchNorm1d.weight self) = [BatchNorm1d.dim self] ->
  shape (BatchNorm1d.bias self) = [BatchNorm1d.dim self] ->
  shape (BatchNorm1d.running_mean self) = [BatchNorm1d.dim self] ->
  shape (BatchNorm1d.running_var self) = [BatchNorm1d.dim self] ->
  exists y self',
    BatchNorm1d.forward x self = (Ok y, self') /\
    shape y = [batch; BatchNorm1d.dim self] /\
    (forall n c, n < batch -> c < BatchNorm1d.dim self ->
       item y [n; c] =
       ((item x [n; c] - batch_mean x batch c)
        / sqrt (batch_var x batch c + BatchNorm1d.eps self)
        * item (BatchNorm1d.weight self) [c] + item (BatchNorm1d.bias self) [c])%R) /\
    (forall c, c < BatchNorm1d.dim self ->
       item (BatchNorm1d.running_mean self') [c] =
       (BatchNorm1d.momentum self * batch_mean x batch c
        + (1 - BatchNorm1d.momentum self)
          * item (BatchNorm1d.running_mean self) [c])%R) /\
    (forall c, c < BatchNorm1d.dim self ->
       item (BatchNorm1d.running_var self') [c] =
       (BatchNorm1d.momentum self * batch_var x batch c
        + (1 - BatchNorm1d.momentum self)
          * item (BatchNorm1d.running_var self) [c])%R) /\
    BatchNorm1d.weight self' = BatchNorm1d.weight self /\
    BatchNorm1d.bias self' = BatchNorm1d.bias self.
Proof.
  intros Ht Hx Hw Hb Hrm Hrv.
  destruct (forward_training self x batch Ht Hx Hw Hb Hrm Hrv)
    as (y & rm & rv & E & Sy & _ & _ & Iy & Irm & Irv).
  eexists; eexists. split; [exact E|]. split; [congruence|].
  cbn [BatchNorm1d.running_mean BatchNorm1d.running_var BatchNorm1d.weight
       BatchNorm1d.bias].
  repeat split.
  - intros n c _ Hc. now apply Iy.
  - intros c Hc. rewrite Irm by assumption. ring.
  - intros c Hc. rewrite Irv by assumption. ring.
Qed.

Lemma BatchNorm1d_training_forward_witness :
  exists y self',
    BatchNorm1d.forward x1 bn0 = (Ok y, self') /\
    shape y = [1; BatchNorm1d.dim bn0] /\
    (forall n c, n < 1 -> c < BatchNorm1d.dim bn0 ->
       item y [n; c] =
       ((item x1 [n; c] - batch_mean x1 1 c)
        / sqrt (batch_var x1 1 c + BatchNorm1d.eps bn0)
        * item (BatchNorm1d.weight bn0) [c] + item (BatchNorm1d.bias bn0) [c])%R) /\
    (forall c, c < BatchNorm1d.dim bn0 ->
       item (BatchNorm1d.running_mean self') [c] =
       (BatchNorm1d.momentum bn0 * batch_mean x1 1 c
        + (1 - BatchNorm1d.momentum bn0)
          * item (BatchNorm1d.running_mean bn0) [c])%R) /\
    (forall c, c < BatchNorm1d.dim bn0 ->
       item (BatchNorm1d.running_var self') [c] =
       (BatchNorm1d.momentum bn0 * batch_var x1 1 c
        + (1 - BatchNorm1d.momentum bn0)
          * item (BatchNorm1d.running_var bn0) [c])%R) /\
    BatchNorm1d.weight self' = BatchNorm1d.weight bn0 /\
    BatchNorm1d.bias self' = BatchNorm1d.bias bn0.
Proof.
  apply (BatchNorm1d_training_forward bn0 x1 1); reflexivity.
Defined.

(** In training mode a batch of any other shape is rejected before the
    statistics are touched. *)
Lemma forward_bad_shape self x :
  BatchNorm1d.training self = true ->
  (forall batch, shape x <> [batch; BatchNorm1d.dim self]) ->
  exists e, BatchNorm1d.forward x self = (Raise e, self).
Proof.
  intros Ht Hne.
  unfold BatchNorm1d.forward, mbind, stateful_bind, lift, get.
  destruct (shape x) as [|batch s'] eqn:Hx; cbn [index lookup list_lookup];
    [eauto|].
  rewrite Ht.
  rewrite (summation_ok x 0 batch) by (rewrite Hx; reflexivity).
  cbn [result_bind rbind].
  destruct (reshape _ [1; BatchNorm1d.dim self]) as [a1|] eqn:E1;
    cbn [result_bind rbind]; [|eauto].
  destruct (broadcast_to a1 _) as [a2|] eqn:E2;
    cbn [result_bind rbind]; [|eauto].
  exfalso. apply (Hne batch). f_equal.
  apply reshape_inv in E1 as [Hn Hs1]. apply broadcast_to_inv in E2.
  rewrite Hs1 in E2. cbn [shape div_scalar map_tensor] in Hn. rewrite Hx in Hn.
  cbn [delete list_delete] in Hn.
  destruct s' as [|d' [|]]; cbn in E2; rewrite ?andb_false_r in E2;
    try discriminate.
  cbn in Hn. f_equal. lia.
Qed.

Lemma shape_decide (x : Tensor) (d : nat) :
  (exists batch, shape x = [batch; d]) \/ (forall batch, shape x <> [batch; d]).
Proof.
  destruct (shape x) as [|b [|d' [|]]]; try (right; intros; discriminate).
  destruct (decide (d' = d)) as [->|Hne]; [left; eauto|].
  right. intros batch [= _ ?]. contradiction.
Qed.

Lemma BatchNorm1d_raise self x e self' :
  well_shaped self ->
  BatchNorm1d.forward x self = (Raise e, self') -> self' = self.
Proof.
  intros (Hw & Hb & Hrm & Hrv) H.
  destruct (BatchNorm1d.training self) eqn:Ht.
  - destruct (shape_decide x (BatchNorm1d.dim self)) as [[batch Hx]|Hne].
    + destruct (forward_training self x batch Ht Hx Hw Hb Hrm Hrv)
        as (y & rm & rv & E & _).
      rewrite E in H. discriminate.
    + destruct (forward_bad_shape self x Ht Hne) as (e' & E).
      rewrite E in H. now injection H.
  - unfold BatchNorm1d.forward, mbind, stateful_bind, lift, get in H.
    destruct (index (shape x) 0); [|now injection H].
    rewrite Ht in H. now injection H.
Qed.

Lemma BatchNorm2d_raise self x e self' :
  well_shaped self ->
  BatchNorm2d.forward x self = (Raise e, self') -> self' = self.
Proof.
  intros Hws H.
  unfold BatchNorm2d.forward in H.
  unfold mbind at 1, stateful_bind at 1, lift at 1 in H.
  destruct (transpose x 1 2 ≫= _) as [_x|] eqn:E1; [|now injection H].
  unfold mbind at 1, stateful_bind at 1 in H.
  destruct (BatchNorm1d.forward _x self) as [[y0|e0] s1] eqn:E2.
  2:{ injection H as _ <-. exact (BatchNorm1d_raise _ _ _ _ Hws E2). }
  unfold lift in H.
  destruct (BatchNorm1d.training self) eqn:Ht.
  2:{ injection H as _ <-.
      unfold BatchNorm1d.forward, mbind, stateful_bind, lift, get in E2.
      destruct (index (shape _x) 0); [|discriminate].
      rewrite Ht in E2. now injection E2. }
  exfalso.
  destruct (transpose x 1 2) as [x1'|]; [|discriminate]. rewrite bind_Ok in E1.
  destruct (transpose x1' 2 3) as [x2|]; [|discriminate]. rewrite bind_Ok in E1.
  destruct (index (shape x) 0) as [s0|]; [|discriminate].
  destruct (index (shape x) 2) as [s2|]; [|discriminate].
  destruct (index (shape x) 3) as [s3|]; [|discriminate].
  destruct (index (shape x) 1) as [c|]; [|discriminate].
  rewrite !bind_Ok in E1, H.
  apply reshape_inv in E1 as [_ Sx].
  assert (Sy : shape y0 = [s0 * s2 * s3; c]).
  { destruct Hws as (Hw & Hb & Hrm & Hrv).
    destruct (shape_decide _x (BatchNorm1d.dim self)) as [[batch Hx]|Hne].
    - destruct (forward_training self _x batch Ht Hx Hw Hb Hrm Hrv)
        as (y & rm & rv & E & Sy & _).
      rewrite E in E2. injection E2 as <- _. congruence.
    - destruct (forward_bad_shape self _x Ht Hne) as (e' & E).
      rewrite E in E2. discriminate. }
  rewrite reshape_ok in H by (rewrite Sy; cbn; lia). rewrite bind_Ok in H.
  rewrite transpose_ok in H by (cbn; lia). rewrite bind_Ok in H.
  rewrite transpose_ok in H by (cbn; lia). discriminate.
Qed.

Lemma BatchNorm1d_forward_fields x self :
  forget_bn (BatchNorm1d.forward x self).2 = forget_bn self.
Proof.
  unfold BatchNorm1d.forward, mbind, stateful_bind, lift, get.
  destruct (index (shape x) 0) as [batch|]; [|reflexivity].
  destruct (BatchNorm1d.training self); [|reflexivity].
  destruct (result_bind _ _ _ (summation x 0)) as [avg|]; [|reflexivity].
  destruct (result_bind _ _ _ (reshape avg _)) as [var|]; [|reflexivity].
  destruct (add _ _) as [rm|]; [|reflexivity].
  cbn [BatchNorm1d.set_running_mean].
  destruct (add _ _) as [rv|]; [|reflexivity].
  reflexivity.
Qed.

Lemma BatchNorm2d_forward_fields x self :
  forget_bn (BatchNorm2d.forward x self).2 = forget_bn self.
Proof.
  unfold BatchNorm2d.forward.
  unfold mbind at 1, stateful_bind at 1, lift at 1.
  destruct (transpose x 1 2 ≫= _) as [_x|]; [|reflexivity].
  unfold mbind at 1, stateful_bind at 1.
  pose proof (BatchNorm1d_forward_fields _x self) as E.
  destruct (BatchNorm1d.forward _x self) as [[y0|e0] s1]; exact E.
Qed.

(** *** BatchNorm in evaluation mode, and what a training call computes *)

Lemma forward_inference self x batch :
  BatchNorm1d.training self = false ->
  shape x = [batch; BatchNorm1d.dim self] ->
  well_shaped self ->
  exists y,
    BatchNorm1d.forward x self = (Ok y, self) /\
    shape y = [batch; BatchNorm1d.dim self] /\
    forall n c, c < BatchNorm1d.dim self ->
      item y [n; c] =
      ((item x [n; c] - item (BatchNorm1d.running_mean self) [c])
       / sqrt (item (BatchNorm1d.running_var self) [c] + BatchNorm1d.eps self)
       * item (BatchNorm1d.weight self) [c] + item (BatchNorm1d.bias self) [c])%R.
Proof.
  intros Ht Hx (Hw & Hb & Hrm & Hrv).
  destruct (normalize_entries self x _ _ batch Hx Hrm Hrv Hw Hb) as (y & Ey & Sy & Iy).
  exists y. split; [|split; [congruence|exact Iy]].
  unfold BatchNorm1d.forward, mbind, stateful_bind, lift, get.
  replace (index (shape x) 0) with (Ok (A:=nat) batch) by now rewrite Hx.
  rewrite Ht, Ey. reflexivity.
Qed.

(** X1: in evaluation mode, on a batch of shape (batch, dim), BatchNorm1d
    returns [(x - running_mean) / sqrt (running_var + eps) * weight + bias]
    feature by feature and leaves the module, running statistics included,
    as it was. *)
Theorem BatchNorm1d_eval_forward self x batch :
  BatchNorm1d.training self = false ->
  shape x = [batch; BatchNorm1d.dim self] ->
  well_shaped self ->
  exists y,
    BatchNorm1d.forward x self = (Ok y, self) /\
    shape y = [batch; BatchNorm1d.dim self] /\
    forall n c, c < BatchNorm1d.dim self ->
      item y [n; c] =
      ((item x [n; c] - item (BatchNorm1d.running_mean self) [c])
       / sqrt (item (BatchNorm1d.running_var self) [c] + BatchNorm1d.eps self)
       * item (BatchNorm1d.weight self) [c] + item (BatchNorm1d.bias self) [c])%R.
Proof. apply forward_inference. Qed.

Lemma BatchNorm1d_eval_forward_witness :
  exists y,
    BatchNorm1d.forward x1 bn0_eval = (Ok y, bn0_eval) /\
    shape y = [1; BatchNorm1d.dim bn0_eval] /\
    forall n c, c < BatchNorm1d.dim bn0_eval ->
      item y [n; c] =
      ((item x1 [n; c] - item (BatchNorm1d.running_mean bn0_eval) [c])
       / sqrt (item (BatchNorm1d.running_var bn0_eval) [c]
               + BatchNorm1d.eps bn0_eval)
       * item (BatchNorm1d.weight bn0_eval) [c]
       + item (BatchNorm1d.bias bn0_eval) [c])%R.
Proof.
  apply (BatchNorm1d_eval_forward bn0_eval x1 1);
    [reflexivity | reflexivity | repeat split; reflexivity].
Defined.

Lemma BatchNorm1d_keeps_shapes self x :
  well_shaped self -> well_shaped (BatchNorm1d.forward x self).2.
Proof.
  intros Hws.
  destruct (BatchNorm1d.forward x self) as [[y|e] self'] eqn:E; cbn [snd].
  2:{ now rewrite (BatchNorm1d_raise _ _ _ _ Hws E). }
  destruct (BatchNorm1d.training self) eqn:Ht.
  - destruct (shape_decide x (BatchNorm1d.dim self)) as [[batch Hx]|Hne].
    + destruct Hws as (Hw & Hb & Hrm & Hrv).
      destruct (forward_training self x batch Ht Hx Hw Hb Hrm Hrv)
        as (y' & rm & rv & E' & _ & Srm & Srv & _).
      rewrite E' in E. injection E as _ <-. repeat split; assumption.
    + destruct (forward_bad_shape self x Ht Hne) as (e & E').
      rewrite E' in E. discriminate.
  - unfold BatchNorm1d.forward, mbind, stateful_bind, lift, get in E.
    destruct (index (shape x) 0); [|discriminate].
    rewrite Ht in E. injection E as _ <-. exact Hws.
Qed.

Lemma BatchNorm2d_keeps_shapes self x :
  well_shaped self -> well_shaped (BatchNorm2d.forward x self).2.
Proof.
  intros Hws. unfold BatchNorm2d.forward.
  unfold mbind at 1, stateful_bind at 1, lift at 1.
  destruct (transpose x 1 2 ≫= _) as [_x|]; [|exact Hws].
  unfold mbind at 1, stateful_bind at 1.
  pose proof (BatchNorm1d_keeps_shapes self _x Hws) as E.
  destruct (BatchNorm1d.forward _x self) as [[y|e] self']; cbn [snd] in E;
    [|exact E].
  unfold lift. exact E.
Qed.

(** X2: the shapes [__init__] gives weight, bias, running_mean and
    running_var, all (dim,), are an invariant of forward: whatever the input
    and the mode, and whether the call returns or raises, BatchNorm1d and
    BatchNorm2d leave the four tensors with these shapes. *)
Theorem BatchNorm_forward_keeps_shapes self x :
  well_shaped self ->
  well_shaped (BatchNorm1d.forward x self).2 /\
  well_shaped (BatchNorm2d.forward x self).2.
Proof.
  intros Hws. split;
    [now apply BatchNorm1d_keeps_shapes | now apply BatchNorm2d_keeps_shapes].
Qed.

Lemma BatchNorm_forward_keeps_shapes_witness :
  well_shaped (BatchNorm1d.forward x1 bn0).2 /\
  well_shaped (BatchNorm2d.forward x1 bn0).2.
Proof.
  apply (BatchNorm_forward_keeps_shapes bn0 x1). repeat split; reflexivity.
Defined.

(** X3: in training mode with a positive [eps], on a non-empty batch of
    shape (batch, dim), the output of BatchNorm1d has, for every feature c,
    batch mean [bias[c]] and batch variance
    [weight[c]^2 * var / (var + eps)], var being the batch variance of the
    input. *)
Theorem BatchNorm1d_training_output_statistics self x batch :
  BatchNorm1d.training self = true ->
  shape x = [batch; BatchNorm1d.dim self] ->
  well_shaped self ->
  0 < batch ->
  (0 < BatchNorm1d.eps self)%R ->
  exists y self',
    BatchNorm1d.forward x self = (Ok y, self') /\
    forall c, c < BatchNorm1d.dim self ->
      batch_mean y batch c = item (BatchNorm1d.bias self) [c] /\
      batch_var y batch c =
        (item (BatchNorm1d.weight self) [c] * item (BatchNorm1d.weight self) [c]
         * (batch_var x batch c / (batch_var x batch c + BatchNorm1d.eps self)))%R.
Proof.
  intros Ht Hx (Hw & Hb & Hrm & Hrv) Hbatch Heps.
  destruct (forward_training self x batch Ht Hx Hw Hb Hrm Hrv)
    as (y & rm & rv & E & _ & _ & _ & Iy & _).
  eexists y, _. split; [exact E|]. intros c Hc.
  assert (HB : (0 < INR batch)%R) by (apply lt_0_INR; lia).
  assert (Hvar : (0 <= batch_var x batch c)%R).
  { unfold batch_var. apply Rmult_le_pos; [|left; now apply Rinv_0_lt_compat].
    apply Rsum_nonneg. intros n _. apply Rle_0_sqr. }
  set (mu := batch_mean x batch c) in *.
  set (va := batch_var x batch c) in *.
  set (w := item (BatchNorm1d.weight self) [c]).
  set (b := item (BatchNorm1d.bias self) [c]).
  set (s := sqrt (va + BatchNorm1d.eps self)).
  assert (Hs : (0 < s)%R) by (apply sqrt_lt_R0; lra).
  assert (Hss : (s * s = va + BatchNorm1d.eps self)%R) by (apply sqrt_sqrt; lra).
  assert (Hmean : batch_mean y batch c = b).
  { unfold batch_mean.
    rewrite (Rsum_ext _ _ (fun n => (w / s * item x [n; c] + (b - mu / s * w))%R)).
    2:{ intros n _. rewrite Iy by assumption. fold mu va w b s. field. lra. }
    rewrite Rsum_plus, Rsum_scale, Rsum_const.
    assert (Hmu : Rsum batch (fun n => item x [n; c]) = (INR batch * mu)%R).
    { unfold mu, batch_mean. field. lra. }
    rewrite Hmu. field. lra. }
  split; [exact Hmean|].
  unfold batch_var at 1. rewrite Hmean.
  rewrite (Rsum_ext _ _
             (fun n => (w * w / (s * s) *
                        ((item x [n; c] - mu) * (item x [n; c] - mu)))%R)).
  2:{ intros n _. rewrite Iy by assumption. fold mu va w b s. field. lra. }
  rewrite Rsum_scale, Hss.
  assert (Hva : Rsum batch (fun n => ((item x [n; c] - mu) * (item x [n; c] - mu))%R)
                = (INR batch * va)%R).
  { unfold va, batch_var. fold mu. field. lra. }
  rewrite Hva. field. lra.
Qed.

Lemma BatchNorm1d_training_output_statistics_witness :
  exists y self',
    BatchNorm1d.forward x1 bn0 = (Ok y, self') /\
    forall c, c < BatchNorm1d.dim bn0 ->
      batch_mean y 1 c = item (BatchNorm1d.bias bn0) [c] /\
      batch_var y 1 c =
        (item (BatchNorm1d.weight bn0) [c] * item (BatchNorm1d.weight bn0) [c]
         * (batch_var x1 1 c / (batch_var x1 1 c + BatchNorm1d.eps bn0)))%R.
Proof.
  apply (BatchNorm1d_training_output_statistics bn0 x1 1);
    [reflexivity | reflexivity | repeat split; reflexivity | lia | cbn; lra].
Defined.

(** X4: in evaluation mode, on an image batch of shape (N, dim, H, W),
    BatchNorm2d normalises every pixel of channel c with the running
    statistics, weight and bias of that channel, returns the result in the
    same channel-first layout, and leaves the module as it was. *)
Theorem BatchNorm2d_eval_forward self x N H W :
  BatchNorm1d.training self = false ->
  shape x = [N; BatchNorm1d.dim self; H; W] ->
  well_shaped self ->
  exists y,
    BatchNorm2d.forward x self = (Ok y, self) /\
    shape y = [N; BatchNorm1d.dim self; H; W] /\
    forall n c h w, n < N -> c < BatchNorm1d.dim self -> h < H -> w < W ->
      item y [n; c; h; w] =
      ((item x [n; c; h; w] - item (BatchNorm1d.running_mean self) [c])
       / sqrt (item (BatchNorm1d.running_var self) [c] + BatchNorm1d.eps self)
       * item (BatchNorm1d.weight self) [c] + item (BatchNorm1d.bias self) [c])%R.
Proof.
  intros Ht Hx Hws. set (C := BatchNorm1d.dim self) in *.
  unfold BatchNorm2d.forward.
  unfold mbind at 1, stateful_bind at 1, lift at 1.
  rewrite (transpose_ok x 1 2) by (rewrite Hx; cbn; lia). rewrite bind_Ok.
  rewrite transpose_ok by (cbn [shape]; rewrite Hx; cbn; lia). rewrite bind_Ok.
  rewrite Hx. cbn [index lookup list_lookup]. rewrite !bind_Ok.
  rewrite reshape_ok.
  2:{ cbn [shape swap lookup list_lookup insert list_insert].
      unfold numel. cbn [foldr]. ring. }
  set (_x := mkTensor [N * H * W; C] _).
  destruct (forward_inference self _x (N * H * W) Ht eq_refl Hws)
    as (y0 & E0 & S0 & I0).
  fold C in S0, I0.
  unfold mbind at 1, stateful_bind at 1. rewrite E0. unfold lift.
  rewrite !bind_Ok.
  rewrite reshape_ok by (rewrite S0; unfold numel; cbn [foldr]; ring).
  rewrite bind_Ok.
  rewrite transpose_ok by (cbn; lia). rewrite bind_Ok.
  rewrite transpose_ok by (cbn; lia).
  eexists; split; [reflexivity|]. split; [reflexivity|].
  intros n c h w Hn Hc Hh Hw.
  destruct (flat_index N H W C n h w c Hn Hh Hw Hc) as [F1 F2].
  cbn [item shape swap lookup list_lookup insert list_insert].
  rewrite S0, F1, I0 by assumption.
  do 4 f_equal. unfold _x. cbn [item shape swap lookup list_lookup insert list_insert].
  rewrite F2. reflexivity.
Qed.

Lemma BatchNorm2d_eval_forward_witness :
  exists y,
    BatchNorm2d.forward image0 bn0_eval = (Ok y, bn0_eval) /\
    shape y = [1; BatchNorm1d.dim bn0_eval; 1; 1] /\
    forall n c h w, n < 1 -> c < BatchNorm1d.dim bn0_eval -> h < 1 -> w < 1 ->
      item y [n; c; h; w] =
      ((item image0 [n; c; h; w] - item (BatchNorm1d.running_mean bn0_eval) [c])
       / sqrt (item (BatchNorm1d.running_var bn0_eval) [c]
               + BatchNorm1d.eps bn0_eval)
       * item (BatchNorm1d.weight bn0_eval) [c]
       + item (BatchNorm1d.bias bn0_eval) [c])%R.
Proof.
  apply (BatchNorm2d_eval_forward bn0_eval image0 1 1 1);
    [reflexivity | reflexivity | repeat split; reflexivity].
Defined.

(** *** LayerNorm1d *)

Lemma LayerNorm1d_rows self x n :
  shape x = [n; LayerNorm1d.dim self] ->
  shape (LayerNorm1d.weight self) = [LayerNorm1d.dim self] ->
  shape (LayerNorm1d.bias self) = [LayerNorm1d.dim self] ->
  exists y, LayerNorm1d.forward self x = Ok y /\
    shape y = [n; LayerNorm1d.dim self] /\
    forall i c, i < n -> c < LayerNorm1d.dim self ->
      item y [i; c] =
      ((item x [i; c] - row_mean x (LayerNorm1d.dim self) i)
       / sqrt (row_var x (LayerNorm1d.dim self) i + LayerNorm1d.eps self)
       * item (LayerNorm1d.weight self) [c] + item (LayerNorm1d.bias self) [c])%R.
Proof.
  intros Hx Hw Hb. unfold LayerNorm1d.forward. rewrite Hx.
  set (dim := LayerNorm1d.dim self) in *.
  rewrite (index_from_end_ok [n; dim] 1 dim) by (cbn; first [lia|reflexivity]).
  rewrite bind_Ok, Nat.eqb_refl. cbn [negb].
  rewrite !assign_from_end_ok by (cbn; lia).
  rewrite !bind_Ok. cbn [length replicate Nat.sub].
  change (<[1:=1]> [n; dim]) with [n; 1].
  change (<[1:=dim]> [1; 1]) with [1; dim].
  destruct (row_sum x n dim Hx) as (s & Es & Ss & Is).
  destruct (column_broadcast s n dim Ss) as (s1 & s2 & Es1 & Es2 & Ss2 & Is2).
  rewrite Es, bind_Ok, Es1, bind_Ok, Es2, !bind_Ok.
  set (avg := div_scalar s2 (INR dim)).
  assert (Savg : shape avg = [n; dim]) by exact Ss2.
  unfold sub. rewrite (ewise_ok _ x avg) by congruence. rewrite bind_Ok.
  set (cen := mkTensor (shape x) _).
  assert (Scen : shape (square cen) = [n; dim]) by exact Hx.
  destruct (row_sum (square cen) n dim Scen) as (v & Ev & Sv & Iv).
  destruct (column_broadcast v n dim Sv) as (v1 & v2 & Ev1 & Ev2 & Sv2 & Iv2).
  rewrite Ev, bind_Ok, Ev1, bind_Ok, Ev2, !bind_Ok.
  unfold div. rewrite ewise_ok by (cbn; congruence). rewrite bind_Ok.
  destruct (row_broadcast _ _ n Hw) as (w1 & w2 & Ew1 & Ew2 & Sw2 & Iw2).
  destruct (row_broadcast _ _ n Hb) as (b1 & b2 & Eb1 & Eb2 & Sb2 & Ib2).
  fold dim in Ew1, Eb1, Ew2, Eb2, Iw2, Ib2.
  rewrite Ew1, bind_Ok, Ew2, bind_Ok.
  unfold mul. rewrite ewise_ok by (cbn; congruence). rewrite bind_Ok.
  rewrite Eb1, bind_Ok, Eb2, bind_Ok.
  unfold add. rewrite ewise_ok by (cbn; congruence).
  eexists; split; [reflexivity|]. split; [exact Hx|].
  intros i c Hi Hc.
  assert (Iavg : forall k, item avg [i; k] = row_mean x dim i).
  { intros k. unfold avg, row_mean. cbn [item div_scalar map_tensor].
    now rewrite Is2, Is. }
  cbn [item shape pow_half add_scalar div_scalar map_tensor cen].
  rewrite Iw2, Ib2, Iv2, Iv, Iavg by assumption.
  assert (Hv : Rsum dim (fun k => item (square cen) [i; k]) =
               Rsum dim (fun k => ((item x [i; k] - row_mean x dim i) *
                                   (item x [i; k] - row_mean x dim i))%R)).
  { apply Rsum_ext. intros k _.
    cbn [item square map_tensor cen]. now rewrite Iavg. }
  rewrite Hv. reflexivity.
Qed.

(** X5: on a matrix of shape (n, dim), LayerNorm1d returns, row by row,
    [(x - mean) / sqrt (var + eps) * weight + bias] with the mean and the
    (population) variance of that row. *)
Theorem LayerNorm1d_forward_rows self x n :
  shape x = [n; LayerNorm1d.dim self] ->
  shape (LayerNorm1d.weight self) = [LayerNorm1d.dim self] ->
  shape (LayerNorm1d.bias self) = [LayerNorm1d.dim self] ->
  exists y, LayerNorm1d.forward self x = Ok y /\
    shape y = [n; LayerNorm1d.dim self] /\
    forall i c, i < n -> c < LayerNorm1d.dim self ->
      item y [i; c] =
      ((item x [i; c] - row_mean x (LayerNorm1d.dim self) i)
       / sqrt (row_var x (LayerNorm1d.dim self) i + LayerNorm1d.eps self)
       * item (LayerNorm1d.weight self) [c] + item (LayerNorm1d.bias self) [c])%R.
Proof. apply LayerNorm1d_rows. Qed.

Lemma LayerNorm1d_forward_rows_witness :
  exists y, LayerNorm1d.forward ln0 x12 = Ok y /\
    shape y = [1; LayerNorm1d.dim ln0] /\
    forall i c, i < 1 -> c < LayerNorm1d.dim ln0 ->
      item y [i; c] =
      ((item x12 [i; c] - row_mean x12 (LayerNorm1d.dim ln0) i)
       / sqrt (row_var x12 (LayerNorm1d.dim ln0) i + LayerNorm1d.eps ln0)
       * item (LayerNorm1d.weight ln0) [c] + item (LayerNorm1d.bias ln0) [c])%R.
Proof. apply (LayerNorm1d_forward_rows ln0 x12 1); reflexivity. Defined.

(** X6: LayerNorm1d rejects every input whose last dimension is not [dim]:
    with AssertionError when there is a last dimension, with IndexError on a
    tensor of rank 0, which has none. *)
Theorem LayerNorm1d_forward_rejects self x :
  last (shape x) <> Some (LayerNorm1d.dim self) ->
  LayerNorm1d.forward self x =
  Raise (match shape x with [] => IndexError | _ => AssertionError end).
Proof.
  intros Hl. unfold LayerNorm1d.forward.
  destruct (shape x) as [|d0 s0] eqn:E; [reflexivity|].
  destruct (exists_last (l := d0 :: s0)) as (s & d & Es); [discriminate|].
  rewrite Es in Hl |- *. rewrite last_snoc in Hl.
  rewrite (index_from_end_ok (s ++ [d]) 1 d).
  - rewrite bind_Ok.
    destruct (Nat.eqb_spec d (LayerNorm1d.dim self)); [congruence|reflexivity].
  - rewrite length_app. cbn. lia.
  - rewrite length_app. cbn [length].
    replace (length s + 1 - 1) with (length s + 0) by lia.
    now rewrite lookup_app_r, Nat.add_0_r, Nat.sub_diag by lia.
Qed.

Lemma LayerNorm1d_forward_rejects_witness :
  LayerNorm1d.forward ln0 x1 =
  Raise (match shape x1 with [] => IndexError | _ => AssertionError end).
Proof. apply (LayerNorm1d_forward_rejects ln0 x1). discriminate. Defined.

(** X7: a freshly constructed LayerNorm1d (weight 1, bias 0) with a
    positive [eps] standardises the rows of a matrix of shape (n, dim),
    dim > 0: every row of the output has mean 0 and variance
    [var / (var + eps)], var being the variance of that row of the input. *)
Theorem LayerNorm1d_standardises dim eps x n :
  0 < dim -> (0 < eps)%R -> shape x = [n; dim] ->
  exists y, LayerNorm1d.forward (LayerNorm1d.__init__ dim eps) x = Ok y /\
    forall i, i < n ->
      row_mean y dim i = 0%R /\
      row_var y dim i = (row_var x dim i / (row_var x dim i + eps))%R.
Proof.
  intros Hdim Heps Hx.
  destruct (LayerNorm1d_rows (LayerNorm1d.__init__ dim eps) x n Hx eq_refl eq_refl)
    as (y & E & _ & Iy).
  exists y. split; [exact E|]. intros i Hi.
  cbn [LayerNorm1d.__init__ LayerNorm1d.dim LayerNorm1d.eps LayerNorm1d.weight
       LayerNorm1d.bias] in Iy.
  assert (HD : (0 < INR dim)%R) by (apply lt_0_INR; lia).
  assert (Hvar : (0 <= row_var x dim i)%R).
  { unfold row_var. apply Rmult_le_pos; [|left; now apply Rinv_0_lt_compat].
    apply Rsum_nonneg. intros k _. apply Rle_0_sqr. }
  set (mu := row_mean x dim i) in *.
  set (va := row_var x dim i) in *.
  set (s := sqrt (va + eps)).
  assert (Hs : (0 < s)%R) by (apply sqrt_lt_R0; lra).
  assert (Hss : (s * s = va + eps)%R) by (apply sqrt_sqrt; lra).
  assert (Hy : forall c, c < dim -> item y [i; c] = (/ s * (item x [i; c] - mu))%R).
  { intros c Hc. rewrite (Iy i c Hi Hc). fold mu va s.
    cbn [item ones zeros full]. field. lra. }
  assert (Hmean : row_mean y dim i = 0%R).
  { unfold row_mean.
    rewrite (Rsum_ext _ _ (fun c => (/ s * item x [i; c] + - (/ s * mu))%R)).
    2:{ intros c Hc. rewrite (Hy c Hc). ring. }
    rewrite Rsum_plus, Rsum_scale, Rsum_const.
    assert (Hmu : Rsum dim (fun c => item x [i; c]) = (INR dim * mu)%R).
    { unfold mu, row_mean. field. lra. }
    rewrite Hmu. field. lra. }
  split; [exact Hmean|].
  unfold row_var at 1. rewrite Hmean.
  rewrite (Rsum_ext _ _
             (fun c => (/ (s * s) *
                        ((item x [i; c] - mu) * (item x [i; c] - mu)))%R)).
  2:{ intros c Hc. rewrite (Hy c Hc). field. lra. }
  rewrite Rsum_scale, Hss.
  assert (Hva : Rsum dim (fun c => ((item x [i; c] - mu) * (item x [i; c] - mu))%R)
                = (INR dim * va)%R).
  { unfold va, row_var. fold mu. field. lra. }
  rewrite Hva. field. lra.
Qed.

Lemma LayerNorm1d_standardises_witness :
  exists y, LayerNorm1d.forward (LayerNorm1d.__init__ 2 (1 / 100000)) x12 = Ok y /\
    forall i, i < 1 ->
      row_mean y 2 i = 0%R /\
      row_var y 2 i = (row_var x12 2 i / (row_var x12 2 i + 1 / 100000))%R.
Proof.
  apply (LayerNorm1d_standardises 2 (1 / 100000) x12 1); [lia | lra | reflexivity].
Defined.

(** *** Linear *)

(** X8: on an input of shape (m, k), a Linear layer with a weight of shape
    (k, n) and, when it has one, a bias of shape (1, n) returns the matrix of
    shape (m, n) whose entry (i, j) is the sum over c of
    [X[i,c] * weight[c,j]], plus [bias[0,j]] when there is a bias. *)
Theorem Linear_forward_entries self X m k n :
  shape X = [m; k] ->
  shape (Linear.weight self) = [k; n] ->
  match Linear.bias self with Some b => shape b = [1; n] | None => True end ->
  exists y, Linear.forward self X = Ok y /\ shape y = [m; n] /\
    forall i j, j < n ->
      item y [i; j] =
      (Rsum k (fun c => item X [i; c] * item (Linear.weight self) [c; j])
       + match Linear.bias self with
         | Some b => item b [0%nat; j]
         | None => 0
         end)%R.
Proof.
  intros HX HW Hb. unfold Linear.forward, matmul2. rewrite HX, HW.
  rewrite decide_True by reflexivity. rewrite bind_Ok. cbn [shape].
  destruct (Linear.bias self) as [b|].
  - rewrite broadcast_to_ok by (rewrite Hb; solve_broadcastable).
    rewrite bind_Ok. unfold add. rewrite ewise_ok by reflexivity.
    eexists; split; [reflexivity|]. split; [reflexivity|].
    intros i j Hj. cbn [item shape]. rewrite Hb, !bidx_cons.
    cbn [Nat.eqb bidx]. now rewrite bidx_keep by assumption.
  - eexists; split; [reflexivity|]. split; [reflexivity|].
    intros i j Hj. cbn [item]. lra.
Qed.

Lemma Linear_forward_entries_witness :
  exists y, Linear.forward lin0 x12 = Ok y /\ shape y = [1; 1] /\
    forall i j, j < 1 ->
      item y [i; j] =
      (Rsum 2 (fun c => item x12 [i; c] * item (Linear.weight lin0) [c; j])
       + match Linear.bias lin0 with
         | Some b => item b [0%nat; j]
         | None => 0
         end)%R.
Proof.
  apply (Linear_forward_entries lin0 x12 1 2 1);
    [reflexivity | reflexivity | exact I].
Defined.

(** X9: a Linear layer raises the engine's shape error when the number of
    columns of the input is not the number of rows of the weight; nothing is
    broadcast. *)
Theorem Linear_forward_mismatch self X m k k' n :
  shape X = [m; k] -> shape (Linear.weight self) = [k'; n] -> k <> k' ->
  Linear.forward self X = Raise ShapeError.
Proof.
  intros HX HW Hk. unfold Linear.forward, matmul2. rewrite HX, HW.
  now rewrite decide_False by assumption.
Qed.

Lemma Linear_forward_mismatch_witness :
  Linear.forward lin0 x1 = Raise ShapeError.
Proof.
  apply (Linear_forward_mismatch lin0 x1 1 1 2 1); [reflexivity | reflexivity | lia].
Defined.

(** X10: with a generator that returns tensors of the shape it is asked
    for, [Linear(in_features, out_features, bias)] with positive sizes is
    constructed with a weight of shape (in_features, out_features), and its
    forward maps every input of shape (m, in_features) to a tensor of shape
    (m, out_features), with or without bias. *)
Theorem Linear_init_forward rand in_features out_features bias :
  (forall s low high, shape (rand s low high) = s) ->
  0 < in_features -> 0 < out_features ->
  exists self, Linear.__init__ rand in_features out_features bias = Ok self /\
    shape (Linear.weight self) = [in_features; out_features] /\
    (forall X m, shape X = [m; in_features] ->
       exists y, Linear.forward self X = Ok y /\ shape y = [m; out_features]).
Proof.
  intros Hrand Hin Hout. unfold Linear.__init__.
  rewrite !init_initializers_facts.kaiming_uniform_ok by assumption.
  rewrite bind_Ok.
  set (w := rand [in_features; out_features] _ _).
  assert (Sw : shape w = [in_features; out_features]) by apply Hrand.
  destruct bias.
  - rewrite bind_Ok.
    rewrite reshape_ok by (rewrite Hrand; cbn; lia). rewrite !bind_Ok.
    eexists; split; [reflexivity|]. split; [exact Sw|].
    intros X m HX. unfold Linear.forward, matmul2. cbn [Linear.weight Linear.bias].
    rewrite HX, Sw. rewrite decide_True by reflexivity. rewrite bind_Ok.
    cbn [shape]. rewrite broadcast_to_ok by solve_broadcastable.
    rewrite bind_Ok. unfold add. rewrite ewise_ok by reflexivity.
    eexists; split; reflexivity.
  - rewrite !bind_Ok.
    eexists; split; [reflexivity|]. split; [exact Sw|].
    intros X m HX. unfold Linear.forward, matmul2. cbn [Linear.weight Linear.bias].
    rewrite HX, Sw. rewrite decide_True by reflexivity. rewrite bind_Ok.
    eexists; split; reflexivity.
Qed.

Lemma Linear_init_forward_witness :
  exists self, Linear.__init__ rand0 2 3 true = Ok self /\
    shape (Linear.weight self) = [2; 3] /\
    (forall X m, shape X = [m; 2] ->
       exists y, Linear.forward self X = Ok y /\ shape y = [m; 3]).
Proof.
  apply (Linear_init_forward rand0 2 3 true); [reflexivity | lia | lia].
Defined.

(** X11: [Linear(0, out_features)] cannot be constructed, and neither can
    [Linear(in_features, 0)] with a bias: the initializer divides by its
    fan-in, which is [in_features] for the weight and [out_features] for the
    bias, and the constructor raises ZeroDivisionError. *)
Theorem Linear_init_rejects_zero rand in_features out_features bias :
  in_features = 0 \/ (bias = true /\ out_features = 0) ->
  Linear.__init__ rand in_features out_features bias = Raise ZeroDivisionError.
Proof.
  intros H. destruct (Nat.eq_dec in_features 0) as [->|Hin]; [reflexivity|].
  destruct H as [H|[-> ->]]; [contradiction|].
  unfold Linear.__init__.
  rewrite (init_initializers_facts.kaiming_uniform_ok rand in_features 0 None)
    by lia.
  reflexivity.
Qed.

Lemma Linear_init_rejects_zero_witness :
  Linear.__init__ rand0 2 0 true = Raise ZeroDivisionError.
Proof.
  apply (Linear_init_rejects_zero rand0 2 0 true). right. split; reflexivity.
Defined.

(** *** Flatten *)

(** X12: on a tensor of shape (d0, rest...) with d0 > 0, Flatten returns a
    matrix of shape (d0, product of rest) that holds the entries of every
    sample in row-major order: the entry at (i, idx) of the input is at
    column [ravel rest idx] of row i. *)
Theorem Flatten_forward_entries X d0 rest :
  shape X = d0 :: rest -> 0 < d0 ->
  exists y, Flatten.forward X = Ok y /\
    shape y = [d0; numel rest] /\
    forall i idx, i < d0 -> valid_index rest idx ->
      item y [i; ravel rest idx] = item X (i :: idx).
Proof.
  intros HX Hd. unfold Flatten.forward. rewrite HX.
  cbn [index lookup list_lookup]. rewrite bind_Ok.
  destruct (Nat.eqb_spec d0 0) as [->|_]; [lia|].
  assert (Hq : numel (d0 :: rest) / d0 = numel rest).
  { change (numel (d0 :: rest)) with (d0 * numel rest).
    rewrite Nat.mul_comm. apply Nat.div_mul. lia. }
  rewrite Hq.
  rewrite reshape_ok.
  2:{ rewrite HX. change (numel (d0 :: rest)) with (d0 * numel rest).
      change (numel [d0; numel rest]) with (d0 * (numel rest * 1)). lia. }
  eexists; split; [reflexivity|]. split; [reflexivity|].
  intros i idx Hi Hv. cbn [item]. rewrite HX. f_equal.
  transitivity (unravel (d0 :: rest) (ravel (d0 :: rest) (i :: idx))).
  - f_equal. cbn [ravel]. change (numel [numel rest]) with (numel rest * 1).
    change (numel []) with 1. lia.
  - apply unravel_ravel. constructor; assumption.
Qed.

Lemma Flatten_forward_entries_witness :
  exists y, Flatten.forward x23 = Ok y /\
    shape y = [2; numel [3]] /\
    forall i idx, i < 2 -> valid_index [3] idx ->
      item y [i; ravel [3] idx] = item x23 (i :: idx).
Proof. apply (Flatten_forward_entries x23 2 [3]); [reflexivity | lia]. Defined.

(** X13: Flatten raises IndexError on a tensor of rank 0, which has no
    first dimension, and ZeroDivisionError on an empty batch, whose first
    dimension is 0. *)
Theorem Flatten_forward_rejects X :
  hd 0 (shape X) = 0 ->
  Flatten.forward X =
  Raise (match shape X with [] => IndexError | _ => ZeroDivisionError end).
Proof.
  intros H. unfold Flatten.forward.
  destruct (shape X) as [|d rest]; [reflexivity|].
  cbn in H. subst d. reflexivity.
Qed.

Lemma Flatten_forward_rejects_witness :
  Flatten.forward (ones [0; 3]) =
  Raise (match shape (ones [0; 3]) with
         | [] => IndexError
         | _ => ZeroDivisionError
         end).
Proof. apply (Flatten_forward_rejects (ones [0; 3])). reflexivity. Defined.

(** *** The registry under mode switches *)

Lemma params_flag_irrelevant n st b b' kvs :
  _unpack_params n st (VDict (("training"%string, VBool b) :: kvs)) =
  _unpack_params n st (VDict (("training"%string, VBool b') :: kvs)).
Proof. destruct n as [|[|n]]; reflexivity. Qed.

Lemma _unpack_params_same_attrs n st st' v :
  same_attrs st st' -> _unpack_params n st v = _unpack_params n st' v.
Proof.
  intros Hs. revert v. induction n as [|n IH]; intros v; [reflexivity|].
  destruct v; cbn; try reflexivity.
  - specialize (Hs l). destruct (st !! l) as [o|], (st' !! l) as [o'|];
      try contradiction; [|reflexivity].
    destruct Hs as [_ Ha]. cbn. rewrite IH. unfold __dict__. rewrite Ha.
    now rewrite (params_flag_irrelevant n st' (training o) (training o')).
  - erewrite mapM_ext; [reflexivity|]. intros kv. apply IH.
  - erewrite mapM_ext; [reflexivity|]. intros kv. apply IH.
  - erewrite mapM_ext; [reflexivity|]. intros kv. apply IH.
Qed.

Lemma same_attrs_set_mode b n st self st' :
  set_mode b n st self = Some st' -> same_attrs st st'.
Proof.
  unfold set_mode. intros H.
  destruct (Module._children n _ self) as [ms|]; [|discriminate].
  injection H as <-. intros l. rewrite foldl_set_training_lookup.
  unfold Module.set_training. rewrite lookup_alter.
  destruct (decide (l ∈ ms)), (decide (self = l)) as [->|];
    destruct (st !! l); cbn; auto.
Qed.

Lemma same_attrs_sym st st' : same_attrs st st' -> same_attrs st' st.
Proof.
  intros H l. specialize (H l).
  destruct (st !! l), (st' !! l); try contradiction; [|exact I].
  destruct H; split; congruence.
Qed.

(** X16: [eval()] and [train()] change no registry answer: in the store
    they leave, [parameters()] and [_children()] of every module return what
    they returned before, at every recursion depth. *)
Theorem mode_switch_keeps_registry n st self st' :
  Module.eval n st self = Some st' \/ Module.train n st self = Some st' ->
  forall m l,
    Module.parameters m st' l = Module.parameters m st l /\
    Module._children m st' l = Module._children m st l.
Proof.
  intros H m l.
  assert (Hs : same_attrs st st').
  { destruct H as [H|H]; [apply (same_attrs_set_mode false n st self) |
                          apply (same_attrs_set_mode true n st self)]; exact H. }
  unfold Module.parameters, Module._children.
  pose proof (Hs l) as Hl.
  destruct (st !! l) as [o|], (st' !! l) as [o'|]; try contradiction;
    [|split; reflexivity].
  destruct Hl as [_ Ha]. cbn. unfold __dict__. rewrite Ha.
  rewrite (params_flag_irrelevant m st' (training o') (training o)).
  rewrite (dict_flag_irrelevant m st' (training o') (training o)).
  rewrite <- (_unpack_params_same_attrs m st st' _ Hs).
  rewrite <- (_child_modules_same_attrs m st st' _ Hs).
  split; reflexivity.
Qed.

Lemma mode_switch_keeps_registry_witness :
  Module.parameters 9 st0_eval 0 = Module.parameters 9 st0 0 /\
  Module._children 9 st0_eval 0 = Module._children 9 st0 0.
Proof.
  apply (mode_switch_keeps_registry 9 st0 0 st0_eval).
  left. vm_compute. reflexivity.
Defined.

Lemma acyclic_same_attrs st st' : same_attrs st st' -> acyclic st -> acyclic st'.
Proof.
  intros Hs (rank & Hrank). exists rank. intros l o' l' Ho' Hl'.
  pose proof (Hs l) as Hl. rewrite Ho' in Hl.
  destruct (st !! l) as [o|] eqn:Ho; [|contradiction]. destruct Hl as [_ Ha].
  rewrite <- Ha in Hl'. destruct (Hrank l o l' Ho Hl') as [[ol Hol] Hlt].
  split; [|exact Hlt].
  pose proof (Hs l') as Hl2. rewrite Hol in Hl2.
  destruct (st' !! l'); [eauto|contradiction].
Qed.

Lemma reachable_same_attrs st st' v l :
  same_attrs st st' -> reachable st v l -> reachable st' v l.
Proof.
  intros Hs H. induction H as [l|l o l' Ho _ IH|kvs k v l Hin _ IH
                               |vs v l Hin _ IH|vs v l Hin _ IH].
  - constructor.
  - pose proof (Hs l) as Hl. rewrite Ho in Hl.
    destruct (st' !! l) as [o'|] eqn:Ho'; [|contradiction]. destruct Hl as [_ Ha].
    apply (reach_attr _ _ o'); [exact Ho'|].
    inversion IH as [| |? k v ? Hkv Hv| |]; subst.
    unfold __dict__ in Hkv. apply elem_of_cons in Hkv as [Heq|Hkv].
    + injection Heq as -> ->. inversion Hv.
    + apply (reach_dict _ _ k v); [|exact Hv].
      unfold __dict__. rewrite <- Ha. now apply list_elem_of_further.
  - now apply (reach_dict _ _ k v).
  - now apply (reach_list _ _ v).
  - now apply (reach_tuple _ _ v).
Qed.

(** One switch after another: the second decides. *)
Lemma set_mode_twice b b' st self o :
  acyclic st -> st !! self = Some o ->
  exists fuel st1 st2, forall n, fuel <= n ->
    set_mode b n st self = Some st1 /\
    set_mode b' n st self = Some st2 /\
    set_mode b' n st1 self = Some st2.
Proof.
  intros Hac Ho.
  destruct (set_mode_spec b st self o Hac Ho) as (f1 & st1 & E1 & R1 & U1).
  destruct (set_mode_spec b' st self o Hac Ho) as (f2 & st2 & E2 & R2 & U2).
  assert (Hs1 : same_attrs st st1)
    by exact (same_attrs_set_mode b f1 st self st1 (E1 f1 (Nat.le_refl _))).
  assert (Ho1 : exists o1, st1 !! self = Some o1).
  { destruct (R1 self (reach_module _ _)) as (ol & _ & E). eauto. }
  destruct Ho1 as (o1 & Ho1).
  destruct (set_mode_spec b' st1 self o1 (acyclic_same_attrs _ _ Hs1 Hac) Ho1)
    as (f3 & st3 & E3 & R3 & U3).
  assert (Heq : st3 = st2).
  { apply map_eq. intros l.
    destruct (classic (reachable st (VModule self) l)) as [Hr|Hn].
    - destruct (R3 l (reachable_same_attrs _ _ _ _ Hs1 Hr)) as (ol1 & Hol1 & ->).
      destruct (R2 l Hr) as (ol & Hol & ->).
      destruct (R1 l Hr) as (ol' & Hol' & Hl1).
      assert (ol' = ol) by congruence. subst ol'.
      rewrite Hl1 in Hol1. injection Hol1 as <-. reflexivity.
    - rewrite U3, U1, U2; auto.
      intros Hr. apply Hn.
      exact (reachable_same_attrs _ _ _ _ (same_attrs_sym _ _ Hs1) Hr). }
  subst st3. exists (Nat.max (Nat.max f1 f2) f3), st1, st2.
  intros n Hn. repeat split; [apply E1|apply E2|apply E3]; lia.
Qed.

(** X17: on an acyclic module graph the last mode switch decides:
    [train()] after [eval()] leaves the store [train()] alone leaves,
    [eval()] after [train()] the store [eval()] alone leaves, and each of
    the two is idempotent. *)
Theorem mode_switches_compose st self o :
  acyclic st -> st !! self = Some o ->
  exists fuel st_eval st_train, forall n, fuel <= n ->
    Module.eval n st self = Some st_eval /\
    Module.train n st self = Some st_train /\
    Module.train n st_eval self = Some st_train /\
    Module.eval n st_train self = Some st_eval /\
    Module.eval n st_eval self = Some st_eval /\
    Module.train n st_train self = Some st_train.
Proof.
  intros Hac Ho.
  destruct (set_mode_twice false true st self o Hac Ho) as (f1 & se & stt & H1).
  destruct (set_mode_twice true false st self o Hac Ho) as (f2 & stt' & se' & H2).
  destruct (set_mode_twice false false st self o Hac Ho) as (f3 & se3 & se3' & H3).
  destruct (set_mode_twice true true st self o Hac Ho) as (f4 & st4 & st4' & H4).
  set (f := Nat.max (Nat.max f1 f2) (Nat.max f3 f4)).
  destruct (H1 f ltac:(lia)) as (A1 & B1 & _).
  destruct (H2 f ltac:(lia)) as (A2 & B2 & _).
  destruct (H3 f ltac:(lia)) as (A3 & B3 & _).
  destruct (H4 f ltac:(lia)) as (A4 & B4 & _).
  assert (stt' = stt) by congruence. assert (se' = se) by congruence.
  assert (se3 = se) by congruence. assert (se3' = se) by congruence.
  assert (st4 = stt) by congruence. assert (st4' = stt) by congruence.
  subst. clear A1 B1 A2 B2 A3 B3 A4 B4.
  exists f, se, stt. intros n Hn.
  destruct (H1 n ltac:(lia)) as (A1 & B1 & C1).
  destruct (H2 n ltac:(lia)) as (_ & _ & C2).
  destruct (H3 n ltac:(lia)) as (_ & _ & C3).
  destruct (H4 n ltac:(lia)) as (_ & _ & C4).
  repeat split; assumption.
Qed.

Lemma mode_switches_compose_witness :
  exists fuel st_eval st_train, forall n, fuel <= n ->
    Module.eval n st0 0 = Some st_eval /\
    Module.train n st0 0 = Some st_train /\
    Module.train n st_eval 0 = Some st_train /\
    Module.eval n st_train 0 = Some st_eval /\
    Module.eval n st_eval 0 = Some st_eval /\
    Module.train n st_train 0 = Some st_train.
Proof.
  apply (mode_switches_compose st0 0 root0); [exact st0_acyclic | reflexivity].
Defined.

End nn_basic_facts.

(** ** The convolution layer *)

Module nn_conv_facts.
Import Engine Engine_facts nn_basic nn_conv Examples.


(** What a successful construction leaves in the object. *)
Lemma Conv_init_inv rand in_channels out_channels kernel_size stride bias self :
  Conv.__init__ rand in_channels out_channels kernel_size stride bias = Ok self ->
  exists k st low high,
    first_if_tuple kernel_size = Ok k /\ first_if_tuple stride = Ok st /\
    0 < in_channels * k ^ 2 /\
    Conv.out_channels self = out_channels /\
    Conv.kernel_size self = k /\ Conv.padding self = (k - 1) / 2 /\
    Conv.weight self =
      rand [k; k; in_channels; out_channels]
        (- sqrt (6 / INR (in_channels * k ^ 2)))%R
        (sqrt (6 / INR (in_channels * k ^ 2))) /\
    Conv.bias self =
      (if bias then Some (rand [out_channels] low high) else None).
Proof.
  unfold Conv.__init__. intros H.
  destruct (first_if_tuple kernel_size) as [k|]; [|discriminate].
  destruct (first_if_tuple stride) as [st|]; [|discriminate].
  rewrite !bind_Ok in H.
  destruct (Nat.eq_dec (in_channels * k ^ 2) 0) as [E0|Hpos].
  { rewrite E0 in H. unfold init_initializers.kaiming_uniform in H.
    rewrite bool_decide_eq_true_2 in H by reflexivity. cbn [negb] in H.
    destruct k; discriminate. }
  rewrite init_initializers_facts.kaiming_uniform_ok in H by lia.
  rewrite bind_Ok in H.
  assert (Hk : exists k', k = S k').
  { destruct k as [|k']; [|eauto]. rewrite Nat.pow_0_l in Hpos; lia. }
  destruct Hk as (k' & ->).
  destruct (Nat.eqb_spec (in_channels * S k' ^ 2) 0); [contradiction|].
  exists (S k'), st, (- (1 / sqrt (INR (in_channels * S k' ^ 2))))%R,
         (1 / sqrt (INR (in_channels * S k' ^ 2)))%R.
  destruct bias; rewrite !bind_Ok in H; injection H as <-;
    repeat split; try reflexivity; lia.
Qed.



(** The test is on the truth value, not on presence: were a bias tensor
    false, forward would return the convolution output without it. *)
Lemma Conv_forward_false_bias conv tensor_bool self x b :
  Conv.bias self = Some b -> tensor_bool b = false ->
  Conv.forward conv tensor_bool self x =
  (nhwc_x ← (x1 ← transpose x 1 2; transpose x1 2 3);
   nhwc_output ← conv nhwc_x (Conv.weight self) (Conv.stride self) (Conv.padding self);
   y ← transpose nhwc_output 2 3;
   transpose y 1 2).
Proof.
  intros Hb Hf. unfold Conv.forward. rewrite Hb, Hf.
  destruct (transpose x 1 2 ≫= _) as [nhwc_x|]; [|reflexivity].
  cbn [mbind result_bind rbind].
  destruct (conv _ _ _ _); reflexivity.
Qed.

Import nn_basic_facts Reference.

(** X24: a Conv built without a bias returns the engine's convolution of
    the channel-last input, moved back to channel-first layout: entry
    (n, c, h, w) of the result is entry (n, h, w, c) of the convolution. *)
Theorem Conv_forward_without_bias conv tensor_bool self x x' out N C0 H0 W0 H W C :
  Conv.bias self = None ->
  shape x = [N; C0; H0; W0] ->
  (x1 ← transpose x 1 2; transpose x1 2 3) = Ok x' ->
  conv x' (Conv.weight self) (Conv.stride self) (Conv.padding self) = Ok out ->
  shape out = [N; H; W; C] ->
  exists y, Conv.forward conv tensor_bool self x = Ok y /\
    shape y = [N; C; H; W] /\
    forall n c h w, item y [n; c; h; w] = item out [n; h; w; c].
Proof.
  intros Hb Sx Ex' Ec So. unfold Conv.forward.
  rewrite Ex', bind_Ok, Ec, bind_Ok, Hb, bind_Ok.
  rewrite transpose_ok by (rewrite So; cbn; lia). rewrite bind_Ok.
  rewrite transpose_ok by (cbn; rewrite So; cbn; lia).
  eexists; split; [reflexivity|]. cbn [shape item]. rewrite So.
  split; reflexivity.
Qed.

Lemma Conv_forward_without_bias_witness :
  exists y, Conv.forward conv_id truthy conv0_nobias image0 = Ok y /\
    shape y = [1; 1; 1; 1] /\
    forall n c h w, item y [n; c; h; w] = item image0_nhwc [n; h; w; c].
Proof.
  apply (Conv_forward_without_bias conv_id truthy conv0_nobias image0
           image0_nhwc image0_nhwc 1 1 1 1 1 1 1); reflexivity.
Defined.

(** The padding a constructed Conv stores is (kernel_size - 1) // 2: for a
    kernel of odd size it is the padding on each side that makes
    2 * padding + 1 the kernel size, for a kernel of even size it falls one
    short, 2 * padding + 2 being the kernel size. *)
Lemma Conv_init_padding rand in_channels out_channels kernel_size stride bias self :
  Conv.__init__ rand in_channels out_channels kernel_size stride bias = Ok self ->
  0 < Conv.kernel_size self /\
  2 * Conv.padding self + (if Nat.odd (Conv.kernel_size self) then 1 else 2)
  = Conv.kernel_size self.
Proof.
  intros Hinit.
  destruct (Conv_init_inv _ _ _ _ _ _ _ Hinit)
    as (k & st & low & high & _ & _ & Hpos & _ & -> & -> & _).
  assert (Hk : 0 < k).
  { destruct k; [rewrite Nat.pow_0_l in Hpos; lia | lia]. }
  split; [exact Hk|].
  destruct (Nat.odd k) eqn:Ho.
  - apply Nat.odd_spec in Ho as [j ->].
    replace (2 * j + 1 - 1) with (j * 2) by lia. rewrite Nat.div_mul by lia. lia.
  - assert (He : Nat.even k = true)
      by (rewrite <- Nat.negb_odd, Ho; reflexivity).
    apply Nat.even_spec in He as [j ->].
    destruct j as [|j]; [lia|].
    replace (2 * S j - 1) with (1 + j * 2) by lia.
    rewrite Nat.div_add by lia. cbn. lia.
Qed.

(** A kernel size of 0, an input without channels or an empty tuple cannot
    construct a Conv. *)
Lemma Conv_init_rejects rand out_channels stride bias :
  (forall in_channels,
     Conv.__init__ rand in_channels out_channels (PyInt 0) stride bias
     = match first_if_tuple stride with
       | Ok _ => Raise ZeroDivisionError
       | Raise e => Raise e
       end) /\
  Conv.__init__ rand 1 out_channels (PyTuple []) stride bias = Raise IndexError.
Proof.
  split; [intros in_channels|reflexivity].
  unfold Conv.__init__. cbn [first_if_tuple]. rewrite bind_Ok.
  destruct (first_if_tuple stride); [|reflexivity]. rewrite bind_Ok.
  rewrite Nat.pow_0_l, Nat.mul_0_r by lia. reflexivity.
Qed.

(** X26: a ConvBN block whose BatchNorm2d holds tensors of shape (dim,), as
    after construction, keeps them so; a forward call that returns gives a
    tensor without negative entries and leaves the Conv as it was; a forward
    call that raises, in the convolution or in the normalisation, leaves the
    whole block, running statistics included, as it was. *)
Theorem ConvBN_forward_outcome ops_conv tensor_bool self x :
  well_shaped (ConvBN.bn self) ->
  match ConvBN.forward ops_conv tensor_bool x self with
  | (Ok y, self') =>
      (forall idx, (0 <= item y idx)%R) /\
      ConvBN.conv self' = ConvBN.conv self /\
      well_shaped (ConvBN.bn self')
  | (Raise e, self') => self' = self
  end.
Proof.
  intros Hws. unfold ConvBN.forward, mbind, stateful_bind, get, lift.
  destruct (Conv.forward _ _ _ x) as [x'|]; [|reflexivity].
  unfold ConvBN.call_bn.
  pose proof (BatchNorm2d_keeps_shapes _ x' Hws) as Hk.
  destruct (BatchNorm2d.forward x' (ConvBN.bn self)) as [[y|e] b'] eqn:E;
    cbn [snd] in Hk.
  - unfold mret, stateful_ret. split; [|split; [reflexivity|exact Hk]].
    intros idx. cbn [item relu map_tensor]. apply Rmax_l.
  - rewrite (BatchNorm2d_raise _ _ _ _ Hws E). now destruct self.
Qed.

Lemma ConvBN_forward_outcome_witness :
  match ConvBN.forward conv_id truthy image0 convbn0 with
  | (Ok y, self') =>
      (forall idx, (0 <= item y idx)%R) /\
      ConvBN.conv self' = ConvBN.conv convbn0 /\
      well_shaped (ConvBN.bn self')
  | (Raise e, self') => self' = convbn0
  end.
Proof.
  apply (ConvBN_forward_outcome conv_id truthy convbn0 image0).
  repeat split; reflexivity.
Defined.

End nn_conv_facts.

(** ** Attention: batched product, softmax, causal mask *)

Module nn_transformer_facts.
Import Engine Engine_facts nn_basic nn_basic_facts nn_transformer Reference Examples.

Lemma matmul_entries a bt B H m n d :
  shape a = [B; H; m; d] -> shape bt = [B; H; n; d] ->
  exists r, MultiHeadAttention.matmul a bt = Ok r /\ shape r = [B; H; m; n] /\
    forall b h i j, b < B -> h < H -> i < m -> j < n ->
      item r [b; h; i; j] =
      Rsum d (fun c => (item a [b; h; i; c] * item bt [b; h; j; c])%R).
Proof.
  intros Ha Hb. unfold MultiHeadAttention.matmul.
  rewrite Ha, Hb. simpl take. simpl drop. simpl app.
  rewrite (reshape_ok a) by (rewrite Ha; simpl; lia).
  rewrite (reshape_ok bt) by (rewrite Hb; simpl; lia).
  rewrite !bind_Ok.
  rewrite (index_from_end_ok _ 2 n) by (simpl; first [lia | reflexivity]).
  rewrite bind_Ok.
  rewrite assign_from_end_ok by (simpl; lia). rewrite bind_Ok. simpl insert.
  rewrite broadcast_to_ok by solve_broadcastable.
  rewrite bind_Ok.
  rewrite (index_from_end_ok _ 3 m) by (simpl; first [lia | reflexivity]).
  rewrite bind_Ok.
  rewrite assign_from_end_ok by (simpl; lia). rewrite bind_Ok. simpl insert.
  rewrite broadcast_to_ok by solve_broadcastable.
  rewrite bind_Ok.
  unfold mul. rewrite ewise_ok by reflexivity. rewrite bind_Ok.
  cbn [shape length Nat.sub].
  erewrite summation_ok by (simpl; reflexivity).
  eexists; split; [reflexivity|]. split; [reflexivity|].
  intros b h i j Hb' Hh Hi Hj. cbn [shape item]. rewrite Ha, Hb.
  apply Rsum_ext. intros k Hk.
  unfold insert_at. cbn [take drop app].
  rewrite !bidx_cons, !bidx_keep by assumption.
  cbn [bidx Nat.eqb]. rewrite !bidx_keep by assumption.
  f_equal; f_equal.
  - transitivity (unravel [B; H; m; d] (ravel [B; H; m; d] [b; h; i; k]));
      [ f_equal; cbn; ring
      | apply unravel_ravel; repeat constructor; assumption ].
  - transitivity (unravel [B; H; n; d] (ravel [B; H; n; d] [b; h; j; k]));
      [ f_equal; cbn; ring
      | apply unravel_ravel; repeat constructor; assumption ].
Qed.

(** C4: on operands of shapes (B,H,m,d) and (B,H,n,d), [matmul] (insert a
    singleton axis in each operand, broadcast both to (B,H,m,n,d), multiply
    entry by entry, sum over the last axis) returns the batched product
    [result[b,h,i,j] = sum over k of a[b,h,i,k] * b_transpose[b,h,j,k]]. *)
Theorem matmul_refines_batched_product a bt B H m n d :
  shape a = [B; H; m; d] -> shape bt = [B; H; n; d] ->
  exists r, MultiHeadAttention.matmul a bt = Ok r /\
            tensor_eq r (batched_matmul a bt).
Proof.
  intros Ha Hb.
  destruct (matmul_entries a bt B H m n d Ha Hb) as (r & Hr & Hs & Hi).
  exists r. split; [exact Hr|].
  unfold tensor_eq, batched_matmul. rewrite Ha, Hb. cbn [shape item].
  split; [exact Hs|].
  intros idx Hidx. rewrite Hs in Hidx. split_index Hidx. now apply Hi.
Qed.

Lemma matmul_refines_batched_product_witness :
  exists r, MultiHeadAttention.matmul q0 k0 = Ok r /\
            tensor_eq r (batched_matmul q0 k0).
Proof.
  apply (matmul_refines_batched_product q0 k0 1 1 2 2 1); reflexivity.
Defined.

(** Over exact real entries the softmax of [logit + C] is the softmax of
    [logit], for every tensor and every constant (also where both raise);
    what float32 keeps of this is stated in [Float32_facts]. *)
Lemma softmax_shift_invariant logit C :
  MultiHeadAttention.softmax (add_scalar logit C) = MultiHeadAttention.softmax logit.
Proof.
  unfold MultiHeadAttention.softmax, max_axis.
  cbn [shape add_scalar map_tensor].
  destruct (shape logit !! 3) as [[|d]|]; try reflexivity.
  rewrite !bind_Ok.
  unfold reshape. cbn [shape].
  destruct (decide _); [|reflexivity]. rewrite !bind_Ok.
  unfold broadcast_to. cbn [shape].
  destruct (broadcastable _ _); [|reflexivity]. rewrite !bind_Ok.
  unfold sub, ewise. cbn [shape].
  destruct (decide _); [|reflexivity]. rewrite !bind_Ok.
  match goal with
  | |- context [exp ?t1] =>
      match goal with
      | |- _ = ?rhs =>
          match rhs with
          | context [exp ?t2] => assert (E : t1 = t2)
          end
      end
  end.
  { f_equal. extensionality idx. cbn [item add_scalar map_tensor].
    rewrite Rmaximum_shift. ring. }
  rewrite E. reflexivity.
Qed.

Lemma softmax_entries logit B H Q K :
  shape logit = [B; H; Q; S K] ->
  exists r, MultiHeadAttention.softmax logit = Ok r /\
    shape r = [B; H; Q; S K] /\
    forall b h i j, b < B -> h < H -> i < Q -> j < S K ->
    item r [b; h; i; j] =
      (let M := Rmaximum K (fun k => item logit [b; h; i; k]) in
       Rtrigo_def.exp (item logit [b; h; i; j] - M) /
       Rsum (S K) (fun k => Rtrigo_def.exp (item logit [b; h; i; k] - M)))%R.
Proof.
  intros Hs. unfold MultiHeadAttention.softmax.
  erewrite max_axis_ok by (rewrite Hs; reflexivity). rewrite bind_Ok.
  rewrite Hs. cbn [length Nat.sub take app delete list_delete].
  rewrite reshape_ok by (cbn; lia). rewrite bind_Ok.
  rewrite broadcast_to_ok by solve_broadcastable.
  rewrite bind_Ok.
  unfold sub. rewrite ewise_ok by (cbn; congruence). rewrite bind_Ok.
  erewrite summation_ok by (cbn; rewrite Hs; reflexivity). rewrite bind_Ok.
  cbn [shape exp map_tensor delete list_delete]. rewrite Hs.
  cbn [delete list_delete].
  rewrite reshape_ok by (cbn; lia). rewrite bind_Ok.
  rewrite broadcast_to_ok by solve_broadcastable.
  rewrite bind_Ok.
  unfold div. rewrite ewise_ok by reflexivity.
  eexists; split; [reflexivity|]. split; [reflexivity|].
  intros b h i j Hb Hh Hi Hj.
  assert (Hun : forall j', unravel [B; H; Q] (ravel [B; H; Q; 1]
                   (bidx [B; H; Q; 1] [b; h; i; j'])) = [b; h; i]).
  { intros j'. rewrite !bidx_cons, !bidx_keep by assumption. cbn [bidx Nat.eqb].
    transitivity (unravel [B; H; Q] (ravel [B; H; Q] [b; h; i]));
      [ f_equal; cbn; ring | apply unravel_ravel; repeat constructor; assumption ]. }
  cbn [item shape exp map_tensor]. rewrite !Hun.
  unfold insert_at. cbn [take drop app]. f_equal.
  apply Rsum_ext. intros k Hk. now rewrite Hun.
Qed.

Lemma logits_entries self q k B H L L' d :
  shape q = [B; H; L; d] -> shape k = [B; H; L'; d] ->
  exists lg, MultiHeadAttention.logits self q k L L' d = Ok lg /\
    shape lg = [B; H; L; L'] /\
    forall b h i j, b < B -> h < H -> i < L -> j < L' ->
      item lg [b; h; i; j] =
      (score q k d b h i j +
       (if MultiHeadAttention.causal self then mask_entry L L' i j else 0))%R.
Proof.
  intros Hq Hk. unfold MultiHeadAttention.logits.
  destruct (matmul_entries q k B H L L' d Hq Hk) as (r & Hr & Hs & Hi).
  rewrite Hr, bind_Ok.
  destruct (MultiHeadAttention.causal self).
  - rewrite reshape_ok by reflexivity. rewrite bind_Ok.
    cbn [shape div_scalar map_tensor]. rewrite Hs.
    rewrite broadcast_to_ok
      by (cbn -[Nat.eqb]; rewrite ?Nat.eqb_refl, ?orb_true_r; reflexivity).
    rewrite bind_Ok.
    unfold add. rewrite ewise_ok by (cbn; congruence).
    eexists; split; [reflexivity|]. split; [exact Hs|].
    intros b h i j Hb Hh Hi' Hj.
    cbn [item shape MultiHeadAttention.create_causal_mask div_scalar map_tensor].
    rewrite Hi by assumption. unfold score. f_equal.
    rewrite !bidx_cons. cbn [Nat.eqb bidx]. rewrite !bidx_keep by assumption.
    rewrite unravel_ravel by (repeat constructor; first [assumption | lia]).
    reflexivity.
  - eexists; split; [reflexivity|]. split; [exact Hs|].
    intros b h i j Hb Hh Hi' Hj. cbn [item div_scalar map_tensor].
    rewrite Hi by assumption. unfold score. lra.
Qed.

Lemma forward_eval randb self q k v B H L L' d n :
  Dropout.training (MultiHeadAttention.dropout self) = false ->
  shape q = [B; H; L; d] -> shape k = [B; H; S L'; d] -> shape v = [B; H; S L'; d] ->
  exists lg probs result,
    MultiHeadAttention.logits self q k L (S L') d = Ok lg /\
    MultiHeadAttention.softmax lg = Ok probs /\
    MultiHeadAttention.forward randb self q k v n = (Ok (result, probs), n).
Proof.
  intros Hd Hq Hk Hv.
  destruct (logits_entries self q k B H L (S L') d Hq Hk) as (lg & Hlg & Hs & _).
  assert (Hsm : exists probs, MultiHeadAttention.softmax lg = Ok probs /\
                              shape probs = [B; H; L; S L']).
  { destruct (softmax_entries lg B H L L' Hs) as (p & Hp & Hps & _). eauto. }
  destruct Hsm as (probs & Hp & Hps).
  assert (Hvt : exists vt, transpose_last v = Ok vt /\ shape vt = [B; H; d; S L']).
  { unfold transpose_last, transpose. rewrite Hv. cbn. eauto. }
  destruct Hvt as (vt & Hvt & Hvs).
  destruct (matmul_entries probs vt B H L d (S L') Hps Hvs) as (res & Hres & _).
  exists lg, probs, res. split; [exact Hlg|]. split; [exact Hp|].
  unfold MultiHeadAttention.forward. rewrite Hq, Hk, Hv.
  cbn [unpack4]. unfold mbind, stateful_bind, lift. rewrite Nat.eqb_refl.
  cbn [negb andb]. rewrite Hlg, Hp. unfold Dropout.forward. rewrite Hd.
  unfold mret, stateful_ret. rewrite Hvt. cbn. rewrite Hres. reflexivity.
Qed.

Ltac eval_leb :=
  match goal with
  | |- context [Z.leb ?a ?b] =>
      let v := eval vm_compute in (Z.leb a b) in change (Z.leb a b) with v
  end.

(** C1, counterexample: with keys of magnitude 1.75 * 2^127 the masked logit
    at (0,1) is still the largest of its row, and the probability at (0,1)
    exceeds 1/2.  Every intermediate result on this input is a float32
    ([Float32_facts.causal_weight_one] runs it over float32). *)
Lemma causal_weight_not_zero :
  exists result probs,
    MultiHeadAttention.forward randb0 mha0 q0 k0 v0 0 = (Ok (result, probs), 0) /\
    (1 / 2 < item probs [0; 0; 0; 1]%nat)%R /\ item probs [0; 0; 0; 1] <> 0%R.
Proof.
  destruct (forward_eval randb0 mha0 q0 k0 v0 1 1 2 1 1 0)
    as (lg & probs & result & Hlg & Hsm & Hf); try reflexivity.
  exists result, probs. split; [exact Hf|].
  destruct (logits_entries mha0 q0 k0 1 1 2 2 1) as (lg' & Hlg' & Hs & Hi);
    try reflexivity.
  rewrite Hlg in Hlg'. injection Hlg' as <-.
  destruct (softmax_entries lg 1 1 2 1 Hs) as (p' & Hp' & _ & Hpi).
  rewrite Hsm in Hp'. injection Hp' as <-.
  assert (H00 : item lg [0; 0; 0; 0] = (- big)%R).
  { rewrite Hi by lia. unfold score, mask_entry, Rsum. cbn.
    eval_leb. rewrite sqrt_1. lra. }
  assert (H01 : item lg [0; 0; 0; 1] = (big - MultiHeadAttention.float32_max)%R).
  { rewrite Hi by lia. unfold score, mask_entry, Rsum. cbn.
    eval_leb. rewrite sqrt_1. lra. }
  assert (Hlt : (- big < big - MultiHeadAttention.float32_max)%R).
  { unfold big, MultiHeadAttention.float32_max.
    rewrite <- opp_IZR, <- minus_IZR. apply IZR_lt. reflexivity. }
  assert (Hgoal : (1 / 2 < item probs [0; 0; 0; 1]%nat)%R).
  { rewrite Hpi by lia. cbn zeta. unfold Rsum. cbn [Rmaximum seq foldr].
    rewrite H00, H01. rewrite Rmax_right by lra.
    replace (big - MultiHeadAttention.float32_max - (big - MultiHeadAttention.float32_max))%R
      with 0%R by ring.
    rewrite exp_0.
    set (e := Rtrigo_def.exp (- big - (big - MultiHeadAttention.float32_max))).
    assert (He : (0 < e < 1)%R).
    { split; [apply exp_pos|]. rewrite <- exp_0. apply exp_increasing. lra. }
    apply Rmult_lt_reg_r with (e + (1 + 0))%R; [lra|].
    replace (1 / (e + (1 + 0)) * (e + (1 + 0)))%R with 1%R by (field; lra).
    lra. }
  split; [exact Hgoal | lra].
Qed.

Section layer_induction.
Variable P : layer -> Prop.
Hypothesis Hleaf :
  forall m, match m with
            | L_Sequential _ _ | L_Residual _ _ | L_TransformerLayer _ _ _ _ => False
            | _ => True
            end -> P m.
Hypothesis Hseq : forall tr modules, Forall P modules -> P (L_Sequential tr modules).
Hypothesis Hres : forall tr fn, P fn -> P (L_Residual tr fn).
Hypothesis Htl :
  forall tr resblock1 norm mlp,
    P resblock1 -> P mlp -> P (L_TransformerLayer tr resblock1 norm mlp).

Lemma layer_nested_ind (m : layer) : P m.
Proof.
  revert m. fix IH 1. intros m. destruct m as [ | | | | |tr ms| | | | |tr fn| |tr r nm mlp];
    try (apply Hleaf; exact I).
  - apply Hseq. induction ms as [|m ms IHm]; constructor; [apply IH|exact IHm].
  - apply Hres. apply IH.
  - apply Htl; apply IH.
Qed.
End layer_induction.

(** A layer without a BatchNorm inside comes out of every call as it went
    in. *)
Lemma call_without_batchnorm randb m :
  has_batchnorm m = false -> forall x n, (call randb m x n).2.1 = m.
Proof.
  induction m as [m Hm|tr ms IH|tr fn IH|tr r nm mlp IHr IHm]
    using layer_nested_ind; intros Hb x n.
  - destruct m; try contradiction; try discriminate; cbn [call]; try reflexivity.
    + destruct (Dropout.forward randb m x n). reflexivity.
    + destruct (AttentionLayer.forward randb m x None None n). reflexivity.
  - cbn [call].
    assert (Hms : forall x n, (Sequential.forward (call randb) ms x n).2.1 = ms).
    { clear x n. cbn [has_batchnorm] in Hb.
      induction IH as [|m ms Hcall _ IHms]; intros x n; [reflexivity|].
      cbn [existsb] in Hb. apply orb_false_iff in Hb as [Hb1 Hb2].
      cbn [Sequential.forward].
      specialize (Hcall Hb1 x n).
      destruct (call randb m x n) as [[y|e] [m' n']]; cbn in Hcall; subst m'.
      - specialize (IHms Hb2 y n').
        destruct (Sequential.forward (call randb) ms y n') as [r [ms' n'']].
        cbn in IHms. subst ms'. reflexivity.
      - reflexivity. }
    specialize (Hms x n).
    destruct (Sequential.forward (call randb) ms x n) as [r [ms' n']].
    cbn in Hms. subst ms'. reflexivity.
  - cbn [call]. unfold Residual.forward. cbn [has_batchnorm] in Hb.
    specialize (IH Hb x n).
    destruct (call randb fn x n) as [[y|e] [fn' n']]; cbn in IH; subst fn';
      reflexivity.
  - cbn [call]. unfold TransformerLayer.forward. cbn [has_batchnorm] in Hb.
    apply orb_false_iff in Hb as [Hb1 Hb2].
    destruct (unpack3 (shape x)) as [[[bs sl] xd]|]; [|reflexivity].
    specialize (IHr Hb1 x n).
    destruct (call randb r x n) as [[y|e] [r' n1]]; cbn in IHr; subst r';
      [|reflexivity].
    destruct (add x y ≫= _) as [[x1' x_]|]; [|reflexivity].
    specialize (IHm Hb2 x_ n1).
    destruct (call randb mlp x_ n1) as [[z|e] [mlp' n2]]; cbn in IHm; subst mlp';
      reflexivity.
Qed.

(** A call changes nothing of a layer but the running statistics of the
    BatchNorm layers inside it. *)
Lemma call_keeps_parameters randb m :
  forall x n, without_statistics (call randb m x n).2.1 = without_statistics m.
Proof.
  induction m as [m Hm|tr ms IH|tr fn IH|tr r nm mlp IHr IHm]
    using layer_nested_ind; intros x n.
  - destruct m; try contradiction; cbn [call]; try reflexivity.
    + pose proof (BatchNorm1d_forward_fields x m) as E.
      destruct (BatchNorm1d.forward x m) as [r b']. cbn in *. now rewrite E.
    + pose proof (BatchNorm2d_forward_fields x m) as E.
      destruct (BatchNorm2d.forward x m) as [r b']. cbn in *. now rewrite E.
    + destruct (Dropout.forward randb m x n). reflexivity.
    + destruct (AttentionLayer.forward randb m x None None n). reflexivity.
  - cbn [call].
    assert (Hms : forall x n,
              map without_statistics (Sequential.forward (call randb) ms x n).2.1
              = map without_statistics ms).
    { clear x n. induction IH as [|m ms Hcall _ IHms]; intros x n; [reflexivity|].
      cbn [Sequential.forward].
      specialize (Hcall x n).
      destruct (call randb m x n) as [[y|e] [m' n']]; cbn in Hcall.
      - specialize (IHms y n').
        destruct (Sequential.forward (call randb) ms y n') as [r [ms' n'']].
        cbn in IHms |- *. now rewrite Hcall, IHms.
      - cbn. now rewrite Hcall. }
    specialize (Hms x n).
    destruct (Sequential.forward (call randb) ms x n) as [r [ms' n']].
    cbn in Hms |- *. now rewrite Hms.
  - cbn [call]. unfold Residual.forward.
    specialize (IH x n).
    destruct (call randb fn x n) as [[y|e] [fn' n']]; cbn in IH |- *;
      now rewrite IH.
  - cbn [call]. unfold TransformerLayer.forward.
    destruct (unpack3 (shape x)) as [[[bs sl] xd]|]; [|reflexivity].
    specialize (IHr x n).
    destruct (call randb r x n) as [[y|e] [r' n1]]; cbn in IHr;
      [|cbn; now rewrite IHr].
    destruct (add x y ≫= _) as [[x1' x_]|]; [|cbn; now rewrite IHr].
    specialize (IHm x_ n1).
    destruct (call randb mlp x_ n1) as [[z|e] [mlp' n2]]; cbn in IHm |- *;
      now rewrite IHr, IHm.
Qed.

(** A forward call that raises leaves the parameters and the configuration
    of every layer as they were, and the whole layer when it is guarded. *)
Lemma call_raise_keeps randb m x n e m' n' :
  call randb m x n = (Raise e, (m', n')) ->
  without_statistics m' = without_statistics m /\ (guarded m -> m' = m).
Proof.
  intros H. split.
  - pose proof (call_keeps_parameters randb m x n) as E. now rewrite H in E.
  - intros Hg.
    assert (Hfree : has_batchnorm m = false -> m' = m).
    { intros Hb. pose proof (call_without_batchnorm randb m Hb x n) as E.
      rewrite H in E. exact E. }
    destruct m; try (now apply Hfree); cbn [call] in H.
    + destruct (BatchNorm1d.forward x m) as [r b'] eqn:E.
      injection H as -> <- _. f_equal. exact (BatchNorm1d_raise _ _ _ _ Hg E).
    + destruct (BatchNorm2d.forward x m) as [r b'] eqn:E.
      injection H as -> <- _. f_equal. exact (BatchNorm2d_raise _ _ _ _ Hg E).
Qed.

Lemma ConvBN_raise ops_conv tensor_bool self x e self' :
  well_shaped (nn_conv.ConvBN.bn self) ->
  nn_conv.ConvBN.forward ops_conv tensor_bool x self = (Raise e, self') ->
  self' = self.
Proof.
  intros Hws. unfold nn_conv.ConvBN.forward, mbind, stateful_bind, get, lift.
  destruct (nn_conv.Conv.forward _ _ _ x) as [x'|]; [|now intros [= _ <-]].
  unfold nn_conv.ConvBN.call_bn.
  destruct (BatchNorm2d.forward x' (nn_conv.ConvBN.bn self)) as [[y|e'] b'] eqn:E;
    [discriminate|].
  intros [= _ <-]. rewrite (BatchNorm2d_raise _ _ _ _ Hws E). now destruct self.
Qed.

Lemma Transformer_forward_state randb self x h n :
  has_batchnorm (Transformer.transformer_layers self) = false ->
  (Transformer.forward randb self x h n).2.1 = self.
Proof.
  intros Hb. unfold Transformer.forward.
  match goal with
  | |- context [match ?m with Ok _ => _ | Raise _ => _ end] =>
      destruct m as [x'|]
  end; [|reflexivity].
  pose proof (call_without_batchnorm randb _ Hb x' n) as E.
  destruct (call randb (Transformer.transformer_layers self) x' n)
    as [r [layers' n']].
  cbn in E |- *. subst layers'. now destruct self.
Qed.

(** C2, for the modules that keep it: a forward call that raises leaves the
    parameters and the configuration of every layer a container can hold as
    they were, and leaves the whole layer, running statistics included, as it
    was when the layer is a BatchNorm1d or BatchNorm2d in its well-shaped
    state or has no BatchNorm inside; it leaves a ConvBN block with a
    well-shaped BatchNorm2d as it was; and it leaves a Transformer whose
    layers hold no BatchNorm as it was. *)
Theorem forward_raise_atomicity randb ops_conv tensor_bool :
  (forall m x n e m' n',
     call randb m x n = (Raise e, (m', n')) ->
     without_statistics m' = without_statistics m /\ (guarded m -> m' = m)) /\
  (forall self x e self',
     well_shaped (nn_conv.ConvBN.bn self) ->
     nn_conv.ConvBN.forward ops_conv tensor_bool x self = (Raise e, self') ->
     self' = self) /\
  (forall self x h n e self' n',
     has_batchnorm (Transformer.transformer_layers self) = false ->
     Transformer.forward randb self x h n = (Raise e, (self', n')) ->
     self' = self).
Proof.
  split; [|split].
  - intros m x n e m' n'. apply call_raise_keeps.
  - intros self x e self'. apply ConvBN_raise.
  - intros self x h n e self' n' Hb H.
    pose proof (Transformer_forward_state randb self x h n Hb) as E.
    now rewrite H in E.
Qed.

(** A BatchNorm1d in training mode, fresh from its constructor, raises on a
    batch with two features where it expects one, and is left as it was,
    running statistics included. *)
Lemma forward_raise_atomicity_witness :
  call randb0 (L_BatchNorm1d bn0) x12 0 = (Raise ShapeError, (bn0_raised, 0)) /\
  guarded (L_BatchNorm1d bn0) /\
  without_statistics bn0_raised = without_statistics (L_BatchNorm1d bn0) /\
  bn0_raised = L_BatchNorm1d bn0.
Proof.
  assert (E : call randb0 (L_BatchNorm1d bn0) x12 0
              = (Raise ShapeError, (bn0_raised, 0))) by reflexivity.
  assert (G : guarded (L_BatchNorm1d bn0)) by (repeat split; reflexivity).
  destruct (proj1 (forward_raise_atomicity randb0 conv_id truthy)
              (L_BatchNorm1d bn0) x12 0 ShapeError bn0_raised 0 E) as [H1 H2].
  exact (conj E (conj G (conj H1 (H2 G)))).
Defined.

(** C2, counterexample: the forward of a Sequential raises in its
    Linear child after its BatchNorm1d child has already replaced
    [running_mean] (0 before the call, 1/10 after). *)
Lemma sequential_raise_keeps_update :
  exists e bn',
    call randb0 seq0 x1 0 =
      (Raise e, (L_Sequential true [L_BatchNorm1d bn'; L_Linear lin0], 0)) /\
    item (BatchNorm1d.running_mean bn0) [0] = 0%R /\
    item (BatchNorm1d.running_mean bn') [0] = (1 / 10)%R.
Proof.
  destruct (forward_training bn0 x1 1) as (y & rm & rv & E & Sy & _ & _ & _ & Irm & _);
    try reflexivity.
  exists ShapeError. eexists. split; [|split].
  - cbn [call seq0 Sequential.forward]. rewrite E.
    unfold Linear.forward, matmul2. rewrite Sy. cbn. reflexivity.
  - reflexivity.
  - cbn [BatchNorm1d.running_mean]. rewrite Irm by (cbn; lia).
    unfold batch_mean, Rsum. cbn. lra.
Qed.

(** C9: the second argument of [Transformer.forward] has no effect: for any
    two values of [h] the call returns the same pair of tensors (or raises
    the same exception) and leaves the same state. *)
Theorem Transformer_forward_ignores_h randb self x h1 h2 n :
  Transformer.forward randb self x h1 n = Transformer.forward randb self x h2 n.
Proof.
  unfold Transformer.forward.
  destruct (_ ≫= _) as [x'|e]; [|reflexivity].
  destruct (call randb (Transformer.transformer_layers self) x' n) as [r [layers' n']].
  reflexivity.
Qed.

(** *** Attention weights and the attention output *)

(** X19: on logits of shape (B, H, Q, K) with K > 0 the softmax returns,
    for every batch, head and query, weights over the keys that lie between
    0 and 1 and sum to 1. *)
Theorem softmax_rows_are_distributions logit B H Q K :
  shape logit = [B; H; Q; S K] ->
  exists probs, MultiHeadAttention.softmax logit = Ok probs /\
    forall b h i, b < B -> h < H -> i < Q ->
      Rsum (S K) (fun j => item probs [b; h; i; j]) = 1%R /\
      forall j, j < S K -> (0 <= item probs [b; h; i; j] <= 1)%R.
Proof.
  intros Hs. destruct (softmax_entries logit B H Q K Hs) as (r & Er & _ & Ir).
  exists r. split; [exact Er|]. intros b h i Hb Hh Hi.
  set (M := Rmaximum K (fun k => item logit [b; h; i; k])).
  set (e := fun k => Rtrigo_def.exp (item logit [b; h; i; k] - M)).
  assert (He : forall k, (0 < e k)%R) by (intros k; apply exp_pos).
  assert (Hge : forall j, j < S K -> (e j <= Rsum (S K) e)%R).
  { intros j Hj. apply Rsum_ge_term; [|exact Hj]. intros k _. left. apply He. }
  assert (HD : (0 < Rsum (S K) e)%R).
  { apply Rlt_le_trans with (e 0); [apply He | apply Hge; lia]. }
  assert (Hr : forall j, j < S K -> item r [b; h; i; j] = (/ Rsum (S K) e * e j)%R).
  { intros j Hj. rewrite Ir by assumption. cbv zeta. fold M. fold (e j).
    change (fun k => Rtrigo_def.exp (item logit [b; h; i; k] - M)) with e.
    unfold Rdiv. ring. }
  split.
  - rewrite (Rsum_ext _ _ (fun j => (/ Rsum (S K) e * e j)%R)) by exact Hr.
    rewrite Rsum_scale. field. lra.
  - intros j Hj. rewrite (Hr j Hj). specialize (He j). specialize (Hge j Hj).
    split.
    + apply Rlt_le. apply Rmult_lt_0_compat; [now apply Rinv_0_lt_compat | exact He].
    + apply Rmult_le_reg_l with (Rsum (S K) e); [exact HD|].
      rewrite <- Rmult_assoc, Rinv_r by lra. lra.
Qed.

Lemma softmax_rows_are_distributions_witness :
  exists probs, MultiHeadAttention.softmax (ones [1; 1; 1; 2]) = Ok probs /\
    forall b h i, b < 1 -> h < 1 -> i < 1 ->
      Rsum 2 (fun j => item probs [b; h; i; j]) = 1%R /\
      forall j, j < 2 -> (0 <= item probs [b; h; i; j] <= 1)%R.
Proof.
  apply (softmax_rows_are_distributions (ones [1; 1; 1; 2]) 1 1 1 1). reflexivity.
Defined.

(** X20: with dropout inactive, on queries of shape (B, H, L, d) and keys
    and values of shape (B, H, L', d) with L' > 0, the attention returns a
    result of shape (B, H, L, d) and weights of shape (B, H, L, L'), the
    result at query i being the sum of the values weighted by row i of the
    weights; no random number is drawn. *)
Theorem MultiHeadAttention_forward_weighted_sum randb self q k v B H L L' d n :
  Dropout.training (MultiHeadAttention.dropout self) = false ->
  shape q = [B; H; L; d] -> shape k = [B; H; S L'; d] -> shape v = [B; H; S L'; d] ->
  exists result probs,
    MultiHeadAttention.forward randb self q k v n = (Ok (result, probs), n) /\
    shape result = [B; H; L; d] /\ shape probs = [B; H; L; S L'] /\
    forall b h i c, b < B -> h < H -> i < L -> c < d ->
      item result [b; h; i; c] =
      Rsum (S L') (fun j => (item probs [b; h; i; j] * item v [b; h; j; c])%R).
Proof.
  intros Hd Hq Hk Hv.
  destruct (logits_entries self q k B H L (S L') d Hq Hk) as (lg & Hlg & Hs & _).
  destruct (softmax_entries lg B H L L' Hs) as (probs & Hp & Hps & _).
  destruct (transpose_last_entries v B H (S L') d Hv) as (vt & Hvt & Hvs & Ivt).
  destruct (matmul_entries probs vt B H L d (S L') Hps Hvs)
    as (res & Hres & Sres & Ires).
  exists res, probs. split; [|split; [exact Sres|split; [exact Hps|]]].
  - unfold MultiHeadAttention.forward. rewrite Hq, Hk, Hv.
    cbn [unpack4]. unfold mbind, stateful_bind, lift. rewrite Nat.eqb_refl.
    cbn [negb andb]. rewrite Hlg, Hp. unfold Dropout.forward. rewrite Hd.
    unfold mret, stateful_ret. rewrite Hvt. cbn. rewrite Hres. reflexivity.
  - intros b h i c Hb Hh Hi Hc. rewrite Ires by assumption.
    apply Rsum_ext. intros j _. now rewrite Ivt.
Qed.

Lemma MultiHeadAttention_forward_weighted_sum_witness :
  exists result probs,
    MultiHeadAttention.forward randb0 mha0 q0 k0 v0 0 = (Ok (result, probs), 0) /\
    shape result = [1; 1; 2; 1] /\ shape probs = [1; 1; 2; 2] /\
    forall b h i c, b < 1 -> h < 1 -> i < 2 -> c < 1 ->
      item result [b; h; i; c] =
      Rsum 2 (fun j => (item probs [b; h; i; j] * item v0 [b; h; j; c])%R).
Proof.
  apply (MultiHeadAttention_forward_weighted_sum randb0 mha0 q0 k0 v0 1 1 2 1 1 0);
    reflexivity.
Defined.

(** X21: on rank-4 queries, keys and values whose last dimensions are not
    all equal, the attention raises AssertionError before any computation,
    and no random number is drawn. *)
Theorem MultiHeadAttention_forward_rejects randb self q k v n
    B H L d B' H' L' d' B'' H'' L'' d'' :
  shape q = [B; H; L; d] -> shape k = [B'; H'; L'; d'] ->
  shape v = [B''; H''; L''; d''] ->
  ~ (d = d' /\ d' = d'') ->
  MultiHeadAttention.forward randb self q k v n = (Raise AssertionError, n).
Proof.
  intros Hq Hk Hv Hne. unfold MultiHeadAttention.forward. rewrite Hq, Hk, Hv.
  cbn [unpack4]. unfold mbind, stateful_bind, lift.
  destruct (Nat.eqb_spec d d'), (Nat.eqb_spec d' d''); cbn [negb andb];
    try reflexivity.
  exfalso. apply Hne. now split.
Qed.

Lemma MultiHeadAttention_forward_rejects_witness :
  MultiHeadAttention.forward randb0 mha0 q0 (ones [1; 1; 2; 3]) v0 0 =
  (Raise AssertionError, 0).
Proof.
  apply (MultiHeadAttention_forward_rejects randb0 mha0 q0 (ones [1; 1; 2; 3]) v0 0
           1 1 2 1 1 1 2 3 1 1 2 1); [reflexivity | reflexivity | reflexivity | lia].
Defined.

(** X22: the emulated batched product does not broadcast its operands
    against each other: on rank-4 operands that differ in the batch size,
    the number of heads or the contracted dimension it raises the engine's
    shape error. *)
Theorem matmul_rejects_mismatch a bt B H m d B' H' n d' :
  shape a = [B; H; m; d] -> shape bt = [B'; H'; n; d'] ->
  (B, H, d) <> (B', H', d') ->
  MultiHeadAttention.matmul a bt = Raise ShapeError.
Proof.
  intros Ha Hb Hne. unfold MultiHeadAttention.matmul.
  rewrite Ha, Hb. simpl take. simpl drop. simpl app.
  rewrite (reshape_ok a) by (rewrite Ha; simpl; lia).
  rewrite (reshape_ok bt) by (rewrite Hb; simpl; lia).
  rewrite !bind_Ok.
  rewrite (index_from_end_ok _ 2 n) by (simpl; first [lia | reflexivity]).
  rewrite bind_Ok, assign_from_end_ok by (simpl; lia). rewrite bind_Ok.
  rewrite broadcast_to_ok by solve_broadcastable. rewrite bind_Ok.
  rewrite (index_from_end_ok _ 3 m) by (simpl; first [lia | reflexivity]).
  rewrite bind_Ok, assign_from_end_ok by (simpl; lia). rewrite bind_Ok.
  rewrite broadcast_to_ok by solve_broadcastable. rewrite bind_Ok.
  unfold mul, ewise. cbn [shape length Nat.sub].
  rewrite decide_False; [reflexivity|].
  cbn. intros [= -> -> ->]. now apply Hne.
Qed.

Lemma matmul_rejects_mismatch_witness :
  MultiHeadAttention.matmul (ones [1; 1; 2; 3]) (ones [1; 1; 2; 4])
  = Raise ShapeError.
Proof.
  apply (matmul_rejects_mismatch (ones [1; 1; 2; 3]) (ones [1; 1; 2; 4])
           1 1 2 3 1 1 2 4); [reflexivity | reflexivity | discriminate].
Defined.

(** *** Dropout, Sequential and calls in inference mode *)

(** X15: in training mode with [p <> 1], with a mask of the shape of the
    input whose entries are 0 or 1, Dropout returns a tensor of the shape of
    the input whose entries are 0 where the mask is 0 and the input divided
    by 1 - p elsewhere, and uses one draw of the generator.  ([p = 1] is
    left out: there the code divides by zero.) *)
Theorem Dropout_training_entries randb self x n :
  Dropout.training self = true ->
  Dropout.p self <> 1%R ->
  (forall idx, item (randb n (shape x) (1 - Dropout.p self)%R) idx = 0%R \/
               item (randb n (shape x) (1 - Dropout.p self)%R) idx = 1%R) ->
  shape (randb n (shape x) (1 - Dropout.p self)%R) = shape x ->
  exists y, Dropout.forward randb self x n = (Ok y, S n) /\
    shape y = shape x /\
    forall idx,
      (item (randb n (shape x) (1 - Dropout.p self)%R) idx = 0%R /\
       item y idx = 0%R) \/
      (item (randb n (shape x) (1 - Dropout.p self)%R) idx = 1%R /\
       item y idx = (item x idx / (1 - Dropout.p self))%R).
Proof.
  intros Ht Hp Hmask Hs. unfold Dropout.forward. rewrite Ht.
  unfold mbind, stateful_bind, get, put, lift, mul.
  rewrite ewise_ok by (now rewrite Hs). rewrite bind_Ok.
  eexists; split; [reflexivity|]. split; [reflexivity|].
  intros idx. cbn [item div_scalar map_tensor].
  assert (Hq : (1 - Dropout.p self <> 0)%R) by lra.
  destruct (Hmask idx) as [E|E]; [left|right]; (split; [exact E|]);
    rewrite E; field; exact Hq.
Qed.

Lemma Dropout_training_entries_witness :
  exists y, Dropout.forward randb0 (Dropout.mk true (1 / 2)) x1 0 = (Ok y, 1) /\
    shape y = shape x1 /\
    forall idx,
      (item (randb0 0 (shape x1) (1 - Dropout.p (Dropout.mk true (1 / 2)))%R) idx
         = 0%R /\
       item y idx = 0%R) \/
      (item (randb0 0 (shape x1) (1 - Dropout.p (Dropout.mk true (1 / 2)))%R) idx
         = 1%R /\
       item y idx = (item x1 idx / (1 - Dropout.p (Dropout.mk true (1 / 2))))%R).
Proof.
  apply (Dropout_training_entries randb0 (Dropout.mk true (1 / 2)) x1 0);
    [reflexivity | cbn; lra | intros idx; right; reflexivity | reflexivity].
Defined.

Lemma Sequential_forward_app_gen call ms1 ms2 x n :
  Sequential.forward call (ms1 ++ ms2) x n =
    match Sequential.forward call ms1 x n with
    | (Ok y, (ms1', n')) =>
        let '(r, (ms2', n'')) := Sequential.forward call ms2 y n' in
        (r, (ms1' ++ ms2', n''))
    | (Raise e, (ms1', n')) => (Raise e, (ms1' ++ ms2, n'))
    end.
Proof.
  revert x n. induction ms1 as [|m ms1 IH]; intros x n.
  - cbn. now destruct (Sequential.forward call ms2 x n) as [r [ms2' n'']].
  - cbn [app Sequential.forward].
    destruct (call m x n) as [[y|e] [m' n']]; [|reflexivity].
    rewrite IH.
    destruct (Sequential.forward call ms1 y n') as [[z|e] [ms1' n1]]; [|reflexivity].
    now destruct (Sequential.forward call ms2 z n1) as [r [ms2' n2]].
Qed.

(** X14: a Sequential over the modules [ms1 ++ ms2] runs [ms1], then [ms2]
    on the result, from the state and the generator [ms1] left; when a
    module of [ms1] raises, the exception is the result, the modules of
    [ms2] are not called and stay as they were. *)
Theorem Sequential_forward_app randb ms1 ms2 x n :
  Sequential.forward (call randb) (ms1 ++ ms2) x n =
    match Sequential.forward (call randb) ms1 x n with
    | (Ok y, (ms1', n')) =>
        let '(r, (ms2', n'')) := Sequential.forward (call randb) ms2 y n' in
        (r, (ms1' ++ ms2', n''))
    | (Raise e, (ms1', n')) => (Raise e, (ms1' ++ ms2, n'))
    end.
Proof. apply Sequential_forward_app_gen. Qed.

Lemma BatchNorm1d_eval_state x self :
  BatchNorm1d.training self = false -> (BatchNorm1d.forward x self).2 = self.
Proof.
  intros Ht. unfold BatchNorm1d.forward, mbind, stateful_bind, lift, get.
  destruct (index (shape x) 0); [|reflexivity]. rewrite Ht.
  now destruct (BatchNorm1d.normalize _ _ _ _).
Qed.

Lemma BatchNorm2d_eval_state x self :
  BatchNorm1d.training self = false -> (BatchNorm2d.forward x self).2 = self.
Proof.
  intros Ht. unfold BatchNorm2d.forward.
  unfold mbind at 1, stateful_bind at 1, lift at 1.
  destruct (transpose x 1 2 ≫= _) as [_x|]; [|reflexivity].
  unfold mbind at 1, stateful_bind at 1.
  pose proof (BatchNorm1d_eval_state _x self Ht) as E.
  destruct (BatchNorm1d.forward _x self) as [[y|e] self']; cbn in E; subst self';
    [|reflexivity].
  unfold lift. now destruct (index (shape x) 0 ≫= _).
Qed.

(** Split on the result of the computation a [match] inspects. *)
Ltac case_result :=
  match goal with
  | |- context [match ?m with Ok _ => _ | Raise _ => _ end] => destruct m
  end.

Lemma MultiHeadAttention_forward_pure self q k v :
  Dropout.training (MultiHeadAttention.dropout self) = false ->
  forall randb randb' n n',
    MultiHeadAttention.forward randb self q k v n =
    ((MultiHeadAttention.forward randb' self q k v n').1, n).
Proof.
  intros Hd randb randb' n n'.
  unfold MultiHeadAttention.forward, mbind, stateful_bind, lift.
  destruct (unpack4 (shape q)) as [[[[bs nh] ql] qd]|]; [|reflexivity].
  destruct (unpack4 (shape k)) as [[[[? ?] kl] kd]|]; [|reflexivity].
  destruct (unpack4 (shape v)) as [[[[? ?] ?] vd]|]; [|reflexivity].
  destruct (negb _); [reflexivity|].
  destruct (MultiHeadAttention.logits _ _ _ _ _ _); [|reflexivity].
  destruct (MultiHeadAttention.softmax _); [|reflexivity].
  unfold Dropout.forward. rewrite Hd. unfold mret, stateful_ret.
  now case_result.
Qed.

Lemma AttentionLayer_forward_pure self q k v :
  Dropout.training (MultiHeadAttention.dropout (AttentionLayer.attn self)) = false ->
  forall randb randb' n n',
    AttentionLayer.forward randb self q k v n =
    ((AttentionLayer.forward randb' self q k v n').1, n).
Proof.
  intros Hd randb randb' n n'.
  unfold AttentionLayer.forward, mbind, stateful_bind, lift.
  destruct (unpack3 (shape q)) as [[[bs ql] qd]|]; [|reflexivity].
  destruct (unpack3 (shape (default q k))) as [[[? kl] kd]|]; [|reflexivity].
  destruct (unpack3 (shape (default q v))) as [[[? ?] vd]|]; [|reflexivity].
  destruct (AttentionLayer.project _ _ _ q _ _ _) as [Q|]; [|reflexivity].
  destruct (AttentionLayer.project _ _ _ (default q k) _ _ _) as [K|]; [|reflexivity].
  destruct (AttentionLayer.project _ _ _ (default q v) _ _ _) as [V|]; [|reflexivity].
  rewrite (MultiHeadAttention_forward_pure _ Q K V Hd randb randb' n n').
  destruct (MultiHeadAttention.forward randb' _ Q K V n') as [[[X probs]|e] n''];
    reflexivity.
Qed.

(** X18: a forward call on a layer in inference mode (every BatchNorm and
    every Dropout inside it with [training] off) is free of side effects:
    it leaves the layer and the generator as they were, and its result, or
    the exception it raises, does not depend on the generator. *)
Theorem inference_call_is_pure m :
  inference_mode m = true ->
  forall randb randb' x n n',
    call randb m x n = ((call randb' m x n').1, (m, n)).
Proof.
  induction m as [m Hm|tr ms IH|tr fn IH|tr r nm mlp IHr IHm]
    using layer_nested_ind; intros Hi randb randb' x n n'.
  - destruct m; try contradiction; cbn [call inference_mode] in *; try reflexivity.
    + apply negb_true_iff in Hi.
      pose proof (BatchNorm1d_eval_state x m Hi) as E.
      destruct (BatchNorm1d.forward x m) as [r b']. cbn in E. now subst b'.
    + apply negb_true_iff in Hi.
      pose proof (BatchNorm2d_eval_state x m Hi) as E.
      destruct (BatchNorm2d.forward x m) as [r b']. cbn in E. now subst b'.
    + apply negb_true_iff in Hi. unfold Dropout.forward. rewrite Hi. reflexivity.
    + apply negb_true_iff in Hi.
      rewrite (AttentionLayer_forward_pure m x None None Hi randb randb' n n').
      now destruct (AttentionLayer.forward randb' m x None None n').
  - cbn [call].
    assert (Hms : forall x n n',
              Sequential.forward (call randb) ms x n =
              ((Sequential.forward (call randb') ms x n').1, (ms, n))).
    { clear x n n'. cbn [inference_mode] in Hi.
      induction IH as [|m ms Hcall _ IHms]; intros x n n'; [reflexivity|].
      cbn [forallb] in Hi. apply andb_true_iff in Hi as [Hi1 Hi2].
      cbn [Sequential.forward].
      rewrite (Hcall Hi1 randb randb' x n n').
      destruct (call randb' m x n') as [[y|e] [m' n1]]; cbn [fst]; [|reflexivity].
      rewrite (IHms Hi2 y n n1).
      now destruct (Sequential.forward (call randb') ms y n1) as [r [ms' n2]]. }
    rewrite (Hms x n n').
    now destruct (Sequential.forward (call randb') ms x n') as [r [ms' n1]].
  - cbn [call]. unfold Residual.forward. cbn [inference_mode] in Hi.
    rewrite (IH Hi randb randb' x n n').
    now destruct (call randb' fn x n') as [[y|e] [fn' n1]].
  - cbn [call]. unfold TransformerLayer.forward. cbn [inference_mode] in Hi.
    apply andb_true_iff in Hi as [Hi1 Hi2].
    destruct (unpack3 (shape x)) as [[[bs sl] xd]|]; [|reflexivity].
    rewrite (IHr Hi1 randb randb' x n n').
    destruct (call randb' r x n') as [[y|e] [r' n1]]; cbn [fst]; [|reflexivity].
    destruct (add x y ≫= _) as [[x1' x_]|]; [|reflexivity].
    rewrite (IHm Hi2 randb randb' x_ n n1).
    now destruct (call randb' mlp x_ n1) as [[z|e] [mlp' n2]].
Qed.

Lemma inference_call_is_pure_witness :
  call randb0 seq_eval x1 0 = ((call randb1 seq_eval x1 7).1, (seq_eval, 0)).
Proof. apply (inference_call_is_pure seq_eval). reflexivity. Defined.

(** X23: [Transformer.forward] on an input that is not of rank 3 raises
    before any layer runs: the model and the generator are as they were. *)
Theorem Transformer_forward_rejects_rank randb self x h n :
  length (shape x) <> 3 ->
  exists e, Transformer.forward randb self x h n = (Raise e, (self, n)).
Proof.
  intros Hr. unfold Transformer.forward.
  assert (H : exists e,
             (x0 ← (if Transformer.batch_first self then Ok x else transpose x 0 1);
              '(b, l, d) ← unpack3 (shape x0);
              pos ← broadcast_to (Transformer.arange_column l) [l; b];
              pos ← Embedding.forward (Transformer.position_embedding self) pos;
              pos ← transpose pos 0 1;
              add x0 pos) = Raise e).
  { destruct (Transformer.batch_first self).
    - rewrite bind_Ok.
      destruct (shape x) as [|a [|b [|c [|d s]]]]; cbn in Hr |- *; try lia; eauto.
    - unfold transpose.
      destruct ((0 <? length (shape x)) && (1 <? length (shape x))) eqn:E;
        [|eauto].
      rewrite bind_Ok. cbn [shape].
      destruct (shape x) as [|a [|b [|c [|d s]]]]; cbn in Hr |- *; try lia; eauto. }
  destruct H as (e & ->). eauto.
Qed.

Lemma Transformer_forward_rejects_rank_witness :
  exists e, Transformer.forward randb0 tf0 x1 None 0 = (Raise e, (tf0, 0)).
Proof.
  apply (Transformer_forward_rejects_rank randb0 tf0 x1 None 0). cbn. lia.
Defined.

(** *** A constructed attention layer *)

Lemma Linear_init_nobias rand fan_in fan_out :
  (forall s low high, shape (rand s low high) = s) ->
  0 < fan_in ->
  exists w, Linear.__init__ rand fan_in fan_out false =
              Ok (Linear.mk true fan_in fan_out w None) /\
            shape w = [fan_in; fan_out].
Proof.
  intros Hrand Hf. unfold Linear.__init__.
  rewrite init_initializers_facts.kaiming_uniform_ok by assumption.
  rewrite !bind_Ok. eexists; split; [reflexivity|]. apply Hrand.
Qed.

Lemma Linear_nobias_shape self X m k n :
  Linear.bias self = None -> shape (Linear.weight self) = [k; n] ->
  shape X = [m; k] ->
  exists y, Linear.forward self X = Ok y /\ shape y = [m; n].
Proof.
  intros Hb HW HX. unfold Linear.forward, matmul2. rewrite HX, HW, Hb.
  rewrite decide_True by reflexivity. rewrite bind_Ok.
  eexists; split; reflexivity.
Qed.

Lemma project_shape self norm proj x B L F :
  norm = LayerNorm1d.__init__ F (1 / 100000) ->
  Linear.bias proj = None ->
  shape (Linear.weight proj) =
    [F; AttentionLayer.num_head self * AttentionLayer.dim_head self] ->
  shape x = [B; L; F] ->
  exists r, AttentionLayer.project self norm proj x B L F = Ok r /\
    shape r = [B; AttentionLayer.num_head self; L; AttentionLayer.dim_head self].
Proof.
  intros -> Hb HW Hx. unfold AttentionLayer.project.
  set (H := AttentionLayer.num_head self) in *.
  set (D := AttentionLayer.dim_head self) in *.
  rewrite reshape_ok by (rewrite Hx; unfold numel; cbn [foldr]; ring).
  rewrite bind_Ok.
  set (flat := mkTensor [B * L; F] _).
  destruct (LayerNorm1d_rows (LayerNorm1d.__init__ F (1 / 100000)) flat (B * L)
              eq_refl eq_refl eq_refl) as (nz & En & Sn & _).
  rewrite En, bind_Ok.
  destruct (Linear_nobias_shape proj nz (B * L) F (H * D) Hb HW Sn)
    as (pj & Ep & Sp).
  rewrite Ep, bind_Ok.
  rewrite reshape_ok by (rewrite Sp; unfold numel; cbn [foldr]; ring).
  rewrite bind_Ok.
  rewrite transpose_ok by (cbn; lia).
  eexists; split; reflexivity.
Qed.

Lemma MultiHeadAttention_forward_shapes randb self q k v B H L L' d n :
  (forall n s p, shape (randb n s p) = s) ->
  shape q = [B; H; L; d] -> shape k = [B; H; S L'; d] -> shape v = [B; H; S L'; d] ->
  exists result probs n',
    MultiHeadAttention.forward randb self q k v n = (Ok (result, probs), n') /\
    shape result = [B; H; L; d] /\ shape probs = [B; H; L; S L'].
Proof.
  intros Hrandb Hq Hk Hv.
  destruct (logits_entries self q k B H L (S L') d Hq Hk) as (lg & Hlg & Hs & _).
  destruct (softmax_entries lg B H L L' Hs) as (sm & Hp & Hps & _).
  destruct (transpose_last_entries v B H (S L') d Hv) as (vt & Hvt & Hvs & _).
  unfold MultiHeadAttention.forward. rewrite Hq, Hk, Hv.
  cbn [unpack4]. unfold mbind, stateful_bind, lift.
  rewrite Nat.eqb_refl. cbn [negb andb]. rewrite Hlg, Hp.
  assert (Hdrop : exists probs n',
             Dropout.forward randb (MultiHeadAttention.dropout self) sm n
               = (Ok probs, n') /\ shape probs = [B; H; L; S L']).
  { unfold Dropout.forward.
    destruct (Dropout.training (MultiHeadAttention.dropout self)).
    - unfold mbind, stateful_bind, get, put, lift, mul.
      rewrite ewise_ok by (now rewrite Hrandb). rewrite bind_Ok.
      eexists _, _. split; [reflexivity|exact Hps].
    - eexists _, _. split; [reflexivity|exact Hps]. }
  destruct Hdrop as (probs & n' & Ed & Sd). rewrite Ed.
  destruct (matmul_entries probs vt B H L d (S L') Sd Hvs)
    as (res & Hres & Sres & _).
  rewrite Hvt. cbn. rewrite Hres.
  eexists _, _, _. split; [reflexivity|]. split; assumption.
Qed.

Lemma AttentionLayer_init_shapes rand randb q_features num_head dim_head
    dropout causal :
  (forall s low high, shape (rand s low high) = s) ->
  (forall n s p, shape (randb n s p) = s) ->
  0 < q_features -> 0 < num_head * dim_head ->
  exists self,
    AttentionLayer.__init__ rand q_features num_head dim_head None None None
      dropout causal = Ok self /\
    forall q k v B L L' n,
      shape q = [B; L; q_features] ->
      shape (default q k) = [B; S L'; q_features] ->
      shape (default q v) = [B; S L'; q_features] ->
      exists y n',
        AttentionLayer.forward randb self q k v n = (Ok y, n') /\
        shape y = [B; L; q_features].
Proof.
  intros Hrand Hrandb HF HI. unfold AttentionLayer.__init__. cbn [default].
  destruct (Linear_init_nobias rand q_features (num_head * dim_head) Hrand HF)
    as (wq & -> & Swq).
  destruct (Linear_init_nobias rand (num_head * dim_head) q_features Hrand HI)
    as (wo & -> & Swo).
  rewrite !bind_Ok. eexists; split; [reflexivity|].
  intros q k v B L L' n Hq Hk Hv.
  unfold AttentionLayer.forward. cbn zeta.
  rewrite Hq, Hk, Hv. cbn [unpack3].
  unfold mbind at 1 2 3, stateful_bind at 1 2 3, lift at 1 2 3.
  set (self := AttentionLayer.mk _ _ _ _ _ _ _ _ _ _ _ _ _ _ _).
  destruct (project_shape self (AttentionLayer.prenorm_q self)
              (AttentionLayer.q_projection self) q B L q_features
              eq_refl eq_refl Swq Hq) as (Q & EQ & SQ).
  destruct (project_shape self (AttentionLayer.prenorm_k self)
              (AttentionLayer.k_projection self) (default q k) B (S L') q_features
              eq_refl eq_refl Swq Hk) as (K & EK & SK).
  destruct (project_shape self (AttentionLayer.prenorm_v self)
              (AttentionLayer.v_projection self) (default q v) B (S L') q_features
              eq_refl eq_refl Swq Hv) as (V & EV & SV).
  unfold mbind at 1, stateful_bind at 1, lift at 1. rewrite EQ.
  unfold mbind at 1, stateful_bind at 1, lift at 1. rewrite EK.
  unfold mbind at 1, stateful_bind at 1, lift at 1. rewrite EV.
  cbn [AttentionLayer.num_head AttentionLayer.dim_head self] in SQ, SK, SV.
  destruct (MultiHeadAttention_forward_shapes randb (AttentionLayer.attn self)
              Q K V B num_head L L' dim_head n Hrandb SQ SK SV)
    as (X & probs & n' & EX & SX & _).
  unfold mbind at 1, stateful_bind at 1. rewrite EX. unfold lift.
  rewrite transpose_ok by (rewrite SX; cbn; lia). rewrite bind_Ok.
  cbn [AttentionLayer.num_head AttentionLayer.dim_head AttentionLayer.out_features
       AttentionLayer.out_projection self].
  rewrite reshape_ok
    by (cbn [shape]; rewrite SX; unfold numel; cbn; ring).
  rewrite bind_Ok.
  rewrite reshape_ok by (cbn [shape]; unfold numel; cbn [foldr]; ring).
  rewrite bind_Ok.
  set (X3 := mkTensor [B * L; num_head * dim_head] _).
  destruct (Linear_nobias_shape
              (Linear.mk true (num_head * dim_head) q_features wo None) X3
              (B * L) (num_head * dim_head) q_features eq_refl Swo eq_refl)
    as (r & Er & Sr).
  rewrite Er, bind_Ok.
  rewrite reshape_ok by (rewrite Sr; unfold numel; cbn [foldr]; ring).
  eexists _, _. split; reflexivity.
Qed.

(** X30: with generators that return tensors of the shape they are asked
    for, [AttentionLayer(q_features, num_head, dim_head)] with positive
    [q_features] and [num_head * dim_head] is constructed, and its forward
    maps queries of shape (B, L, q_features), with keys and values (the
    queries themselves when not given) of shape (B, L', q_features), L' > 0,
    to a tensor of shape (B, L, q_features): the length of the result is the
    number of queries. *)
Theorem AttentionLayer_init_forward rand randb q_features num_head dim_head
    dropout causal :
  (forall s low high, shape (rand s low high) = s) ->
  (forall n s p, shape (randb n s p) = s) ->
  0 < q_features -> 0 < num_head * dim_head ->
  exists self,
    AttentionLayer.__init__ rand q_features num_head dim_head None None None
      dropout causal = Ok self /\
    forall q k v B L L' n,
      shape q = [B; L; q_features] ->
      shape (default q k) = [B; S L'; q_features] ->
      shape (default q v) = [B; S L'; q_features] ->
      exists y n',
        AttentionLayer.forward randb self q k v n = (Ok y, n') /\
        shape y = [B; L; q_features].
Proof. apply AttentionLayer_init_shapes. Qed.

Lemma AttentionLayer_init_forward_witness :
  exists self,
    AttentionLayer.__init__ rand0 2 1 1 None None None 0 true = Ok self /\
    forall q k v B L L' n,
      shape q = [B; L; 2] ->
      shape (default q k) = [B; S L'; 2] ->
      shape (default q v) = [B; S L'; 2] ->
      exists y n',
        AttentionLayer.forward randb0 self q k v n = (Ok y, n') /\
        shape y = [B; L; 2].
Proof.
  apply (AttentionLayer_init_forward rand0 randb0 2 1 1 0 true);
    [reflexivity | reflexivity | lia | lia].
Defined.

(** *** A constructed transformer layer *)

Lemma Dropout_shape randb d x n :
  (forall n s p, shape (randb n s p) = s) ->
  exists y n', Dropout.forward randb d x n = (Ok y, n') /\ shape y = shape x.
Proof.
  intros Hrandb. unfold Dropout.forward. destruct (Dropout.training d).
  - unfold mbind, stateful_bind, get, put, lift, mul.
    rewrite ewise_ok by (now rewrite Hrandb). rewrite bind_Ok.
    eexists _, _. split; reflexivity.
  - eexists _, _. split; reflexivity.
Qed.

Lemma Linear_init_bias rand fan_in fan_out :
  (forall s low high, shape (rand s low high) = s) ->
  0 < fan_in -> 0 < fan_out ->
  exists w b, Linear.__init__ rand fan_in fan_out true =
                Ok (Linear.mk true fan_in fan_out w (Some b)) /\
              shape w = [fan_in; fan_out] /\ shape b = [1; fan_out].
Proof.
  intros Hrand Hi Ho. unfold Linear.__init__.
  rewrite !init_initializers_facts.kaiming_uniform_ok by assumption.
  rewrite !bind_Ok.
  rewrite reshape_ok by (rewrite Hrand; cbn; lia). rewrite !bind_Ok.
  eexists _, _. split; [reflexivity|]. split; [apply Hrand|reflexivity].
Qed.

Lemma Linear_bias_shape self X m k n b :
  Linear.bias self = Some b -> shape b = [1; n] ->
  shape (Linear.weight self) = [k; n] ->
  shape X = [m; k] ->
  exists y, Linear.forward self X = Ok y /\ shape y = [m; n].
Proof.
  intros Hb Sb HW HX. unfold Linear.forward, matmul2. rewrite HX, HW, Hb.
  rewrite decide_True by reflexivity. rewrite bind_Ok. cbn [shape].
  rewrite broadcast_to_ok by (rewrite Sb; solve_broadcastable).
  rewrite bind_Ok. unfold add. rewrite ewise_ok by reflexivity.
  eexists; split; reflexivity.
Qed.

(** X25: with generators that return tensors of the shape they are asked
    for, [TransformerLayer(q_features, num_head, dim_head, hidden_size)]
    with positive [q_features], [num_head * dim_head] and [hidden_size] is
    constructed, and a forward call on it, in the training mode it starts
    in, maps every input of shape (B, L, q_features) with L > 0 to a tensor
    of the same shape. *)
Theorem TransformerLayer_init_forward rand randb q_features num_head dim_head
    hidden_size dropout causal :
  (forall s low high, shape (rand s low high) = s) ->
  (forall n s p, shape (randb n s p) = s) ->
  0 < q_features -> 0 < num_head * dim_head -> 0 < hidden_size ->
  exists m,
    TransformerLayer.__init__ rand q_features num_head dim_head hidden_size
      dropout causal = Ok m /\
    forall x B L n,
      shape x = [B; S L; q_features] ->
      exists y m' n',
        call randb m x n = (Ok y, (m', n')) /\
        shape y = [B; S L; q_features].
Proof.
  intros Hrand Hrandb HF HI HH. unfold TransformerLayer.__init__.
  destruct (AttentionLayer_init_shapes rand randb q_features num_head dim_head
              dropout causal Hrand Hrandb HF HI) as (attn & -> & Hattn).
  destruct (Linear_init_bias rand q_features hidden_size Hrand HF HH)
    as (w1 & b1 & -> & Sw1 & Sb1).
  destruct (Linear_init_bias rand hidden_size q_features Hrand HH HF)
    as (w2 & b2 & -> & Sw2 & Sb2).
  rewrite !bind_Ok. eexists; split; [reflexivity|].
  intros x B L n Hx.
  cbn [call]. unfold TransformerLayer.forward. rewrite Hx. cbn [unpack3].
  (* the attention block *)
  cbn [call Sequential.forward].
  destruct (Hattn x None None B (S L) L n Hx Hx Hx) as (y1 & n1 & E1 & S1).
  rewrite E1.
  destruct (Dropout_shape randb (Dropout.mk true dropout) y1 n1 Hrandb)
    as (y2 & n2 & E2 & S2).
  rewrite E2.
  unfold add at 1. rewrite (ewise_ok _ x y2) by congruence. rewrite bind_Ok.
  rewrite reshape_ok by (cbn [shape]; rewrite Hx; unfold numel; cbn [foldr]; ring).
  rewrite bind_Ok.
  set (x1 := mkTensor (shape x) _).
  set (flat := mkTensor [B * S L; q_features] _).
  destruct (LayerNorm1d_rows (LayerNorm1d.__init__ q_features (1 / 100000)) flat
              (B * S L) eq_refl eq_refl eq_refl) as (x_ & En & Sn & _).
  rewrite En, bind_Ok.
  (* the perceptron *)
  destruct (Linear_bias_shape (Linear.mk true q_features hidden_size w1 (Some b1))
              x_ (B * S L) q_features hidden_size b1 eq_refl Sb1 Sw1 Sn)
    as (h1 & Eh1 & Sh1).
  rewrite Eh1.
  destruct (Dropout_shape randb (Dropout.mk true dropout) (relu h1) n2 Hrandb)
    as (h2 & n3 & Eh2 & Sh2).
  rewrite Eh2.
  assert (Sh2' : shape h2 = [B * S L; hidden_size]) by (rewrite Sh2; exact Sh1).
  destruct (Linear_bias_shape (Linear.mk true hidden_size q_features w2 (Some b2))
              h2 (B * S L) hidden_size q_features b2 eq_refl Sb2 Sw2 Sh2')
    as (h3 & Eh3 & Sh3).
  rewrite Eh3.
  destruct (Dropout_shape randb (Dropout.mk true dropout) h3 n3 Hrandb)
    as (z & n4 & Ez & Sz).
  rewrite Ez.
  rewrite reshape_ok by (rewrite Sz, Sh3; unfold numel; cbn [foldr]; ring).
  rewrite bind_Ok. unfold add. rewrite ewise_ok by (cbn [shape x1]; exact Hx).
  eexists _, _, _. split; [reflexivity|exact Hx].
Qed.

Lemma TransformerLayer_init_forward_witness :
  exists m,
    TransformerLayer.__init__ rand0 2 1 1 3 0 true = Ok m /\
    forall x B L n,
      shape x = [B; S L; 2] ->
      exists y m' n',
        call randb0 m x n = (Ok y, (m', n')) /\
        shape y = [B; S L; 2].
Proof.
  apply (TransformerLayer_init_forward rand0 randb0 2 1 1 3 0 true);
    [reflexivity | reflexivity | lia | lia | lia].
Defined.

End nn_transformer_facts.

(** ** The attention module over float32 entries *)

Module Float32_facts.
Import Engine Engine_facts nn_basic nn_transformer Float32.
Local Open Scope R_scope.

Lemma bpow_pos e : 0 < bpow e.
Proof. apply powerRZ_lt. lra. Qed.

Lemma bpow_add a b : bpow (a + b) = bpow a * bpow b.
Proof. apply powerRZ_add. lra. Qed.

Lemma bpow_0 : bpow 0 = 1.
Proof. reflexivity. Qed.

Lemma bpow_opp e : bpow e * bpow (- e) = 1.
Proof. rewrite <- bpow_add. replace (e + - e)%Z with 0%Z by lia. reflexivity. Qed.

Lemma ln_2_pos : 0 < ln 2.
Proof. pose proof ln_lt_2. lra. Qed.

Lemma bpow_exp e : bpow e = Rtrigo_def.exp (IZR e * ln 2).
Proof. unfold bpow. rewrite powerRZ_Rpower by lra. reflexivity. Qed.

Lemma bpow_lt a b : (a < b)%Z -> bpow a < bpow b.
Proof.
  intros H. rewrite !bpow_exp. apply exp_increasing.
  apply Rmult_lt_compat_r; [apply ln_2_pos | now apply IZR_lt].
Qed.

Lemma bpow_le a b : (a <= b)%Z -> bpow a <= bpow b.
Proof.
  intros H. destruct (Z.eq_dec a b) as [->|]; [lra|].
  left. apply bpow_lt. lia.
Qed.

Lemma bpow_lt_inv a b : bpow a < bpow b -> (a < b)%Z.
Proof.
  intros H. destruct (Z_lt_le_dec a b) as [|Hle]; [assumption|].
  apply bpow_le in Hle. lra.
Qed.

Lemma bpow_IZR n : (0 <= n)%Z -> bpow n = IZR (2 ^ n).
Proof.
  intros H. unfold bpow. rewrite <- (Z2Nat.id n H) at 1.
  rewrite <- pow_powerRZ, pow_IZR. now rewrite Z2Nat.id.
Qed.

Lemma grid_bpow c k : (c <= k)%Z -> bpow k = IZR (2 ^ (k - c)) * bpow c.
Proof.
  intros H. rewrite <- bpow_IZR by lia. rewrite <- bpow_add. f_equal. lia.
Qed.

Lemma mag_bounds x : x <> 0 -> bpow (mag x - 1) <= Rabs x < bpow (mag x).
Proof.
  intros Hx. assert (Ha : 0 < Rabs x) by now apply Rabs_pos_lt.
  unfold mag. set (l := ln (Rabs x) / ln 2).
  destruct (archimed l) as [H1 H2].
  assert (E : Rabs x = Rtrigo_def.exp (l * ln 2)).
  { unfold l. replace (ln (Rabs x) / ln 2 * ln 2) with (ln (Rabs x))
      by (field; pose proof ln_2_pos; lra).
    now rewrite exp_ln. }
  rewrite !bpow_exp, E. pose proof ln_2_pos as L. split.
  - rewrite minus_IZR.
    destruct (Req_dec (IZR (up l) - 1) l) as [->|Hne]; [lra|].
    left. apply exp_increasing. apply Rmult_lt_compat_r; lra.
  - apply exp_increasing. apply Rmult_lt_compat_r; lra.
Qed.

Lemma mag_le_bpow x n : x <> 0 -> Rabs x < bpow n -> (mag x <= n)%Z.
Proof.
  intros Hx H. destruct (mag_bounds x Hx) as [H1 _].
  assert (bpow (mag x - 1) < bpow n) by lra.
  apply bpow_lt_inv in H0. lia.
Qed.

Lemma mag_ge_bpow x n : bpow (n - 1) <= Rabs x -> (n <= mag x)%Z.
Proof.
  intros H.
  assert (Hx : x <> 0).
  { intros ->. rewrite Rabs_R0 in H. pose proof (bpow_pos (n - 1)). lra. }
  destruct (mag_bounds x Hx) as [_ H2].
  assert (bpow (n - 1) < bpow (mag x)) by lra.
  apply bpow_lt_inv in H0. lia.
Qed.

Lemma mag_unique x n : bpow (n - 1) <= Rabs x < bpow n -> mag x = n.
Proof.
  intros [H1 H2].
  assert (Hx : x <> 0).
  { intros ->. rewrite Rabs_R0 in H1. pose proof (bpow_pos (n - 1)). lra. }
  pose proof (mag_le_bpow x n Hx H2). pose proof (mag_ge_bpow x n H1). lia.
Qed.

Lemma mag_le_abs x y : x <> 0 -> Rabs x <= Rabs y -> (mag x <= mag y)%Z.
Proof.
  intros Hx H. destruct (mag_bounds x Hx) as [H1 _].
  apply mag_ge_bpow. lra.
Qed.

Lemma ZnearestE_IZR n : ZnearestE (IZR n) = n.
Proof.
  unfold ZnearestE. rewrite ZfloorZ.
  destruct (Rlt_dec _ _) as [|H]; [reflexivity|]. exfalso. apply H. lra.
Qed.

Lemma ZnearestE_bounds x :
  (Zfloor x <= ZnearestE x <= Zfloor x + 1)%Z /\
  (ZnearestE x = (Zfloor x + 1)%Z -> 1 / 2 <= x - IZR (Zfloor x)).
Proof.
  unfold ZnearestE. cbn zeta.
  destruct (Rlt_dec _ _); [split; [lia|intros; lia]|].
  destruct (Rlt_dec _ _); [split; [lia|intros; lra]|].
  destruct (Z.even _); split; try lia; intros; lra.
Qed.

Lemma ZnearestE_le_int x n : x <= IZR n -> (ZnearestE x <= n)%Z.
Proof.
  intros H. destruct (ZnearestE_bounds x) as [[H1 H2] H3].
  pose proof (Zfloor_bound x) as [B1 B2].
  destruct (Z.eq_dec (ZnearestE x) (Zfloor x + 1)%Z) as [E|E].
  - specialize (H3 E).
    assert (IZR (Zfloor x) < IZR n) by lra.
    apply lt_IZR in H0. lia.
  - assert (IZR (Zfloor x) <= IZR n) by lra.
    apply le_IZR in H0. lia.
Qed.

Lemma ZnearestE_ge_int x n : IZR n <= x -> (n <= ZnearestE x)%Z.
Proof.
  intros H. destruct (ZnearestE_bounds x) as [[H1 H2] _].
  pose proof (Zfloor_lub n x H). lia.
Qed.

Lemma ZnearestE_le x y : x <= y -> (ZnearestE x <= ZnearestE y)%Z.
Proof.
  intros H. pose proof (Zfloor_le x y H) as Hf.
  destruct (Z.eq_dec (Zfloor x) (Zfloor y)) as [E|E].
  - unfold ZnearestE. cbn zeta. rewrite E.
    repeat destruct (Rlt_dec _ _); try lia; try lra;
      destruct (Z.even _); lia.
  - destruct (ZnearestE_bounds x) as [[_ H2] _].
    destruct (ZnearestE_bounds y) as [[H1 _] _]. lia.
Qed.

Lemma ZnearestE_eval x n : Rabs (x - IZR n) < 1 / 2 -> ZnearestE x = n.
Proof.
  intros H. apply Rabs_def2 in H. destruct H as [H1 H2].
  destruct (Rle_dec (IZR n) x) as [Hle|Hgt].
  - assert (E : Zfloor x = n) by (apply Zfloor_eq; lra).
    unfold ZnearestE. cbn zeta. rewrite E.
    destruct (Rlt_dec _ _); [reflexivity | lra].
  - assert (E : Zfloor x = (n - 1)%Z).
    { apply Zfloor_eq. rewrite minus_IZR. lra. }
    unfold ZnearestE. cbn zeta. rewrite E, minus_IZR.
    destruct (Rlt_dec _ _); [lra|].
    destruct (Rlt_dec _ _); [lia | lra].
Qed.

Section Rounding.
Variables prec emin : Z.
Hypothesis prec_pos : (0 < prec)%Z.


Lemma rnd_0 : rnd prec emin 0 = 0.
Proof.
  unfold rnd. rewrite Rmult_0_l.
  change 0 with (IZR 0). rewrite ZnearestE_IZR. change (IZR 0) with 0. ring.
Qed.

Lemma rnd_le_grid x n :
  x <= IZR n * bpow (cexp prec emin x) -> rnd prec emin x <= IZR n * bpow (cexp prec emin x).
Proof.
  intros H. unfold rnd.
  apply Rmult_le_compat_r; [left; apply bpow_pos|].
  apply IZR_le, ZnearestE_le_int.
  apply Rmult_le_reg_r with (bpow (cexp prec emin x)); [apply bpow_pos|].
  rewrite Rmult_assoc, (Rmult_comm (bpow (- _))), bpow_opp. lra.
Qed.

Lemma rnd_ge_grid x n :
  IZR n * bpow (cexp prec emin x) <= x -> IZR n * bpow (cexp prec emin x) <= rnd prec emin x.
Proof.
  intros H. unfold rnd.
  apply Rmult_le_compat_r; [left; apply bpow_pos|].
  apply IZR_le, ZnearestE_ge_int.
  apply Rmult_le_reg_r with (bpow (cexp prec emin x)); [apply bpow_pos|].
  rewrite Rmult_assoc, (Rmult_comm (bpow (- _))), bpow_opp. lra.
Qed.

Lemma cexp_le x y : x <> 0 -> Rabs x <= Rabs y -> (cexp prec emin x <= cexp prec emin y)%Z.
Proof.
  intros Hx H. pose proof (mag_le_abs x y Hx H). unfold cexp. lia.
Qed.

Lemma rnd_le x y : x <= y -> rnd prec emin x <= rnd prec emin y.
Proof.
  intros H.
  assert (Hsep : forall g nx ny,
             x <= g <= y -> g = IZR nx * bpow (cexp prec emin x) ->
             g = IZR ny * bpow (cexp prec emin y) -> rnd prec emin x <= rnd prec emin y).
  { intros g nx ny [G1 G2] Ex Ey.
    apply Rle_trans with g.
    - rewrite Ex. apply rnd_le_grid. lra.
    - rewrite Ey. apply rnd_ge_grid. lra. }
  destruct (Rle_dec x 0) as [Hx0|Hx0].
  - destruct (Rle_dec 0 y) as [Hy0|Hy0].
    + apply (Hsep 0 0%Z 0%Z); [lra | ring | ring].
    + (* x <= y < 0 *)
      assert (Hy : y <> 0) by lra. assert (Hx : x <> 0) by lra.
      assert (Habs : Rabs y <= Rabs x).
      { rewrite !Rabs_left by lra. lra. }
      pose proof (cexp_le y x Hy Habs) as Hc.
      destruct (Z.eq_dec (cexp prec emin y) (cexp prec emin x)) as [E|E].
      * unfold rnd. rewrite E.
        apply Rmult_le_compat_r; [left; apply bpow_pos|].
        apply IZR_le, ZnearestE_le.
        apply Rmult_le_compat_r; [left; apply bpow_pos | exact H].
      * assert (Hcx : cexp prec emin x = (mag x - prec)%Z) by (unfold cexp in *; lia).
        assert (Hm : (mag y < mag x)%Z) by (unfold cexp in *; lia).
        destruct (mag_bounds x Hx) as [X1 _].
        destruct (mag_bounds y Hy) as [_ Y2].
        rewrite Rabs_left in X1, Y2 by lra.
        pose proof (bpow_le (mag y) (mag x - 1) ltac:(lia)) as Hb.
        apply (Hsep (- bpow (mag x - 1))
                 (- 2 ^ (mag x - 1 - cexp prec emin x))%Z (- 2 ^ (mag x - 1 - cexp prec emin y))%Z).
        -- lra.
        -- rewrite opp_IZR, <- Ropp_mult_distr_l. f_equal. apply grid_bpow. lia.
        -- rewrite opp_IZR, <- Ropp_mult_distr_l. f_equal. apply grid_bpow. lia.
  - (* 0 < x <= y *)
    assert (Hx : x <> 0) by lra. assert (Hy : y <> 0) by lra.
    assert (Habs : Rabs x <= Rabs y).
    { rewrite !Rabs_right by lra. lra. }
    pose proof (cexp_le x y Hx Habs) as Hc.
    destruct (Z.eq_dec (cexp prec emin x) (cexp prec emin y)) as [E|E].
    + unfold rnd. rewrite E.
      apply Rmult_le_compat_r; [left; apply bpow_pos|].
      apply IZR_le, ZnearestE_le.
      apply Rmult_le_compat_r; [left; apply bpow_pos | exact H].
    + assert (Hcy : cexp prec emin y = (mag y - prec)%Z) by (unfold cexp in *; lia).
      assert (Hm : (mag x < mag y)%Z) by (unfold cexp in *; lia).
      destruct (mag_bounds x Hx) as [_ X2].
      destruct (mag_bounds y Hy) as [Y1 _].
      rewrite Rabs_right in X2, Y1 by lra.
      pose proof (bpow_le (mag x) (mag y - 1) ltac:(lia)) as Hb.
      apply (Hsep (bpow (mag y - 1))
               (2 ^ (mag y - 1 - cexp prec emin x))%Z (2 ^ (mag y - 1 - cexp prec emin y))%Z).
      * lra.
      * apply grid_bpow. lia.
      * apply grid_bpow. lia.
Qed.

Lemma rnd_repr m e :
  (Z.abs m < 2 ^ prec)%Z -> (emin <= e)%Z ->
  rnd prec emin (IZR m * bpow e) = IZR m * bpow e.
Proof.
  intros Hm He.
  destruct (Z.eq_dec m 0%Z) as [->|Hm0].
  { rewrite Rmult_0_l. apply rnd_0. }
  set (x := IZR m * bpow e).
  assert (Hx : x <> 0).
  { unfold x. apply Rmult_integral_contrapositive_currified.
    - now apply not_0_IZR.
    - pose proof (bpow_pos e). lra. }
  assert (Hlt : Rabs x < bpow (prec + e)).
  { unfold x. rewrite Rabs_mult, (Rabs_right (bpow e))
      by (left; apply bpow_pos).
    rewrite bpow_add. apply Rmult_lt_compat_r; [apply bpow_pos|].
    rewrite <- abs_IZR, bpow_IZR by lia. now apply IZR_lt. }
  pose proof (mag_le_bpow x _ Hx Hlt) as Hmag.
  assert (Hc : (cexp prec emin x <= e)%Z) by (unfold cexp; lia).
  assert (E : x = IZR (m * 2 ^ (e - cexp prec emin x)) * bpow (cexp prec emin x)).
  { unfold x. rewrite mult_IZR, Rmult_assoc. rewrite <- (grid_bpow (cexp prec emin (IZR m * bpow e)) e) by exact Hc. reflexivity. }
  unfold rnd. rewrite E at 1.
  rewrite Rmult_assoc, bpow_opp, Rmult_1_r, ZnearestE_IZR. symmetry. exact E.
Qed.

Lemma rnd_eval x e n :
  bpow (e + prec - 1) <= Rabs x < bpow (e + prec) -> (emin <= e)%Z ->
  Rabs (x * bpow (- e) - IZR n) < 1 / 2 ->
  rnd prec emin x = IZR n * bpow e.
Proof.
  intros Hx He Hn.
  assert (Hm : mag x = (e + prec)%Z) by now apply mag_unique.
  assert (Hc : cexp prec emin x = e) by (unfold cexp; lia).
  unfold rnd. rewrite Hc. now rewrite (ZnearestE_eval _ n).
Qed.

Lemma rnd_small x :
  Rabs x < bpow (emin - 1) -> rnd prec emin x = 0.
Proof.
  intros H.
  destruct (Req_dec x 0) as [->|Hx]; [apply rnd_0|].
  assert (Hm : (mag x <= emin - 1)%Z) by now apply mag_le_bpow.
  assert (Hc : cexp prec emin x = emin) by (unfold cexp; lia).
  unfold rnd. rewrite Hc, (ZnearestE_eval _ 0); [change (IZR 0) with 0; ring|].
  change (IZR 0) with 0. rewrite Rminus_0_r, Rabs_mult.
  rewrite (Rabs_right (bpow _)) by (left; apply bpow_pos).
  replace (1 / 2) with (bpow (emin - 1) * bpow (- emin)).
  - apply Rmult_lt_compat_r; [apply bpow_pos | exact H].
  - rewrite <- bpow_add. replace (emin - 1 + - emin)%Z with (-1)%Z by lia.
    unfold bpow. simpl. lra.
Qed.

End Rounding.


Lemma rnd_nonneg prec emin x : (0 < prec)%Z -> 0 <= x -> 0 <= rnd prec emin x.
Proof.
  intros Hp H. rewrite <- (rnd_0 prec emin). now apply rnd_le.
Qed.

Lemma rnd_nonpos prec emin x : (0 < prec)%Z -> x <= 0 -> rnd prec emin x <= 0.
Proof.
  intros Hp H. rewrite <- (rnd_0 prec emin). now apply rnd_le.
Qed.

(** *** Rounding to binary32 *)

Lemma round32_repr m e :
  (Z.abs m < 2 ^ 24)%Z -> (-149 <= e)%Z -> Rabs (IZR m * bpow e) < bpow 128 ->
  round32 (IZR m * bpow e) = Fin (IZR m * bpow e).
Proof.
  intros Hm He Hlt. unfold round32. cbn zeta.
  rewrite rnd_repr by (assumption || lia).
  destruct (Rlt_dec _ _); [reflexivity | contradiction].
Qed.

Lemma round32_IZR m : (Z.abs m < 2 ^ 24)%Z -> round32 (IZR m) = Fin (IZR m).
Proof.
  intros Hm. rewrite <- (Rmult_1_r (IZR m)). change 1 with (bpow 0).
  apply round32_repr; [assumption | lia |].
  rewrite Rabs_mult, (Rabs_right (bpow 0)) by (left; apply bpow_pos).
  rewrite bpow_0, Rmult_1_r, <- abs_IZR, (bpow_IZR 128) by lia.
  apply IZR_lt. lia.
Qed.

Lemma round32_0 : round32 0 = Fin 0.
Proof. apply (round32_IZR 0). reflexivity. Qed.

Lemma round32_1 : round32 1 = Fin 1.
Proof. apply (round32_IZR 1). reflexivity. Qed.

Lemma round32_le x y : x <= y -> fle (round32 x) (round32 y).
Proof.
  intros H. pose proof (rnd_le 24 (-149) ltac:(lia) x y H) as Hr.
  unfold round32, negative. cbn zeta.
  destruct (Rlt_dec (Rabs (rnd 24 (-149) x)) _) as [Hx|Hx];
    destruct (Rlt_dec (Rabs (rnd 24 (-149) y)) _) as [Hy|Hy]; cbn.
  - exact Hr.
  - destruct (Rlt_dec y 0) as [Hy0|Hy0]; [|exact I].
    pose proof (rnd_nonpos 24 (-149) y ltac:(lia) ltac:(lra)) as Hn.
    rewrite Rabs_left1 in Hy by exact Hn.
    rewrite Rabs_left1 in Hx by lra. lra.
  - destruct (Rlt_dec x 0) as [Hx0|Hx0]; [exact I|].
    pose proof (rnd_nonneg 24 (-149) x ltac:(lia) ltac:(lra)) as Hn.
    rewrite Rabs_right in Hx by lra.
    rewrite Rabs_right in Hy by lra. lra.
  - destruct (Rlt_dec x 0) as [Hx0|Hx0]; [exact I|].
    destruct (Rlt_dec y 0) as [Hy0|Hy0]; [lra | exact I].
Qed.

Lemma fle_Fin_inv a f b :
  fle (Fin a) f -> fle f (Fin b) -> exists r, f = Fin r /\ a <= r <= b.
Proof.
  destruct f as [|[]|r]; cbn; try contradiction.
  intros H1 H2. exists r. split; [reflexivity | lra].
Qed.

Lemma round32_between a x b :
  round32 a = Fin a -> round32 b = Fin b -> a <= x <= b ->
  exists r, round32 x = Fin r /\ a <= r <= b.
Proof.
  intros Ha Hb [H1 H2]. apply fle_Fin_inv.
  - rewrite <- Ha. now apply round32_le.
  - rewrite <- Hb. now apply round32_le.
Qed.

Lemma fle_trans a b c : fle a b -> fle b c -> fle a c.
Proof.
  destruct a as [|[]|x], b as [|[]|y], c as [|[]|z]; cbn; try tauto; lra.
Qed.

(** *** The exponential *)

Lemma ln_2_lt_1 : ln 2 < 1.
Proof.
  rewrite <- (ln_exp 1). apply ln_increasing; [lra|].
  pose proof (exp_ineq1 1 ltac:(lra)). lra.
Qed.

Lemma exp_underflow x : x <= -200 -> Rtrigo_def.exp x < bpow (-150).
Proof.
  intros H. rewrite bpow_exp. apply exp_increasing.
  pose proof ln_2_lt_1. pose proof ln_2_pos. nra.
Qed.

Lemma fexp_underflow a : fle a (Fin (-200)) -> fexp a = Fin 0.
Proof.
  destruct a as [|[]|x]; cbn; try contradiction; [reflexivity|].
  intros H. unfold round32. cbn zeta.
  rewrite rnd_small.
  - rewrite Rabs_R0. destruct (Rlt_dec _ _) as [|n]; [reflexivity|].
    exfalso. apply n. apply bpow_pos.
  - lia.
  - rewrite Rabs_right by (left; apply exp_pos).
    now apply exp_underflow.
Qed.

Lemma fexp_0 : fexp (Fin 0) = Fin 1.
Proof. cbn. rewrite exp_0. apply round32_1. Qed.

Lemma fexp_unit a :
  fle a (Fin 0) -> exists y, fexp a = Fin y /\ 0 <= y <= 1.
Proof.
  destruct a as [|[]|x]; cbn; try contradiction.
  - intros _. exists 0. split; [reflexivity | lra].
  - intros H. apply round32_between; [apply round32_0 | apply round32_1 |].
    split; [left; apply exp_pos|].
    rewrite <- exp_0. destruct H as [H| ->]; [left; now apply exp_increasing | lra].
Qed.

Local Close Scope R_scope.

(** *** When the operations succeed *)

Lemma fsum_ext d f g :
  (forall k, k < d -> f k = g k) -> fsum d f = fsum d g.
Proof.
  unfold fsum. intros H.
  assert (Hs : forall k, k ∈ seq 0 d -> f k = g k).
  { intros k Hk. apply H. apply elem_of_seq in Hk. lia. }
  clear H. generalize (Fin 0).
  induction (seq 0 d) as [|k l IH]; intros acc; simpl; [reflexivity|].
  rewrite Hs by constructor. apply IH.
  intros k' Hk'. apply Hs. now constructor.
Qed.

Lemma fsum_S d f : fsum (S d) f = fadd (fsum d f) (f d).
Proof.
  unfold fsum. rewrite seq_S, foldl_app. reflexivity.
Qed.

Lemma fmaximum_ext d f g :
  (forall k, k <= d -> f k = g k) -> fmaximum d f = fmaximum d g.
Proof.
  induction d as [|d IH]; intros H; simpl.
  - apply H. lia.
  - rewrite IH by (intros; apply H; lia). rewrite H by lia. reflexivity.
Qed.

Lemma reshape_ok_f32 t s :
  numel s = numel (shape t) ->
  reshape t s = Ok (mkTensor s (fun idx => item t (unravel (shape t) (ravel s idx)))).
Proof. intros H. unfold reshape. now rewrite decide_True. Qed.

Lemma broadcast_to_ok_f32 t s :
  broadcastable (shape t) s = true ->
  broadcast_to t s = Ok (mkTensor s (fun idx => item t (bidx (shape t) idx))).
Proof. intros H. unfold broadcast_to. now rewrite H. Qed.

Lemma ewise_ok_f32 f a b :
  shape a = shape b ->
  ewise f a b = Ok (mkTensor (shape a) (fun idx => f (item a idx) (item b idx))).
Proof. intros H. unfold ewise. now rewrite decide_True. Qed.

Lemma summation_ok_f32 t axis d :
  shape t !! axis = Some d ->
  summation t axis =
    Ok (mkTensor (delete axis (shape t))
          (fun idx => fsum d (fun k => item t (insert_at axis k idx)))).
Proof. intros H. unfold summation. now rewrite H. Qed.

Lemma max_axis_ok_f32 t axis d :
  shape t !! axis = Some (S d) ->
  max_axis t axis =
    Ok (mkTensor (delete axis (shape t))
          (fun idx => fmaximum d (fun k => item t (insert_at axis k idx)))).
Proof. intros H. unfold max_axis. now rewrite H. Qed.

(** *** The entries the attention module computes *)

Lemma matmul_entries_f32 a bt B H m n d :
  shape a = [B; H; m; d] -> shape bt = [B; H; n; d] ->
  exists r, MultiHeadAttention.matmul a bt = Ok r /\ shape r = [B; H; m; n] /\
    forall b h i j, b < B -> h < H -> i < m -> j < n ->
      item r [b; h; i; j] =
      fsum d (fun c => fmul (item a [b; h; i; c]) (item bt [b; h; j; c])).
Proof.
  intros Ha Hb. unfold MultiHeadAttention.matmul.
  rewrite Ha, Hb. simpl take. simpl drop. simpl app.
  rewrite (reshape_ok_f32 a) by (rewrite Ha; simpl; lia).
  rewrite (reshape_ok_f32 bt) by (rewrite Hb; simpl; lia).
  rewrite !bind_Ok.
  rewrite (index_from_end_ok _ 2 n) by (simpl; first [lia | reflexivity]).
  rewrite bind_Ok.
  rewrite assign_from_end_ok by (simpl; lia). rewrite bind_Ok. simpl insert.
  rewrite broadcast_to_ok_f32 by solve_broadcastable.
  rewrite bind_Ok.
  rewrite (index_from_end_ok _ 3 m) by (simpl; first [lia | reflexivity]).
  rewrite bind_Ok.
  rewrite assign_from_end_ok by (simpl; lia). rewrite bind_Ok. simpl insert.
  rewrite broadcast_to_ok_f32 by solve_broadcastable.
  rewrite bind_Ok.
  unfold mul. rewrite ewise_ok_f32 by reflexivity. rewrite bind_Ok.
  cbn [shape length Nat.sub].
  erewrite summation_ok_f32 by (simpl; reflexivity).
  eexists; split; [reflexivity|]. split; [reflexivity|].
  intros b h i j Hb' Hh Hi Hj. cbn [shape item]. rewrite Ha, Hb.
  apply fsum_ext. intros k Hk.
  unfold insert_at. cbn [take drop app].
  rewrite !bidx_cons, !bidx_keep by assumption.
  cbn [bidx Nat.eqb]. rewrite !bidx_keep by assumption.
  f_equal; f_equal.
  - transitivity (unravel [B; H; m; d] (ravel [B; H; m; d] [b; h; i; k]));
      [ f_equal; cbn; ring
      | apply unravel_ravel; repeat constructor; assumption ].
  - transitivity (unravel [B; H; n; d] (ravel [B; H; n; d] [b; h; j; k]));
      [ f_equal; cbn; ring
      | apply unravel_ravel; repeat constructor; assumption ].
Qed.

Lemma softmax_entries_f32 logit B H Q K :
  shape logit = [B; H; Q; S K] ->
  exists r, MultiHeadAttention.softmax logit = Ok r /\
    shape r = [B; H; Q; S K] /\
    forall b h i j, b < B -> h < H -> i < Q -> j < S K ->
    item r [b; h; i; j] =
      (let M := fmaximum K (fun k => item logit [b; h; i; k]) in
       fdiv (fexp (fsub (item logit [b; h; i; j]) M))
            (fsum (S K) (fun k => fexp (fsub (item logit [b; h; i; k]) M)))).
Proof.
  intros Hs. unfold MultiHeadAttention.softmax.
  erewrite max_axis_ok_f32 by (rewrite Hs; reflexivity). rewrite bind_Ok.
  rewrite Hs. cbn [length Nat.sub take app delete list_delete].
  rewrite reshape_ok_f32 by (cbn; lia). rewrite bind_Ok.
  rewrite broadcast_to_ok_f32 by solve_broadcastable.
  rewrite bind_Ok.
  unfold sub. rewrite ewise_ok_f32 by (cbn; congruence). rewrite bind_Ok.
  erewrite summation_ok_f32 by (cbn; rewrite Hs; reflexivity). rewrite bind_Ok.
  cbn [shape exp map_tensor delete list_delete]. rewrite Hs.
  cbn [delete list_delete].
  rewrite reshape_ok_f32 by (cbn; lia). rewrite bind_Ok.
  rewrite broadcast_to_ok_f32 by solve_broadcastable.
  rewrite bind_Ok.
  unfold div. rewrite ewise_ok_f32 by reflexivity.
  eexists; split; [reflexivity|]. split; [reflexivity|].
  intros b h i j Hb Hh Hi Hj.
  assert (Hun : forall j', unravel [B; H; Q] (ravel [B; H; Q; 1]
                   (bidx [B; H; Q; 1] [b; h; i; j'])) = [b; h; i]).
  { intros j'. rewrite !bidx_cons, !bidx_keep by assumption. cbn [bidx Nat.eqb].
    transitivity (unravel [B; H; Q] (ravel [B; H; Q] [b; h; i]));
      [ f_equal; cbn; ring | apply unravel_ravel; repeat constructor; assumption ]. }
  cbn [item shape exp map_tensor]. rewrite !Hun.
  unfold insert_at. cbn [take drop app]. f_equal.
  apply fsum_ext. intros k Hk. now rewrite Hun.
Qed.

Lemma softmax_empty logit B H Q :
  shape logit = [B; H; Q; 0] ->
  MultiHeadAttention.softmax logit = Raise ValueError.
Proof.
  intros Hs. unfold MultiHeadAttention.softmax, max_axis. now rewrite Hs.
Qed.

Lemma scores_entries_f32 q k B H L L' d :
  shape q = [B; H; L; d] -> shape k = [B; H; L'; d] ->
  exists sc, MultiHeadAttention.scores q k d = Ok sc /\
    shape sc = [B; H; L; L'] /\
    forall b h i j, b < B -> h < H -> i < L -> j < L' ->
      item sc [b; h; i; j] =
      fdiv (fsum d (fun c => fmul (item q [b; h; i; c]) (item k [b; h; j; c])))
           (scalar (round64 (sqrt (INR d)))).
Proof.
  intros Hq Hk. unfold MultiHeadAttention.scores.
  destruct (matmul_entries_f32 q k B H L L' d Hq Hk) as (r & Hr & Hs & Hi).
  rewrite Hr, bind_Ok. eexists; split; [reflexivity|]. split; [exact Hs|].
  intros b h i j Hb Hh Hi' Hj. cbn [item div_scalar map_tensor].
  now rewrite Hi.
Qed.

(** The entry of the causal mask at row [i] and column [j]. *)
Lemma logits_entries_f32 self q k sc B H L L' d :
  shape q = [B; H; L; d] -> shape k = [B; H; L'; d] ->
  MultiHeadAttention.scores q k d = Ok sc ->
  exists lg, MultiHeadAttention.logits self q k L L' d = Ok lg /\
    shape lg = [B; H; L; L'] /\
    forall b h i j, b < B -> h < H -> i < L -> j < L' ->
      item lg [b; h; i; j] =
      if nn_transformer.MultiHeadAttention.causal self
      then fadd (item sc [b; h; i; j])
                (item (MultiHeadAttention.create_causal_mask L L') [0; 0; i; j])
      else item sc [b; h; i; j].
Proof.
  intros Hq Hk Hsc. unfold MultiHeadAttention.logits.
  destruct (scores_entries_f32 q k B H L L' d Hq Hk) as (sc' & Hsc' & Hs & _).
  rewrite Hsc in Hsc'. injection Hsc' as <-.
  rewrite Hsc, bind_Ok.
  destruct (nn_transformer.MultiHeadAttention.causal self).
  - rewrite reshape_ok_f32 by reflexivity. rewrite bind_Ok.
    rewrite Hs.
    rewrite broadcast_to_ok_f32
      by (cbn -[Nat.eqb]; rewrite ?Nat.eqb_refl, ?orb_true_r; reflexivity).
    rewrite bind_Ok.
    unfold add. rewrite ewise_ok_f32 by (cbn; congruence).
    eexists; split; [reflexivity|]. split; [exact Hs|].
    intros b h i j Hb Hh Hi' Hj.
    cbn [item shape MultiHeadAttention.create_causal_mask].
    f_equal.
    rewrite !bidx_cons. cbn [Nat.eqb bidx]. rewrite !bidx_keep by assumption.
    rewrite unravel_ravel by (repeat constructor; first [assumption | lia]).
    reflexivity.
  - eexists; split; [reflexivity|]. split; [exact Hs|].
    intros b h i j Hb Hh Hi' Hj. reflexivity.
Qed.

Lemma forward_eval_f32 randb self q k v B H L L' d n :
  nn_basic.Dropout.training (nn_transformer.MultiHeadAttention.dropout self) = false ->
  shape q = [B; H; L; d] -> shape k = [B; H; S L'; d] -> shape v = [B; H; S L'; d] ->
  exists lg probs result,
    MultiHeadAttention.logits self q k L (S L') d = Ok lg /\
    MultiHeadAttention.softmax lg = Ok probs /\
    MultiHeadAttention.forward randb self q k v n = (Ok (result, probs), n).
Proof.
  intros Hd Hq Hk Hv.
  destruct (scores_entries_f32 q k B H L (S L') d Hq Hk) as (sc & Hsc & _).
  destruct (logits_entries_f32 self q k sc B H L (S L') d Hq Hk Hsc)
    as (lg & Hlg & Hs & _).
  assert (Hsm : exists probs, MultiHeadAttention.softmax lg = Ok probs /\
                              shape probs = [B; H; L; S L']).
  { destruct (softmax_entries_f32 lg B H L L' Hs) as (p & Hp & Hps & _). eauto. }
  destruct Hsm as (probs & Hp & Hps).
  assert (Hvt : exists vt, transpose_last v = Ok vt /\ shape vt = [B; H; d; S L']).
  { unfold transpose_last, transpose. rewrite Hv. cbn. eauto. }
  destruct Hvt as (vt & Hvt & Hvs).
  destruct (matmul_entries_f32 probs vt B H L d (S L') Hps Hvs) as (res & Hres & _).
  exists lg, probs, res. split; [exact Hlg|]. split; [exact Hp|].
  unfold MultiHeadAttention.forward. rewrite Hq, Hk, Hv.
  cbn [unpack4]. unfold mbind, stateful_bind, lift. rewrite Nat.eqb_refl.
  cbn [negb andb]. rewrite Hlg, Hp. unfold Dropout.forward. rewrite Hd.
  unfold mret, stateful_ret. rewrite Hvt. cbn. rewrite Hres. reflexivity.
Qed.

Local Open Scope R_scope.

Lemma round32_repr_range m e :
  (Z.abs m < 2 ^ 24)%Z -> (-149 <= e <= 104)%Z ->
  round32 (IZR m * bpow e) = Fin (IZR m * bpow e).
Proof.
  intros Hm He. apply round32_repr; [assumption | lia |].
  rewrite Rabs_mult, (Rabs_right (bpow e)) by (left; apply bpow_pos).
  apply Rlt_le_trans with (bpow 24 * bpow e).
  - apply Rmult_lt_compat_r; [apply bpow_pos|].
    rewrite <- abs_IZR, bpow_IZR by lia. now apply IZR_lt.
  - rewrite <- bpow_add. apply bpow_le. lia.
Qed.

(** [c] is a float32: it is [m * 2^e] for a significand [m] below 2^24 and
    an exponent [e] of the format. *)
Ltac float32_constant m e :=
  match goal with
  | |- round32 ?c = Fin _ =>
      replace c with (IZR m * bpow e)%R;
      [ apply round32_repr_range; [reflexivity | lia]
      | unfold bpow; simpl; lra ]
  end.

Lemma round32_2 : round32 2 = Fin 2.
Proof. apply (round32_IZR 2). reflexivity. Qed.

Lemma round32_m1 : round32 (-1) = Fin (-1).
Proof. apply (round32_IZR (-1)). reflexivity. Qed.

Lemma round32_half : round32 (1 / 2) = Fin (1 / 2).
Proof. float32_constant 1%Z (-1)%Z. Qed.

Lemma round32_quarter : round32 (1 / 4) = Fin (1 / 4).
Proof. float32_constant 1%Z (-2)%Z. Qed.

Lemma round32_5_8 : round32 (5 / 8) = Fin (5 / 8).
Proof. float32_constant 5%Z (-3)%Z. Qed.

Lemma round32_5_4 : round32 (5 / 4) = Fin (5 / 4).
Proof. float32_constant 5%Z (-2)%Z. Qed.

Lemma round32_3_2 : round32 (3 / 2) = Fin (3 / 2).
Proof. float32_constant 3%Z (-1)%Z. Qed.

Lemma round32_bpow e : (-149 <= e <= 104)%Z -> round32 (bpow e) = Fin (bpow e).
Proof.
  intros He. rewrite <- (Rmult_1_l (bpow e)).
  apply (round32_repr_range 1); [reflexivity | assumption].
Qed.

(** *** The softmax under a shift of the logits *)

Lemma round32_shifted_one : round32 (1 + 33554432) = Fin 33554432.
Proof.
  unfold round32. cbn zeta.
  rewrite (rnd_eval 24 (-149) (1 + 33554432) 2 (2 ^ 23)).
  - replace (IZR (2 ^ 23) * bpow 2) with 33554432
      by (unfold bpow; simpl; lra).
    destruct (Rlt_dec _ _) as [|n]; [reflexivity|].
    exfalso. apply n. rewrite Rabs_right by lra.
    rewrite (bpow_IZR 128) by lia. apply IZR_lt. reflexivity.
  - rewrite Rabs_right by lra. rewrite !bpow_IZR by lia.
    split; [|rewrite <- plus_IZR; apply IZR_lt; reflexivity].
    rewrite <- plus_IZR. apply IZR_le. vm_compute. discriminate.
  - lia.
  - replace ((1 + 33554432) * bpow (- (2)) - IZR (2 ^ 23)) with (1 / 4)
      by (unfold bpow; simpl; lra).
    rewrite Rabs_right by lra. lra.
Qed.

Lemma round32_2_25 : round32 33554432 = Fin 33554432.
Proof. float32_constant 1%Z 25%Z. Qed.

Lemma exp_m1_bounds : 1 / 4 <= Rtrigo_def.exp (-1) <= 1 / 2.
Proof.
  change (-1) with (Ropp 1). rewrite exp_Ropp. pose proof exp_le_3 as H3.
  pose proof (exp_ineq1 1 ltac:(lra)) as H2.
  split.
  - apply Rmult_le_reg_r with (Rtrigo_def.exp 1); [lra|].
    rewrite Rinv_l by lra. lra.
  - apply Rmult_le_reg_r with (Rtrigo_def.exp 1); [lra|].
    rewrite Rinv_l by lra. lra.
Qed.

Import Float32.Inputs.

(** C5, counterexample: in float32 the shift of the logits 0 and 1 by 2^25
    gives 2^25 twice (1 + 2^25 is not a float32 and rounds to 2^25), so the
    softmax of the shifted row is (1/2, 1/2), while the softmax of the row
    itself gives its second entry at least 5/8. *)
Lemma softmax_shift_rounds :
  exists p p',
    MultiHeadAttention.softmax (add_scalar logits01 33554432) = Ok p /\
    MultiHeadAttention.softmax logits01 = Ok p' /\
    item p [0; 0; 0; 1]%nat = Fin (1 / 2) /\
    fle (Fin (5 / 8)) (item p' [0; 0; 0; 1]%nat) /\
    ~ tensor_eq p p'.
Proof.
  destruct (softmax_entries_f32 (add_scalar logits01 33554432) 1 1 1 1 eq_refl)
    as (p & Hp & Hps & Hpi).
  destruct (softmax_entries_f32 logits01 1 1 1 1 eq_refl) as (p' & Hp' & _ & Hpi').
  exists p, p'. split; [exact Hp|]. split; [exact Hp'|].
  enough (Hboth : item p [0; 0; 0; 1]%nat = Fin (1 / 2) /\
                  fle (Fin (5 / 8)) (item p' [0; 0; 0; 1]%nat)).
  { destruct Hboth as [H1 H2]. split; [exact H1|]. split; [exact H2|].
    intros [_ Heq]. rewrite <- Heq, H1 in H2.
    - cbn in H2. lra.
    - rewrite Hps. repeat constructor. }
  split.
  - rewrite Hpi by lia.
    cbn [fmaximum fsum seq foldl item add_scalar map_tensor logits01].
    unfold scalar. rewrite round32_2_25. cbn [fadd].
    rewrite Rplus_0_l, round32_2_25, round32_shifted_one. cbn [fmax fsub].
    rewrite Rmax_left by lra.
    replace (33554432 - 33554432) with 0 by lra.
    rewrite round32_0, fexp_0. cbn [fadd].
    rewrite Rplus_0_l, round32_1. cbn [fadd].
    replace (1 + 1) with 2 by lra. rewrite round32_2. cbn [fdiv].
    destruct (Req_dec_T 2 0); [lra|]. apply round32_half.
  - rewrite Hpi' by lia.
    cbn [fmaximum fsum seq foldl item logits01 fmax fsub].
    rewrite Rmax_right by lra.
    replace (0 - 1) with (-1) by lra. replace (1 - 1) with 0 by lra.
    rewrite round32_m1, round32_0, fexp_0.
    destruct (round32_between (1 / 4) (Rtrigo_def.exp (-1)) (1 / 2)
                round32_quarter round32_half exp_m1_bounds) as (a & Ha & Ha1).
    cbn [fexp]. rewrite Ha. cbn [fadd]. rewrite Rplus_0_l.
    destruct (round32_between (1 / 4) a (1 / 2)
                round32_quarter round32_half Ha1) as (a' & Ha' & Ha1').
    rewrite Ha'. cbn [fadd].
    destruct (round32_between (5 / 4) (a' + 1) (3 / 2)
                round32_5_4 round32_3_2 ltac:(lra)) as (t & Ht & Ht1).
    rewrite Ht. cbn [fdiv]. destruct (Req_dec_T t 0); [lra|].
    rewrite <- round32_5_8. apply round32_le.
    apply Rmult_le_reg_r with t; [lra|].
    unfold Rdiv at 2. rewrite Rmult_assoc, Rinv_l by lra. lra.
Qed.

Lemma fmaximum_shift d f g C :
  (forall k, (k <= d)%nat -> exists x, f k = Fin x /\ g k = Fin (x + C)) ->
  exists m, fmaximum d f = Fin m /\ fmaximum d g = Fin (m + C).
Proof.
  induction d as [|d IH]; intros H; cbn [fmaximum].
  - destruct (H 0%nat ltac:(lia)) as (x & -> & ->). eauto.
  - destruct IH as (m & -> & ->); [intros; apply H; lia|].
    destruct (H (S d) ltac:(lia)) as (x & -> & ->).
    exists (Rmax m x). split; [reflexivity|]. cbn [fmax]. f_equal.
    unfold Rmax. destruct (Rle_dec (m + C) (x + C)), (Rle_dec m x); lra.
Qed.

(** C5, with the condition float32 puts on it: on a rank-4 tensor of finite
    logits, for a constant [C] that is a float32 and whose sum with every
    logit is a float32 (the additions [logit + C] round nothing away),
    [softmax (logit + C)] is [softmax logit], entry by entry; on an empty
    last axis both raise. *)
Theorem softmax_shift_exact logit C B H Q K :
  shape logit = [B; H; Q; K] ->
  round32 C = Fin C ->
  (forall b h i j, (b < B)%nat -> (h < H)%nat -> (i < Q)%nat -> (j < K)%nat ->
     exists x, item logit [b; h; i; j] = Fin x /\ round32 (x + C) = Fin (x + C)) ->
  (K = 0%nat /\
   MultiHeadAttention.softmax (add_scalar logit C) = Raise ValueError /\
   MultiHeadAttention.softmax logit = Raise ValueError) \/
  (exists p p',
     MultiHeadAttention.softmax (add_scalar logit C) = Ok p /\
     MultiHeadAttention.softmax logit = Ok p' /\
     tensor_eq p p').
Proof.
  intros Hs HC Hx. destruct K as [|K].
  - left. split; [reflexivity|].
    split; apply (softmax_empty _ B H Q); [cbn [shape add_scalar map_tensor]|];
      exact Hs.
  - right.
    destruct (softmax_entries_f32 (add_scalar logit C) B H Q K Hs)
      as (p & Hp & Hps & Hpi).
    destruct (softmax_entries_f32 logit B H Q K Hs) as (p' & Hp' & Hps' & Hpi').
    exists p, p'. split; [exact Hp|]. split; [exact Hp'|].
    split; [congruence|].
    intros idx Hidx. rewrite Hps in Hidx. split_index Hidx.
    rename i into b, i0 into h, i1 into i, i2 into j.
    rewrite Hpi, Hpi' by assumption. cbn zeta.
    assert (Hshift : forall k, (k < S K)%nat ->
              exists x, item logit [b; h; i; k] = Fin x /\
                        item (add_scalar logit C) [b; h; i; k] = Fin (x + C)).
    { intros k Hk. destruct (Hx b h i k) as (x & Ex & Rx); try assumption.
      exists x. split; [exact Ex|].
      cbn [item add_scalar map_tensor]. unfold scalar.
      rewrite Ex, HC. cbn [fadd]. exact Rx. }
    destruct (fmaximum_shift K (fun k => item logit [b; h; i; k])
                (fun k => item (add_scalar logit C) [b; h; i; k]) C)
      as (m & Hm & Hm'); [intros; apply Hshift; lia|].
    rewrite Hm, Hm'.
    assert (Hd : forall k, (k < S K)%nat ->
              fsub (item (add_scalar logit C) [b; h; i; k]) (Fin (m + C)) =
              fsub (item logit [b; h; i; k]) (Fin m)).
    { intros k Hk. destruct (Hshift k Hk) as (x & -> & ->). cbn [fsub].
      f_equal. ring. }
    rewrite Hd by assumption. f_equal.
    apply fsum_ext. intros k Hk. now rewrite Hd.
Qed.

Lemma softmax_shift_exact_witness :
  (2%nat = 0%nat /\
   MultiHeadAttention.softmax (add_scalar logits01 2) = Raise ValueError /\
   MultiHeadAttention.softmax logits01 = Raise ValueError) \/
  (exists p p',
     MultiHeadAttention.softmax (add_scalar logits01 2) = Ok p /\
     MultiHeadAttention.softmax logits01 = Ok p' /\
     tensor_eq p p').
Proof.
  apply (softmax_shift_exact logits01 2 1 1 1 2).
  - reflexivity.
  - exact round32_2.
  - intros b h i j _ _ _ Hj.
    destruct j as [|[|j]]; [| |lia]; cbn [item logits01].
    + exists 0. split; [reflexivity|]. rewrite Rplus_0_l. exact round32_2.
    + exists 1. split; [reflexivity|].
      replace (1 + 2) with 3 by lra. apply (round32_IZR 3). reflexivity.
Defined.

(** *** The causal mask *)

Lemma Rabs_le_between x b : Rabs x <= b -> - b <= x <= b.
Proof. unfold Rabs. destruct (Rcase_abs x); lra. Qed.

Lemma fle_refl a : a <> NaN -> fle a a.
Proof. destruct a as [|[]|x]; cbn; try tauto. intros _. lra. Qed.

Lemma fle_not_NaN_l a b : fle a b -> a <> NaN.
Proof. destruct a; cbn; [tauto | discriminate | discriminate]. Qed.

Lemma fle_not_NaN_r a b : fle a b -> b <> NaN.
Proof. destruct a as [|[]|x], b; cbn; try tauto; discriminate. Qed.

Lemma fmax_spec a b :
  a <> NaN -> b <> NaN ->
  (fmax a b = a \/ fmax a b = b) /\ fle a (fmax a b) /\ fle b (fmax a b).
Proof.
  destruct a as [|[]|x], b as [|[]|y]; cbn; try tauto; intros _ _;
    try (split; [tauto | split; lra]).
  unfold Rmax. destruct (Rle_dec x y); (split; [tauto | split; lra]).
Qed.

Lemma fmaximum_spec d f :
  (forall c, (c <= d)%nat -> f c <> NaN) ->
  (exists c, (c <= d)%nat /\ fmaximum d f = f c) /\
  (forall c, (c <= d)%nat -> fle (f c) (fmaximum d f)).
Proof.
  induction d as [|d IH]; intros H; cbn [fmaximum].
  - split.
    + exists 0%nat. split; [lia | reflexivity].
    + intros c Hc. replace c with 0%nat by lia. apply fle_refl, H. lia.
  - destruct IH as [(c0 & Hc0 & E) Hle]; [intros; apply H; lia|].
    assert (Hm : fmaximum d f <> NaN) by (rewrite E; apply H; lia).
    destruct (fmax_spec (fmaximum d f) (f (S d)) Hm (H (S d) ltac:(lia)))
      as ([Hl|Hr] & H1 & H2).
    + split.
      * exists c0. split; [lia | congruence].
      * intros c Hc. destruct (Nat.eq_dec c (S d)) as [->|]; [exact H2|].
        apply fle_trans with (fmaximum d f); [apply Hle; lia | exact H1].
    + split.
      * exists (S d). split; [lia | exact Hr].
      * intros c Hc. destruct (Nat.eq_dec c (S d)) as [->|]; [exact H2|].
        apply fle_trans with (fmaximum d f); [apply Hle; lia | exact H1].
Qed.

Lemma fsub_le_0 a m : fle a (Fin m) -> fle (fsub a (Fin m)) (Fin 0).
Proof.
  destruct a as [|[]|x]; cbn; try tauto.
  intros H. rewrite <- round32_0. apply round32_le. lra.
Qed.

Lemma fadd_ge a0 y0 acc y :
  round32 (a0 + y0) = Fin (a0 + y0) ->
  fle (Fin a0) acc -> fle (Fin y0) y -> fle (Fin (a0 + y0)) (fadd acc y).
Proof.
  intros Hr. destruct acc as [|[]|a], y as [|[]|y']; try (cbn; tauto).
  intros Ha Hy. cbn in Ha, Hy. cbn [fadd]. rewrite <- Hr.
  apply round32_le. lra.
Qed.

Lemma fsum_nonneg n f :
  (forall k, (k < n)%nat -> fle (Fin 0) (f k)) -> fle (Fin 0) (fsum n f).
Proof.
  induction n as [|n IH]; intros H.
  - cbn. lra.
  - rewrite fsum_S. replace 0 with (0 + 0) at 1 by lra.
    apply fadd_ge.
    + rewrite Rplus_0_l. apply round32_0.
    + apply IH. intros; apply H; lia.
    + apply H. lia.
Qed.

Lemma fsum_ge_one n f c :
  (forall k, (k < n)%nat -> fle (Fin 0) (f k)) ->
  (c < n)%nat -> f c = Fin 1 -> fle (Fin 1) (fsum n f).
Proof.
  induction n as [|n IH]; intros H Hc E; [lia|].
  rewrite fsum_S. destruct (Nat.eq_dec c n) as [->|Hne].
  - replace 1 with (0 + 1) at 1 by lra. apply fadd_ge.
    + rewrite Rplus_0_l. apply round32_1.
    + apply fsum_nonneg. intros; apply H; lia.
    + rewrite E. cbn. lra.
  - replace 1 with (1 + 0) at 1 by lra. apply fadd_ge.
    + rewrite Rplus_0_r. apply round32_1.
    + apply IH; [intros; apply H; lia | lia | exact E].
    + apply H. lia.
Qed.

Lemma fdiv_zero a : fle (Fin 1) a -> fdiv (Fin 0) a = Fin 0.
Proof.
  destruct a as [|[]|t]; cbn; try tauto.
  intros H. destruct (Req_dec_T t 0); [lra|].
  unfold Rdiv. rewrite Rmult_0_l. apply round32_0.
Qed.

Lemma float32_max_repr :
  MultiHeadAttention.float32_max = IZR (2 ^ 24 - 1) * bpow 104.
Proof.
  unfold MultiHeadAttention.float32_max. rewrite mult_IZR.
  now rewrite (bpow_IZR 104) by lia.
Qed.

Lemma round32_float32_min :
  round32 (- MultiHeadAttention.float32_max) = Fin (- MultiHeadAttention.float32_max).
Proof.
  rewrite float32_max_repr, Ropp_mult_distr_l, <- opp_IZR.
  apply round32_repr_range; [reflexivity | lia].
Qed.

Lemma mask_future L i j :
  (i < j)%nat ->
  item (MultiHeadAttention.create_causal_mask L L) [0; 0; i; j]%nat =
  Fin (- MultiHeadAttention.float32_max).
Proof.
  intros H. cbn [item MultiHeadAttention.create_causal_mask].
  destruct (Z.leb_spec (Z.of_nat L - Z.of_nat L + 1) (Z.of_nat j - Z.of_nat i));
    [|lia].
  cbn [fmul]. rewrite Rmult_1_r. apply round32_float32_min.
Qed.

Lemma mask_past L i j :
  (j <= i)%nat ->
  item (MultiHeadAttention.create_causal_mask L L) [0; 0; i; j]%nat = Fin 0.
Proof.
  intros H. cbn [item MultiHeadAttention.create_causal_mask].
  destruct (Z.leb_spec (Z.of_nat L - Z.of_nat L + 1) (Z.of_nat j - Z.of_nat i));
    [lia|].
  cbn [fmul]. rewrite Rmult_0_r. apply round32_0.
Qed.

Lemma round32_2_126 : round32 (bpow 126) = Fin (bpow 126).
Proof.
  rewrite (grid_bpow 104 126) by lia.
  apply round32_repr_range; [reflexivity | lia].
Qed.

Lemma round32_m2_126 : round32 (- bpow 126) = Fin (- bpow 126).
Proof.
  rewrite (grid_bpow 104 126), Ropp_mult_distr_l, <- opp_IZR by lia.
  apply round32_repr_range; [reflexivity | lia].
Qed.

Lemma round32_m200 : round32 (-200) = Fin (-200).
Proof. apply (round32_IZR (-200)). reflexivity. Qed.

Lemma float32_max_ge : 3 * bpow 126 <= MultiHeadAttention.float32_max.
Proof.
  unfold MultiHeadAttention.float32_max. rewrite (bpow_IZR 126) by lia.
  rewrite <- mult_IZR. apply IZR_le. vm_compute. discriminate.
Qed.

Lemma bpow_126_ge : 200 <= bpow 126.
Proof.
  rewrite (bpow_IZR 126) by lia. apply IZR_le. vm_compute. discriminate.
Qed.

Lemma round32_m2_127 : round32 (- (2 * bpow 126)) = Fin (- (2 * bpow 126)).
Proof.
  replace (2 * bpow 126) with (bpow 127)
    by (replace 127%Z with (1 + 126)%Z by lia; rewrite bpow_add;
        unfold bpow at 1; simpl; lra).
  rewrite (grid_bpow 104 127), Ropp_mult_distr_l, <- opp_IZR by lia.
  apply round32_repr_range; [reflexivity | lia].
Qed.

(** C1, with the bound on the scores under which the mask decides: with
    [causal] set, on float32 queries, keys and values of shape (B,H,L,d), if
    the scores [q.k / sqrt d] of row [i] that [forward] computes are finite
    and of magnitude at most 2^126, the probability the softmax of step 3
    gives at (i,j) is exactly 0 for every j > i; with dropout inactive these
    probabilities are the [probs] that [forward] returns. *)
Theorem causal_future_weight_zero randb self q k v sc B H L d n b h i j :
  nn_transformer.MultiHeadAttention.causal self = true ->
  shape q = [B; H; L; d] -> shape k = [B; H; L; d] -> shape v = [B; H; L; d] ->
  (b < B)%nat -> (h < H)%nat -> (i < j)%nat -> (j < L)%nat ->
  MultiHeadAttention.scores q k d = Ok sc ->
  (forall c, (c < L)%nat ->
     exists x, item sc [b; h; i; c] = Fin x /\ Rabs x <= bpow 126) ->
  exists lg probs,
    MultiHeadAttention.logits self q k L L d = Ok lg /\
    MultiHeadAttention.softmax lg = Ok probs /\
    item probs [b; h; i; j] = Fin 0 /\
    (nn_basic.Dropout.training (nn_transformer.MultiHeadAttention.dropout self)
       = false ->
     exists result,
       MultiHeadAttention.forward randb self q k v n = (Ok (result, probs), n)).
Proof.
  intros Hc Hq Hk Hv Hb Hh Hij Hj Hsc Hbound.
  destruct L as [|L]; [lia|].
  destruct (logits_entries_f32 self q k sc B H (S L) (S L) d Hq Hk Hsc)
    as (lg & Hlg & Hs & Hi).
  destruct (softmax_entries_f32 lg B H (S L) L Hs) as (probs & Hsm & _ & Hpi).
  exists lg, probs. split; [exact Hlg|]. split; [exact Hsm|].
  split; [|intros Hd;
           destruct (forward_eval_f32 randb self q k v B H (S L) L d n Hd Hq Hk Hv)
             as (lg' & probs' & result & Hlg' & Hsm' & Hf);
           rewrite Hlg in Hlg'; injection Hlg' as <-;
           rewrite Hsm in Hsm'; injection Hsm' as <-;
           exists result; exact Hf].
  rewrite Hpi by (assumption || lia). cbn zeta.
  set (row := fun c => item lg [b; h; i; c]).
  change (item lg [b; h; i; j]) with (row j).
  pose proof float32_max_ge as Hmax. pose proof bpow_126_ge as Hp126.
  (* the permitted logits are the scores, the others lie below -2^127 *)
  assert (Hpast : forall c, (c <= i)%nat ->
            exists y, row c = Fin y /\ - bpow 126 <= y <= bpow 126).
  { intros c Hci. unfold row. rewrite Hi, Hc by (assumption || lia).
    destruct (Hbound c ltac:(lia)) as (x & -> & Hx).
    rewrite mask_past by exact Hci. cbn [fadd]. rewrite Rplus_0_r.
    apply round32_between; [apply round32_m2_126 | apply round32_2_126 |].
    apply Rabs_le_between in Hx. lra. }
  assert (Hfuture : forall c, (i < c)%nat -> (c < S L)%nat ->
            fle (row c) (Fin (- (2 * bpow 126)))).
  { intros c Hci HcL. unfold row. rewrite Hi, Hc by (assumption || lia).
    destruct (Hbound c HcL) as (x & -> & Hx).
    rewrite mask_future by exact Hci. cbn [fadd].
    rewrite <- round32_m2_127. apply round32_le.
    apply Rabs_le_between in Hx. lra. }
  assert (Hnan : forall c, (c <= L)%nat -> row c <> NaN).
  { intros c HcL. destruct (le_lt_dec c i) as [Hci|Hci].
    - destruct (Hpast c Hci) as (y & -> & _). discriminate.
    - apply (fle_not_NaN_l _ _ (Hfuture c Hci ltac:(lia))). }
  destruct (fmaximum_spec L row Hnan) as [(c0 & Hc0 & EM) Hle].
  destruct (Hpast i ltac:(lia)) as (yi & Eyi & Hyi).
  assert (HM : exists m, fmaximum L row = Fin m /\ - bpow 126 <= m <= bpow 126).
  { destruct (le_lt_dec c0 i) as [Hci|Hci].
    - destruct (Hpast c0 Hci) as (y & Ey & Hy). exists y. now rewrite EM, Ey.
    - exfalso. pose proof (Hfuture c0 Hci ltac:(lia)) as Hf0.
      pose proof (Hle i ltac:(lia)) as Hi0. rewrite EM in Hi0.
      pose proof (fle_trans _ _ _ Hi0 Hf0) as Hbad.
      rewrite Eyi in Hbad. cbn [fle] in Hbad. lra. }
  destruct HM as (m & EMm & Hm). rewrite EMm in *.
  (* every exponential of the row lies in [0,1], the largest logit gives 1 *)
  assert (Hterm : forall c, (c < S L)%nat ->
            fle (Fin 0) (fexp (fsub (row c) (Fin m)))).
  { intros c HcL.
    destruct (fexp_unit (fsub (row c) (Fin m))) as (y & -> & Hy).
    - apply fsub_le_0, Hle. lia.
    - cbn [fle]. lra. }
  assert (Hone : fexp (fsub (row c0) (Fin m)) = Fin 1).
  { rewrite <- EM. cbn [fsub]. replace (m - m) with 0 by lra.
    rewrite round32_0. apply fexp_0. }
  assert (Hzero : fexp (fsub (row j) (Fin m)) = Fin 0).
  { apply fexp_underflow.
    pose proof (Hfuture j Hij Hj) as Hfj.
    destruct (row j) as [|[]|y]; cbn [fle fsub] in Hfj |- *; try tauto.
    rewrite <- round32_m200. apply round32_le. lra. }
  rewrite Hzero. apply fdiv_zero.
  apply (fsum_ge_one (S L) (fun c => fexp (fsub (row c) (Fin m))) c0);
    [exact Hterm | lia | exact Hone].
Qed.

Lemma round64_1 : round64 1 = 1.
Proof.
  unfold round64. rewrite <- (Rmult_1_l 1) at 1 2.
  change (1 * 1) with (IZR 1 * bpow 0).
  apply rnd_repr; [lia | reflexivity | lia].
Qed.

Lemma scalar_sqrt_1 : scalar (round64 (sqrt (INR 1))) = Fin 1.
Proof.
  unfold scalar. cbn [INR]. rewrite sqrt_1, round64_1. apply round32_1.
Qed.

Lemma fdiv_1 x : round32 x = Fin x -> fdiv (Fin x) (Fin 1) = Fin x.
Proof.
  intros H. cbn [fdiv]. destruct (Req_dec_T 1 0); [lra|].
  unfold Rdiv. now rewrite Rinv_1, Rmult_1_r.
Qed.

(** Two positions attending to themselves, every query, key and value 1:
    the scores are 1, and the first position gives the second weight 0. *)
Lemma causal_future_weight_zero_witness :
  exists lg probs,
    MultiHeadAttention.logits causal_attention ones_1121 ones_1121 2 2 1 = Ok lg /\
    MultiHeadAttention.softmax lg = Ok probs /\
    item probs [0; 0; 0; 1]%nat = Fin 0 /\
    (nn_basic.Dropout.training
       (nn_transformer.MultiHeadAttention.dropout causal_attention) = false ->
     exists result,
       MultiHeadAttention.forward randb_ones causal_attention
         ones_1121 ones_1121 ones_1121 0%nat = (Ok (result, probs), 0%nat)).
Proof.
  destruct (scores_entries_f32 ones_1121 ones_1121 1 1 2 2 1 eq_refl eq_refl)%nat
    as (sc & Hsc & _ & Hi).
  apply (causal_future_weight_zero randb_ones causal_attention
           ones_1121 ones_1121 ones_1121 sc 1 1 2 1 0 0 0 0 1)%nat;
    try reflexivity; try lia; [exact Hsc|].
  intros c Hc. exists 1. rewrite Hi by lia. split.
  - cbn [fsum seq foldl item ones_1121 fmul].
    rewrite Rmult_1_r, round32_1. cbn [fadd]. rewrite Rplus_0_l, round32_1.
    rewrite scalar_sqrt_1. apply fdiv_1, round32_1.
  - rewrite Rabs_R1. pose proof bpow_126_ge. lra.
Defined.

Lemma round32_big : round32 (IZR (7 * 2 ^ 125)) = Fin (IZR (7 * 2 ^ 125)).
Proof.
  replace (IZR (7 * 2 ^ 125)) with (IZR (7 * 2 ^ 21) * bpow 104).
  - apply round32_repr_range; [reflexivity | lia].
  - rewrite (bpow_IZR 104), <- mult_IZR by lia. f_equal.
Qed.

Lemma round32_mbig : round32 (- IZR (7 * 2 ^ 125)) = Fin (- IZR (7 * 2 ^ 125)).
Proof.
  replace (- IZR (7 * 2 ^ 125)) with (IZR (- (7 * 2 ^ 21)) * bpow 104).
  - apply round32_repr_range; [reflexivity | lia].
  - rewrite (bpow_IZR 104), <- mult_IZR, <- opp_IZR by lia. f_equal.
Qed.

Lemma round32_big_masked :
  round32 (IZR (7 * 2 ^ 125) + - MultiHeadAttention.float32_max) =
  Fin (- IZR (2097151 * 2 ^ 104)).
Proof.
  replace (IZR (7 * 2 ^ 125) + - MultiHeadAttention.float32_max)
    with (IZR (- 2097151) * bpow 104).
  - rewrite round32_repr_range by (reflexivity || lia).
    f_equal. rewrite (bpow_IZR 104), <- mult_IZR, <- opp_IZR by lia. f_equal.
  - unfold MultiHeadAttention.float32_max.
    rewrite (bpow_IZR 104), <- mult_IZR, <- opp_IZR, <- plus_IZR by lia. f_equal.
Qed.

(** The two additions that decide the counterexamples, 1 + 2^25 (it rounds
    to 2^25) and 1.75 * 2^127 - float32_max (it is exact), give the same in
    the Standard Library's executable binary32 arithmetic. *)
Lemma binary32_additions_agree :
  of_spec_float (SFadd 24 128 (S754_finite false 8388608 (-23))
                              (S754_finite false 8388608 2)) =
    fadd (Fin 1) (Fin 33554432) /\
  of_spec_float (SFadd 24 128 (S754_finite false 14680064 104)
                              (S754_finite true 16777215 104)) =
    fadd (Fin (IZR (7 * 2 ^ 125))) (Fin (- MultiHeadAttention.float32_max)).
Proof.
  split.
  - replace (SFadd 24 128 _ _) with (S754_finite false 8388608 2)
      by (vm_compute; reflexivity).
    cbn [of_spec_float cond_Zopp fadd]. rewrite round32_shifted_one.
    f_equal. unfold bpow. simpl. lra.
  - replace (SFadd 24 128 _ _) with (S754_finite true 16777208 101)
      by (vm_compute; reflexivity).
    cbn [of_spec_float cond_Zopp fadd]. rewrite round32_big_masked.
    f_equal. rewrite (bpow_IZR 101), <- mult_IZR, <- opp_IZR by lia.
    f_equal.
Qed.

(** Keys of magnitude 1.75 * 2^127 over float32: every intermediate result
    is a float32, the masked logit at (0,1) is the largest of its row, the
    exponential of the other underflows, and the probability at (0,1) is
    exactly 1. *)
Lemma causal_weight_one :
  exists result probs,
    MultiHeadAttention.forward randb_ones causal_attention
      ones_1121 keys_big ones_1121 0%nat = (Ok (result, probs), 0%nat) /\
    item probs [0; 0; 0; 1]%nat = Fin 1.
Proof.
  destruct (forward_eval_f32 randb_ones causal_attention ones_1121 keys_big ones_1121
              1 1 2 1 1 0)%nat
    as (lg & probs & result & Hlg & Hsm & Hf); try reflexivity.
  exists result, probs. split; [exact Hf|].
  destruct (scores_entries_f32 ones_1121 keys_big 1 1 2 2 1 eq_refl eq_refl)%nat
    as (sc & Hsc & _ & Hsi).
  destruct (logits_entries_f32 causal_attention ones_1121 keys_big sc 1 1 2 2 1
              eq_refl eq_refl Hsc)%nat as (lg' & Hlg' & Hs & Hi).
  rewrite Hlg in Hlg'. injection Hlg' as <-.
  destruct (softmax_entries_f32 lg 1 1 2 1 Hs)%nat as (p' & Hp' & _ & Hpi).
  rewrite Hsm in Hp'. injection Hp' as <-.
  assert (H00 : item lg [0; 0; 0; 0]%nat = Fin (- IZR (7 * 2 ^ 125))).
  { rewrite Hi, Hsi by lia. cbn [causal_attention nn_transformer.MultiHeadAttention.causal].
    rewrite mask_past by lia.
    cbn [fsum seq foldl item ones_1121 keys_big fmul].
    rewrite Rmult_1_l, round32_mbig. cbn [fadd]. rewrite Rplus_0_l, round32_mbig.
    rewrite scalar_sqrt_1, (fdiv_1 _ round32_mbig). cbn [fadd].
    rewrite Rplus_0_r. apply round32_mbig. }
  assert (H01 : item lg [0; 0; 0; 1]%nat = Fin (- IZR (2097151 * 2 ^ 104))).
  { rewrite Hi, Hsi by lia. cbn [causal_attention nn_transformer.MultiHeadAttention.causal].
    rewrite mask_future by lia.
    cbn [fsum seq foldl item ones_1121 keys_big fmul].
    rewrite Rmult_1_l, round32_big. cbn [fadd]. rewrite Rplus_0_l, round32_big.
    rewrite scalar_sqrt_1, (fdiv_1 _ round32_big). cbn [fadd].
    apply round32_big_masked. }
  assert (Hlt : - IZR (7 * 2 ^ 125) + 200 <= - IZR (2097151 * 2 ^ 104)).
  { rewrite <- !opp_IZR, <- plus_IZR. apply IZR_le. vm_compute. discriminate. }
  rewrite Hpi by lia. cbn zeta. cbn [fmaximum fsum seq foldl].
  rewrite H00, H01. cbn [fmax fsub]. rewrite Rmax_right by lra.
  replace (- IZR (2097151 * 2 ^ 104) - - IZR (2097151 * 2 ^ 104)) with 0 by lra.
  rewrite round32_0, fexp_0.
  rewrite (fexp_underflow (round32 _)).
  - cbn [fadd]. rewrite Rplus_0_l, round32_0. cbn [fadd].
    rewrite Rplus_0_l, round32_1. apply fdiv_1, round32_1.
  - rewrite <- round32_m200. apply round32_le. lra.
Qed.

End Float32_facts.

(** ** The model on concrete inputs *)

Module Examples_facts.
Import Engine nn_basic nn_transformer Examples.

Example ravel_example :
  ravel [2; 3; 4] [1; 2; 3] = 23 /\ unravel [2; 3; 4] 23 = [1; 2; 3].
Proof. split; reflexivity. Qed.

(** The walk lists the descendants in attribute order, depth first. *)
Example children_example : Module._children 9 st0 0 = Some [1; 2; 3].
Proof. reflexivity. Qed.

Example children_short_of_depth : Module._children 8 st0 0 = None.
Proof. reflexivity. Qed.

Example parameters_example :
  Module.parameters 9 st0 0 = Some [ones [2]; zeros [2]].
Proof. reflexivity. Qed.

Example eval_example :
  (st' ← Module.eval 9 st0 0; Some (training <$> st' !! 0, training <$> st' !! 3))
  = Some (Some false, Some false).
Proof. vm_compute. reflexivity. Qed.

Example matmul_mismatch :
  MultiHeadAttention.matmul (ones [1; 1; 2; 3]) (ones [1; 1; 2; 4]) = Raise ShapeError.
Proof. reflexivity. Qed.

(** The mask forbids the positions above the diagonal shifted by the excess
    of keys over queries. *)
Example mask_example :
  item (MultiHeadAttention.create_causal_mask 3 3) [0; 0; 1; 2]
    = (- MultiHeadAttention.float32_max * 1)%R /\
  item (MultiHeadAttention.create_causal_mask 3 3) [0; 0; 1; 1]
    = (- MultiHeadAttention.float32_max * 0)%R /\
  item (MultiHeadAttention.create_causal_mask 2 3) [0; 0; 0; 1]
    = (- MultiHeadAttention.float32_max * 0)%R.
Proof. repeat split; reflexivity. Qed.

Example layernorm_rank0 :
  LayerNorm1d.forward (LayerNorm1d.mk true 2 0 (ones [2]) (zeros [2])) (ones [])
  = Raise IndexError.
Proof. reflexivity. Qed.

End Examples_facts.
